(** * SmartBuffer: a shallow embedding of [src/index.ts]

    The development follows the class [SmartBuffer] method by method.

    - JavaScript numbers that the class uses as offsets, lengths and integer
      values are modelled by [Z]; the 32-bit coercions of the bit operators
      ([x | 0], [x >>> 0], [<<], [>>], [>>>], [&], [^]) are written out in
      module [JS].
    - The backing store ([this.buffer], a Node [Buffer]) is a [list Z] of
      bytes.  Reading outside the store yields [undefined] ([None]); storing
      outside the store is ignored; storing a number keeps its low 8 bits.
    - A method is a function from the receiver's state to the state after
      the call together with the value returned or the exception thrown, so
      that a mutation made before a [throw] stays visible.
    - Methods that receive a second [SmartBuffer] ([write], [prepend]) run
      on a heap of objects addressed by references, so that a source that is
      the receiver itself is the same object. *)

From Stdlib Require Import ZArith Lia Bool List String Ascii.
From stdpp Require Import base option list gmap.
From Equations Require Import Equations.
From Equations.Prop Require Import Logic.
Import ListNotations.
Local Open Scope Z_scope.

(** ** JavaScript 32-bit integer operators *)

Module JS.

(** [x >>> 0] *)
Definition ToUint32 (x : Z) : Z := x mod 2 ^ 32.

(** [x | 0] *)
Definition ToInt32 (x : Z) : Z :=
  let u := x mod 2 ^ 32 in if u <? 2 ^ 31 then u else u - 2 ^ 32.

(** [a << n] *)
Definition shl (a n : Z) : Z := ToInt32 (Z.shiftl (ToInt32 a) (n mod 32)).

(** [a >> n] *)
Definition sar (a n : Z) : Z := Z.shiftr (ToInt32 a) (n mod 32).

(** [a >>> n] *)
Definition shr (a n : Z) : Z := Z.shiftr (ToUint32 a) (n mod 32).

(** [a & b], [a | b], [a ^ b] *)
Definition and (a b : Z) : Z := Z.land (ToInt32 a) (ToInt32 b).
Definition or (a b : Z) : Z := Z.lor (ToInt32 a) (ToInt32 b).
Definition xor (a b : Z) : Z := Z.lxor (ToInt32 a) (ToInt32 b).

(** A value read from a typed array: a byte, or [undefined] when the index
    is outside the array.  The bit operators turn [undefined] into 0. *)
Definition number (v : option Z) : Z := default 0 v.

(** A JavaScript string is a sequence of UTF-16 code units. *)
Abbreviation jsstring := (list Z) (only parsing).

Definition code (a : ascii) : Z := Z.of_N (N_of_ascii a).

Fixpoint str (s : string) : jsstring :=
  match s with
  | EmptyString => []
  | String a s' => code a :: str s'
  end.

End JS.

(** ** Exceptions and results *)

Inductive exn : Type :=
| TypeError (message : string)
| RangeError (message : string)
| Error (message : string) (truncated : bool).

Inductive result (A : Type) : Type :=
| Ok (a : A)
| Throw (e : exn).
Arguments Ok {A} a.
Arguments Throw {A} e.

(** A computation over a mutable state [S]: the state after the call and the
    outcome.  The state is returned also when the call throws. *)
Definition M (S A : Type) : Type := S -> S * result A.

Definition ret {S A} (a : A) : M S A := fun s => (s, Ok a).
Definition throw {S A} (e : exn) : M S A := fun s => (s, Throw e).
Definition bind {S A B} (m : M S A) (k : A -> M S B) : M S B :=
  fun s => match m s with
           | (s', Ok a) => k a s'
           | (s', Throw e) => (s', Throw e)
           end.
Definition get {S} : M S S := fun s => (s, Ok s).
Definition put {S} (s : S) : M S unit := fun _ => (s, Ok tt).
Definition gets {S A} (f : S -> A) : M S A := fun s => (s, Ok (f s)).
Definition modify {S} (f : S -> S) : M S unit := fun s => (f s, Ok tt).
Definition when_ {S} (b : bool) (m : M S unit) : M S unit :=
  if b then m else ret tt.

Declare Scope monad_scope.
Delimit Scope monad_scope with monad.
Notation "'let*' x ':=' m 'in' k" := (bind m (fun x => k))
  (at level 10, x pattern, m at level 100, k at level 200) : monad_scope.
Notation "m ';;' k" := (bind m (fun _ => k))
  (at level 100, k at level 200, right associativity) : monad_scope.
Local Open Scope monad_scope.

(** ** The host's byte container (Node [Buffer]) *)

Module Buffer.

Abbreviation t := (list Z) (only parsing).

Definition length (b : t) : Z := Z.of_nat (List.length b).

(** [b[i]] *)
Definition get (b : t) (i : Z) : option Z :=
  if (0 <=? i) && (i <? length b) then b !! Z.to_nat i else None.

(** [b[i] = v] *)
Definition set (b : t) (i v : Z) : t :=
  if (0 <=? i) && (i <? length b) then <[Z.to_nat i := v mod 256]> b else b.

(** [b.slice(begin, end)], as a value. *)
Definition slice (b : t) (begin end_ : Z) : t :=
  take (Z.to_nat (end_ - begin)) (drop (Z.to_nat begin) b).

(** The bytes of [target] after [nb] bytes of [source] from [sourceStart]
    have been copied to [targetStart], cut to what [target] can hold. *)
Definition blit (source target : t) (targetStart sourceStart sourceEnd : Z) : t :=
  let chunk := take (Z.to_nat (length target - targetStart))
                    (slice source sourceStart sourceEnd) in
  take (Z.to_nat targetStart) target ++ chunk
    ++ drop (Z.to_nat targetStart + List.length chunk) target.

(** [source.copy(target, targetStart, sourceStart, sourceEnd)]: the target
    after the call.  The host refuses a negative position and a
    [sourceStart] behind the end of the source; it copies nothing when
    [targetStart] is not inside the target or the source range is empty, and
    cuts the range to what the source has and the target can hold. *)
Definition copy (source target : t) (targetStart sourceStart sourceEnd : Z) : result t :=
  if (targetStart <? 0) || (sourceStart <? 0) || (sourceStart >? length source)
     || (sourceEnd <? 0)
  then Throw (RangeError "The value is out of range")
  else Ok (blit source target targetStart sourceStart sourceEnd).

(** [b.write(str, offset, k, "utf8")], given the UTF-8 bytes of [str]: the
    store after the call and the number of bytes written, at most [k] and at
    most the room left.  The host refuses an offset outside the store. *)
Definition write (b : t) (bytes : list Z) (offset k : Z) : result (t * Z) :=
  if (offset <? 0) || (offset >? length b)
  then Throw (RangeError "The value of offset is out of range")
  else
    let chunk := take (Z.to_nat (Z.min k (length b - offset))) bytes in
    Ok (take (Z.to_nat offset) b ++ chunk
          ++ drop (Z.to_nat offset + List.length chunk) b,
        length chunk).

(** [buffer.constants.MAX_LENGTH], the largest size the host allocates
    (2^53 - 1 on a 64-bit platform). *)
Definition MAX_LENGTH : Z := 2 ^ 53 - 1.

(** [Buffer.allocUnsafe(n)]: [n] bytes of unspecified content, given by
    [junk]; the host refuses a negative size and a size above
    [MAX_LENGTH]. *)
Definition allocUnsafe (junk : nat -> Z) (n : Z) : result t :=
  if (n <? 0) || (n >? MAX_LENGTH)
  then Throw (RangeError "The value of size is out of range")
  else Ok (map junk (seq 0 (Z.to_nat n))).

Definition EMPTY_BUFFER : t := [].

End Buffer.

(** ** The class *)

Record SmartBuffer : Type := mkSmartBuffer {
  buffer : Buffer.t;
  woffset : Z;
  roffset : Z;
  noAssert : bool
}.

Definition set_buffer (b : Buffer.t) (this : SmartBuffer) : SmartBuffer :=
  mkSmartBuffer b (woffset this) (roffset this) (noAssert this).
Definition set_woffset (w : Z) (this : SmartBuffer) : SmartBuffer :=
  mkSmartBuffer (buffer this) w (roffset this) (noAssert this).
Definition set_roffset (r : Z) (this : SmartBuffer) : SmartBuffer :=
  mkSmartBuffer (buffer this) (woffset this) r (noAssert this).

(** [get capacity()] and [get length()] *)
Definition capacity (this : SmartBuffer) : Z := Buffer.length (buffer this).
Definition length (this : SmartBuffer) : Z := woffset this - roffset this.

Definition DEFAULT_CAPACITY : Z := 64.
Definition DEFAULT_NOASSERT : bool := false.
Definition MAX_VARINT32_BYTES : Z := 5.

(** An optional offset argument: [None] is the omitted argument
    ([offset === void 0]), [Some o] an integer-valued number.  For such an
    argument the tests [typeof offset !== "number" || offset % 1 !== 0] of
    the source are false and are not repeated in the model. *)
Definition optional := option Z.

(** The value returned by a varint read: the bare number of a relative call
    or the pair [{ value, length }] of an absolute call. *)
Inductive NumberValue : Type :=
| Number (value : Z)
| SNumber (value : Z) (length : Z).

Definition lift {S A} (r : result A) : M S A := fun s => (s, r).

Section Methods.

(** Content of freshly allocated, uninitialised memory. *)
Variable junk : nat -> Z.

(** The host's UTF-8 codec: the bytes of a string
    ([Buffer.byteLength(str, "utf8")] is their number, [buffer.write] stores
    them) and the string of a byte sequence ([buffer.toString("utf8", ..)]). *)
Variable utf8 : JS.jsstring -> list Z.
Variable utf8_decode : list Z -> JS.jsstring.

(** [new SmartBuffer(capacity, noAssert)] *)
Definition new (capacity : Z) (noAssert : bool) : result SmartBuffer :=
  let capacity := if noAssert then capacity else JS.ToInt32 capacity in
  if negb noAssert && (capacity <? 0) then Throw (TypeError "Illegal capacity")
  else
    match (if capacity =? 0 then Ok Buffer.EMPTY_BUFFER
           else Buffer.allocUnsafe junk capacity) with
    | Ok b => Ok (mkSmartBuffer b 0 0 noAssert)
    | Throw e => Throw e
    end.

(** [resize(capacity)] *)
Definition resize (capacity : Z) : M SmartBuffer unit :=
  let* this := get in
  let* capacity :=
    if negb (noAssert this) then
      let capacity := JS.ToInt32 capacity in
      if capacity <? 0 then throw (TypeError "Not valid capacity value")
      else ret capacity
    else ret capacity in
  if Buffer.length (buffer this) <? capacity then
    let* buffer' := lift (Buffer.allocUnsafe junk capacity) in
    let* buffer' :=
      lift (Buffer.copy (buffer this) buffer' 0 0 (Buffer.length (buffer this))) in
    modify (set_buffer buffer')
  else ret tt.

(** [ensureCapacity(capacity)] *)
Definition ensureCapacity (capacity : Z) : M SmartBuffer unit :=
  let* this := get in
  let current := Buffer.length (buffer this) in
  if current <? capacity then
    resize (if current * 2 >? capacity then current * 2 else capacity)
  else ret tt.

(** The growth step that every write repeats inline:
    [let capacity = this.buffer.length;
     if (offset > capacity) this.resize((capacity *= 2) > offset ? capacity : offset)] *)
Definition grow (offset : Z) : M SmartBuffer unit :=
  let* this := get in
  let capacity := Buffer.length (buffer this) in
  if offset >? capacity then
    resize (if capacity * 2 >? offset then capacity * 2 else offset)
  else ret tt.

(** [_checkRead(offset, bytes)] *)
Definition _checkRead (offset : optional) (bytes : Z) : M SmartBuffer Z :=
  let* offset :=
    match offset with
    | None =>
        let* this := get in
        modify (set_roffset (roffset this + bytes));;
        ret (roffset this)
    | Some o => ret o
    end in
  let* this := get in
  when_ (negb (noAssert this))
    (if (offset <? 0) || (offset + bytes >? Buffer.length (buffer this))
     then throw (RangeError "Illegal offset") else ret tt);;
  ret offset.

(** [_checkWrite(value, offset, bytes)] for an integer [value]; the test
    on [value] cannot fail for it. *)
Definition _checkWrite (value : Z) (offset : optional) (bytes : Z) : M SmartBuffer Z :=
  let* offset :=
    match offset with
    | None =>
        let* this := get in
        modify (set_woffset (woffset this + bytes));;
        ret (woffset this)
    | Some o => ret o
    end in
  let offset := JS.ToUint32 offset in
  let result := offset in
  let* this := get in
  when_ (negb (noAssert this))
    (if (offset <? 0) || (offset + 0 >? Buffer.length (buffer this))
     then throw (RangeError "Illegal offset") else ret tt);;
  grow (offset + bytes);;
  ret result.

(** [readInt8(offset)], [readUInt8(offset)] *)
Definition readInt8 (offset : optional) : M SmartBuffer (option Z) :=
  let* offset := _checkRead offset 1 in
  let* this := get in
  let value := Buffer.get (buffer this) offset in
  if JS.and (JS.number value) 0x80 =? 0x80
  then ret (Some (- (0xFF - JS.number value + 1)))
  else ret value.

Definition readUInt8 (offset : optional) : M SmartBuffer (option Z) :=
  let* offset := _checkRead offset 1 in
  let* this := get in
  ret (Buffer.get (buffer this) offset).

(** [writeInt8(value, offset)], [writeUInt8(value, offset)] *)
Definition writeInt8 (value : Z) (offset : optional) : M SmartBuffer unit :=
  let value := JS.ToInt32 value in
  let* offset := _checkWrite value offset 1 in
  let* this := get in
  modify (set_buffer (Buffer.set (buffer this) offset value)).

Definition writeUInt8 (value : Z) (offset : optional) : M SmartBuffer unit :=
  let value := JS.ToUint32 value in
  let* offset := _checkWrite value offset 1 in
  let* this := get in
  modify (set_buffer (Buffer.set (buffer this) offset value)).

(** [static calculateVarint32(value)] *)
Definition calculateVarint32 (value : Z) : Z :=
  let value := JS.ToUint32 value in
  if value <? JS.shl 1 7 then 1
  else if value <? JS.shl 1 14 then 2
  else if value <? JS.shl 1 21 then 3
  else if value <? JS.shl 1 28 then 4
  else 5.

(** [static zigZagEncode32(n)]: [(((n |= 0) << 1) ^ (n >> 31)) >>> 0] *)
Definition zigZagEncode32 (n : Z) : Z :=
  let n := JS.ToInt32 n in
  JS.ToUint32 (JS.xor (JS.shl n 1) (JS.sar n 31)).

(** [static zigZagDecode32(n)]: [((n >>> 1) ^ -(n & 1)) | 0] *)
Definition zigZagDecode32 (n : Z) : Z :=
  JS.ToInt32 (JS.xor (JS.shr n 1) (- JS.and n 1)).

(** The loop of [writeVarint32] and the store after it:
    [while (value >= 0x80) { b = (value & 0x7f) | 0x80; this.buffer[offset++] = b; value >>>= 7; }
     this.buffer[offset++] = value;]
    It returns the store and the final [offset]. *)
Equations? writeVarint32_loop (value offset : Z) (b : Buffer.t) : Buffer.t * Z
  by wf (Z.to_nat (Z.log2 value)) lt :=
writeVarint32_loop value offset b with Z_lt_dec value 0x80 := {
  | left _ => (Buffer.set b offset value, offset + 1)
  | right _ =>
      writeVarint32_loop (JS.shr value 7) (offset + 1)
        (Buffer.set b offset (JS.or (JS.and value 0x7f) 0x80)) }.
Proof.
  unfold JS.shr, JS.ToUint32. change (7 mod 32) with 7.
  assert (0 <= value mod 2 ^ 32 <= value).
  { split; [apply Z.mod_pos_bound; reflexivity|apply Z.mod_le; lia]. }
  assert (Z.log2 (value mod 2 ^ 32) <= Z.log2 value) by (apply Z.log2_le_mono; lia).
  assert (7 <= Z.log2 value) by (apply (Z.log2_le_mono 128); lia).
  destruct (Z.eq_dec (value mod 2 ^ 32) 0) as [->|].
  - rewrite Z.shiftr_0_l. simpl Z.log2. lia.
  - rewrite Z.log2_shiftr by lia. lia.
Qed.

(** [writeVarint32(value, offset)]; the result is [None] for [this] (relative
    call) and [Some size] for an absolute call. *)
Definition writeVarint32 (value : Z) (offset : optional) : M SmartBuffer (option Z) :=
  let relative := bool_decide (offset = None) in
  let* this := get in
  let offset := default (woffset this) offset in
  let* (value, offset) :=
    if negb (noAssert this) then
      let value := JS.ToInt32 value in
      let offset := JS.ToUint32 offset in
      if (offset <? 0) || (offset + 0 >? Buffer.length (buffer this))
      then throw (RangeError "Illegal offset") else ret (value, offset)
    else ret (value, offset) in
  let size := calculateVarint32 value in
  grow (offset + size);;
  let value := JS.ToUint32 value in
  let* this := get in
  let '(buffer', offset) := writeVarint32_loop value offset (buffer this) in
  modify (set_buffer buffer');;
  if relative then modify (set_woffset offset);; ret None
  else ret (Some size).

(** [writeVarint32ZigZag(value, offset)] *)
Definition writeVarint32ZigZag (value : Z) (offset : optional) : M SmartBuffer (option Z) :=
  writeVarint32 (zigZagEncode32 value) offset.

(** The [do ... while] loop of [readVarint32]; it returns [value], [c] and
    the final [offset].  The loop goes on only after a byte with bit 7 set,
    which lies inside the store. *)
Equations? readVarint32_loop (noAssert : bool) (b : Buffer.t) (offset c value : Z)
  : result (Z * Z * Z) by wf (Z.to_nat (Buffer.length b - offset)) lt :=
readVarint32_loop noAssert b offset c value
  with negb noAssert && (offset >? Buffer.length b) := {
  | true => Throw (Error "Truncated" true)
  | false with inspect (Buffer.get b offset) := {
    | exist _ v Hv
        with Z.eq_dec (JS.and (JS.number v) 0x80) 0 := {
        | left _ =>
            Ok (if c <? 5 then JS.or value (JS.shl (JS.and (JS.number v) 0x7f) (7 * c))
                else value, c + 1, offset + 1)
        | right _ =>
            readVarint32_loop noAssert b (offset + 1) (c + 1)
              (if c <? 5 then JS.or value (JS.shl (JS.and (JS.number v) 0x7f) (7 * c))
               else value) } } }.
Proof.
  match goal with H : JS.and _ _ <> 0 |- _ => unfold Buffer.get in H; revert H end.
  destruct ((0 <=? offset) && (offset <? Buffer.length b)) eqn:E; intros H.
  - apply andb_true_iff in E as [? ?]. lia.
  - exfalso. apply H. reflexivity.
Qed.

(** [readVarint32(offset)] *)
Definition readVarint32 (offset : optional) : M SmartBuffer NumberValue :=
  let relative := bool_decide (offset = None) in
  let* this := get in
  let offset := default (roffset this) offset in
  let* offset :=
    if negb (noAssert this) then
      let offset := JS.ToUint32 offset in
      if (offset <? 0) || (offset + 1 >? Buffer.length (buffer this))
      then throw (RangeError "Illegal offset") else ret offset
    else ret offset in
  let* (value, c, offset) :=
    lift (readVarint32_loop (noAssert this) (buffer this) offset 0 (JS.ToUint32 0)) in
  let value := JS.ToInt32 value in
  if relative then modify (set_roffset offset);; ret (Number value)
  else ret (SNumber value c).

(** [readVarint32ZigZag(offset)] *)
Definition readVarint32ZigZag (offset : optional) : M SmartBuffer NumberValue :=
  let* val := readVarint32 offset in
  match val with
  | SNumber value length => ret (SNumber (zigZagDecode32 value) length)
  | Number value => ret (Number (zigZagDecode32 value))
  end.

(** The value returned by a string read: the bare string of a relative call
    or the pair [{ string, length }] of an absolute call. *)
Inductive StringValue : Type :=
| Str (string : JS.jsstring)
| SString (string : JS.jsstring) (length : Z).

(** [this.buffer.toString("utf8", start, end)] *)
Definition toStringUtf8 (b : Buffer.t) (start end_ : Z) : JS.jsstring :=
  utf8_decode (Buffer.slice b (Z.max 0 start) end_).

(** [writeCString(str, offset)]; the loop over [str.charCodeAt(i)] is the
    [existsb].  The result is [None] for [this] and [Some k] for an absolute
    call. *)
Definition writeCString (str : JS.jsstring) (offset : optional) : M SmartBuffer (option Z) :=
  let relative := bool_decide (offset = None) in
  let* this := get in
  let offset := default (woffset this) offset in
  let* offset :=
    if negb (noAssert this) then
      if existsb (fun ch => ch =? 0) str
      then throw (TypeError "Illegal str: Contains NULL-characters")
      else
        let offset := JS.ToUint32 offset in
        if (offset <? 0) || (offset + 0 >? Buffer.length (buffer this))
        then throw (RangeError "Illegal offset") else ret offset
    else ret offset in
  let k := Buffer.length (utf8 str) in
  grow (offset + (k + 1));;
  let* this := get in
  let* (buffer', written) := lift (Buffer.write (buffer this) (utf8 str) offset k) in
  let offset := offset + written in
  modify (set_buffer (Buffer.set buffer' offset 0));;
  let offset := offset + 1 in
  if relative then modify (set_woffset offset);; ret None
  else ret (Some k).

(** The [do ... while] loop of [readCString]; it returns the final [offset]. *)
Equations? readCString_loop (b : Buffer.t) (offset : Z) : result Z
  by wf (Z.to_nat (Buffer.length b - offset)) lt :=
readCString_loop b offset with Z_ge_dec offset (Buffer.length b) := {
  | left _ => Throw (RangeError "Index out of range")
  | right _ with option_eq_dec (Buffer.get b offset) (Some 0) := {
    | left _ => Ok (offset + 1)
    | right _ => readCString_loop b (offset + 1) } }.
Proof. lia. Qed.

(** [readCString(offset)] *)
Definition readCString (offset : optional) : M SmartBuffer StringValue :=
  let relative := bool_decide (offset = None) in
  let* this := get in
  let offset := default (roffset this) offset in
  let* offset :=
    if negb (noAssert this) then
      let offset := JS.ToUint32 offset in
      if (offset <? 0) || (offset + 1 >? Buffer.length (buffer this))
      then throw (RangeError "Illegal offset") else ret offset
    else ret offset in
  let start := offset in
  let* offset := lift (readCString_loop (buffer this) offset) in
  let str := toStringUtf8 (buffer this) start (offset - 1) in
  if relative then modify (set_roffset offset);; ret (Str str)
  else ret (SString str (offset - start)).

(** [writeBuffer(buf, offset)] *)
Definition writeBuffer (buf : Buffer.t) (offset : optional) : M SmartBuffer unit :=
  if Buffer.length buf =? 0 then ret tt
  else
    let relative := bool_decide (offset = None) in
    let* this := get in
    let offset := default (woffset this) offset in
    let targetEnd := offset + Buffer.length buf in
    grow targetEnd;;
    let* this := get in
    let* buffer' := lift (Buffer.copy buf (buffer this) offset 0 (Buffer.length buf)) in
    modify (set_buffer buffer');;
    if relative then modify (set_woffset targetEnd) else ret tt.

(** [value[i]] as the bit operators see it: an element outside the array is
    [undefined]. *)
Definition element (value : list Z) (i : Z) : Z := JS.number (value !! Z.to_nat i).

(** The byte packed from eight elements in the first loop of [writeBitSet]
    (the second element is masked with [1 << 1], as the source has it). *)
Definition packByte (value : list Z) (bit : Z) : Z :=
  JS.or (JS.or (JS.or (JS.or (JS.or (JS.or (JS.or
    (JS.and (element value bit) 1)
    (JS.and (element value (bit + 1)) (JS.shl 1 1)))
    (JS.shl (JS.and (element value (bit + 2)) 1) 2))
    (JS.shl (JS.and (element value (bit + 3)) 1) 3))
    (JS.shl (JS.and (element value (bit + 4)) 1) 4))
    (JS.shl (JS.and (element value (bit + 5)) 1) 5))
    (JS.shl (JS.and (element value (bit + 6)) 1) 6))
    (JS.shl (JS.and (element value (bit + 7)) 1) 7).

(** [while (bytes--) { k = ...; this.writeInt8(k, offset++); }]; it returns
    the final [bit] and [offset]. *)
Fixpoint writeBitSet_bytes (bytes : nat) (value : list Z) (bit offset : Z)
  : M SmartBuffer (Z * Z) :=
  match bytes with
  | O => ret (bit, offset)
  | S bytes' =>
      writeInt8 (packByte value bit) (Some offset);;
      writeBitSet_bytes bytes' value (bit + 8) (offset + 1)
  end.

(** [while (bit < bits) { k = k | ((value[bit++] & 1) << (m++)); }], with
    [rest] the number of elements left. *)
Fixpoint writeBitSet_tail (rest : nat) (value : list Z) (bit m k : Z) : Z :=
  match rest with
  | O => k
  | S rest' =>
      writeBitSet_tail rest' value (bit + 1) (m + 1)
        (JS.or k (JS.shl (JS.and (element value bit) 1) m))
  end.

(** [writeBitSet(value, offset)]; the result is [None] for [this] and
    [Some (offset - start)] for an absolute call. *)
Definition writeBitSet (value : list Z) (offset : optional) : M SmartBuffer (option Z) :=
  let relative := bool_decide (offset = None) in
  let* this := get in
  let offset := default (woffset this) offset in
  let* offset :=
    if negb (noAssert this) then
      let offset := JS.ToUint32 offset in
      if (offset <? 0) || (offset + 0 >? Buffer.length (buffer this))
      then throw (RangeError "Illegal offset") else ret offset
    else ret offset in
  let start := offset in
  let bits := Z.of_nat (List.length value) in
  let bytes := JS.sar bits 3 in
  let* size := writeVarint32 bits (Some offset) in
  let offset := offset + default 0 size in
  let* (bit, offset) := writeBitSet_bytes (Z.to_nat bytes) value 0 offset in
  let* offset :=
    if bit <? bits then
      writeInt8 (writeBitSet_tail (Z.to_nat (bits - bit)) value bit 0 0) (Some offset);;
      ret (offset + 1)
    else ret offset in
  if relative then modify (set_woffset offset);; ret None
  else ret (Some (offset - start)).

(** [compact(begin, end)] *)
Definition compact (begin end_ : optional) : M SmartBuffer unit :=
  let* this := get in
  let begin := default (roffset this) begin in
  let end_ := default (Buffer.length (buffer this)) end_ in
  let* (begin, end_) :=
    if negb (noAssert this) then
      let begin := JS.ToUint32 begin in
      let end_ := JS.ToUint32 end_ in
      if (begin <? 0) || (begin >? end_) || (end_ >? Buffer.length (buffer this))
      then throw (RangeError "Illegal range") else ret (begin, end_)
    else ret (begin, end_) in
  if (begin =? 0) && (end_ =? Buffer.length (buffer this)) then ret tt
  else
    let len := end_ - begin in
    if len =? 0 then
      modify (set_buffer Buffer.EMPTY_BUFFER);;
      modify (set_roffset 0);;
      modify (set_woffset 0)
    else
      let* buffer' := lift (Buffer.allocUnsafe junk len) in
      let* buffer' := lift (Buffer.copy (buffer this) buffer' 0 begin end_) in
      modify (set_buffer buffer');;
      modify (fun this => set_woffset (woffset this - roffset this) this);;
      modify (set_roffset 0).

End Methods.


(** ** Methods that take another [SmartBuffer]

    Objects live in a heap and are named by references; a method receives
    the reference of [this] and of [source], which may be the same. *)

Abbreviation ref := nat (only parsing).
Abbreviation Heap := (gmap nat SmartBuffer) (only parsing).

(** Run a computation of one object on the object named [r]. *)
Definition on {A} (r : ref) (m : M SmartBuffer A) : M Heap A :=
  fun h =>
    match h !! r with
    | Some o => let '(o', res) := m o in (<[r := o']> h, res)
    | None => (h, Throw (TypeError "Cannot read properties of undefined"))
    end.

Section HeapMethods.

Variable junk : nat -> Z.

(** [write(source, offset)] for a [source] that is a [SmartBuffer]; its
    arguments [length] and [encoding] are not used for such a source. *)
Definition write (this source : ref) (offset : optional) : M Heap unit :=
  let relative := bool_decide (offset = None) in
  let* t := on this get in
  let offset := default (woffset t) offset in
  let offset := JS.ToUint32 offset in
  let result := offset in
  when_ (negb (noAssert t))
    (if (offset <? 0) || (offset + 0 >? Buffer.length (buffer t))
     then throw (RangeError "Illegal offset") else ret tt);;
  let* s := on source get in
  let length := woffset s - roffset s in
  if length <=? 0 then ret tt
  else
    on this (grow junk (offset + length));;
    let* s := on source get in
    let* t := on this get in
    let* buffer' :=
      lift (Buffer.copy (buffer s) (buffer t) result (roffset s) (woffset s)) in
    on this (modify (set_buffer buffer'));;
    on source (modify (fun s => set_roffset (roffset s + length) s));;
    if relative then on this (modify (fun t => set_woffset (woffset t + length) t))
    else ret tt.


(** [prepend(source, offset)] for a [source] that is a [SmartBuffer]. *)
Definition prepend (this source : ref) (offset : optional) : M Heap unit :=
  let relative := bool_decide (offset = None) in
  let* t := on this get in
  let offset := default (roffset t) offset in
  let* offset :=
    if negb (noAssert t) then
      let offset := JS.ToUint32 offset in
      if (offset <? 0) || (offset + 0 >? Buffer.length (buffer t))
      then throw (RangeError "Illegal offset") else ret offset
    else ret offset in
  let* s := on source get in
  let len := Buffer.length (buffer s) - roffset s in
  if len <=? 0 then ret tt
  else
    let diff := len - offset in
    let* offset :=
      if diff >? 0 then
        let* buffer' := lift (Buffer.allocUnsafe junk (Buffer.length (buffer t) + diff)) in
        let* buffer' :=
          lift (Buffer.copy (buffer t) buffer' len offset (Buffer.length (buffer t))) in
        on this (modify (set_buffer buffer'));;
        on this (modify (fun t => set_roffset (roffset t + diff) t));;
        on this (modify (fun t => set_woffset (woffset t + diff) t));;
        ret (offset + diff)
      else ret offset in
    let* s := on source get in
    let* t := on this get in
    let* buffer' :=
      lift (Buffer.copy (buffer s) (buffer t) (offset - len) (roffset s)
              (Buffer.length (buffer s))) in
    on this (modify (set_buffer buffer'));;
    let* s := on source get in
    on source (modify (set_roffset (Buffer.length (buffer s))));;
    if relative then on this (modify (fun t => set_roffset (roffset t - len) t))
    else ret tt.


End HeapMethods.


(** ** The debug text codec *)

Module Debug.

Definition ch (a : ascii) : Z := JS.code a.

(** One hexadecimal digit of [Number.prototype.toString(16)], in upper case. *)
Definition hexDigit (d : Z) : Z :=
  if d <? 10 then ch "0" + d else ch "A" + (d - 10).

(** [b.toString(16).toUpperCase()] for a byte [b]. *)
Definition toString16 (b : Z) : JS.jsstring :=
  if b <? 16 then [hexDigit b] else [hexDigit (b / 16); hexDigit (b mod 16)].

(** [while (hex.length < 3 * 16 + 3) hex += " "] *)
Definition pad (hex : JS.jsstring) : JS.jsstring :=
  hex ++ repeat (ch " ") (Z.to_nat (3 * 16 + 3 - Z.of_nat (List.length hex))).

(** The marker appended after [++i]. *)
Definition marker (this : SmartBuffer) (columns : bool) (i k : Z) : JS.jsstring :=
  let len := Buffer.length (buffer this) in
  if (i =? roffset this) && (roffset this =? woffset this) && (woffset this =? len)
  then [ch "|"]
  else if (i =? roffset this) && (roffset this =? woffset this) then [ch "^"]
  else if (i =? roffset this) && (roffset this =? len) then [ch "["]
  else if (i =? woffset this) && (woffset this =? len) then [ch "]"]
  else if i =? roffset this then [ch "<"]
  else if i =? woffset this then [ch ">"]
  else if i =? len then [ch "*"]
  else if columns || (negb (i =? 0) && negb (i =? k)) then [ch " "] else [].

(** The [while (i < k)] loop of [toDebug], with [n] the number of rounds
    left ([k - i]); it returns [hex], [asc] and [out]. *)
Fixpoint toDebug_loop (this : SmartBuffer) (columns : bool) (n : nat)
    (i : Z) (hex asc out : JS.jsstring) : JS.jsstring * JS.jsstring * JS.jsstring :=
  match n with
  | O => (hex, asc, out)
  | S n' =>
      let k := Buffer.length (buffer this) in
      let hex1 :=
        if negb (i =? -1) then
          let b := JS.number (Buffer.get (buffer this) i) in
          if b <? 0x10 then hex ++ ch "0" :: toString16 b else hex ++ toString16 b
        else hex in
      let asc1 :=
        if negb (i =? -1) && columns then
          let b := JS.number (Buffer.get (buffer this) i) in
          asc ++ (if (b >? 32) && (b <? 127) then [b] else [ch "."])
        else asc in
      let i := i + 1 in
      let flush := columns && ((i >? 0) && (i mod 16 =? 0) && negb (i =? k)) in
      let out1 := if flush then out ++ pad hex1 ++ asc1 ++ [10] else out in
      let hex2 := if flush then [] else hex1 in
      let asc2 := if flush then [] else asc1 in
      toDebug_loop this columns n' i (hex2 ++ marker this columns i k) asc2 out1
  end.

(** [toDebug(columns)] *)
Definition toDebug (this : SmartBuffer) (columns : bool) : JS.jsstring :=
  let k := Buffer.length (buffer this) in
  match toDebug_loop this columns (Z.to_nat (k - -1)) (-1) [] [] [] with
  | (hex, asc, out) =>
      if columns then
        if negb (bool_decide (hex = [ch " "])) then out ++ pad hex ++ asc ++ [10] else out
      else hex
  end.

(** The host's [parseInt(s, 16)]: white space is skipped, a sign and a
    prefix [0x] are accepted, then the longest run of hexadecimal digits is
    read; [None] is [NaN]. *)
Definition isWhiteSpace (c : Z) : bool :=
  bool_decide (c ∈ [9; 10; 11; 12; 13; 32; 160; 0x1680; 0x2028; 0x2029; 0x202F;
                    0x205F; 0x3000; 0xFEFF])
  || ((0x2000 <=? c) && (c <=? 0x200A)).

Definition hexValue (c : Z) : option Z :=
  if (ch "0" <=? c) && (c <=? ch "9") then Some (c - ch "0")
  else if (ch "a" <=? c) && (c <=? ch "f") then Some (c - ch "a" + 10)
  else if (ch "A" <=? c) && (c <=? ch "F") then Some (c - ch "A" + 10)
  else None.

Fixpoint skipWhiteSpace (s : JS.jsstring) : JS.jsstring :=
  match s with
  | c :: s' => if isWhiteSpace c then skipWhiteSpace s' else s
  | [] => []
  end.

Fixpoint digits (s : JS.jsstring) (acc : Z) : Z :=
  match s with
  | c :: s' => match hexValue c with
               | Some d => digits s' (acc * 16 + d)
               | None => acc
               end
  | [] => acc
  end.

Definition parseInt16 (s : JS.jsstring) : option Z :=
  let s := skipWhiteSpace s in
  let sign := match s with c :: _ => if c =? ch "-" then -1 else 1 | [] => 1 end in
  let s :=
    match s with
    | c :: s' => if (c =? ch "-") || (c =? ch "+") then s' else s
    | [] => s
    end in
  let s :=
    match s with
    | c0 :: c1 :: s' =>
        if (c0 =? ch "0") && ((c1 =? ch "x") || (c1 =? ch "X")) then s' else s
    | _ => s
    end in
  match s with
  | c :: _ => match hexValue c with
              | Some _ => Some (sign * digits s 0)
              | None => None
              end
  | [] => None
  end.

(** The local variables of [fromDebug]. *)
Record locals : Type := mkLocals {
  bb : SmartBuffer;
  j : Z;
  rs : bool;
  hw : bool;
  hr : bool;
  hl : bool
}.

Definition set_bb (f : SmartBuffer -> SmartBuffer) (st : locals) : locals :=
  mkLocals (f (bb st)) (j st) (rs st) (hw st) (hr st) (hl st).
Definition set_flags (w r l : bool) (st : locals) : locals :=
  mkLocals (bb st) (j st) (rs st) (hw st || w) (hr st || r) (hl st || l).
Definition set_rs (b : bool) (st : locals) : locals :=
  mkLocals (bb st) (j st) b (hw st) (hr st) (hl st).

(** A marker case of the [switch]: [taken] tells that one of the flags the
    marker sets is set already ([fail = true], then the [throw] after the
    [switch]); otherwise the flags are set, the cursors are assigned and
    [rs = false]. *)
Definition symbol (noAssert taken : bool) (flags assign : locals -> locals)
    (st : locals) : result locals :=
  if negb noAssert && taken then Throw (RangeError "Invalid symbol")
  else Ok (set_rs false (assign (if negb noAssert then flags st else st))).

(** One round of the [while (i < k)] loop of [fromDebug] for a character
    [c] that is a marker or a space; [None] for any other character. *)
Definition fromDebug_symbol (noAssert : bool) (c : Z) (st : locals)
  : option (result locals) :=
  if c =? ch "|" then
    Some (symbol noAssert (hr st || hw st || hl st) (set_flags true true true)
            (fun st => set_bb (fun b => set_roffset (j st) (set_woffset (j st) b)) st) st)
  else if c =? ch "]" then
    Some (symbol noAssert (hw st || hl st) (set_flags true false true)
            (fun st => set_bb (set_woffset (j st)) st) st)
  else if c =? ch "^" then
    Some (symbol noAssert (hr st || hw st) (set_flags true true false)
            (fun st => set_bb (fun b => set_roffset (j st) (set_woffset (j st) b)) st) st)
  else if c =? ch "<" then
    Some (symbol noAssert (hr st) (set_flags false true false)
            (fun st => set_bb (set_roffset (j st)) st) st)
  else if c =? ch "*" then
    Some (symbol noAssert (hl st) (set_flags false false true) (fun st => st) st)
  else if c =? ch ">" then
    Some (symbol noAssert (hw st) (set_flags true false false)
            (fun st => set_bb (set_woffset (j st)) st) st)
  else if c =? ch " " then Some (Ok (set_rs false st))
  else None.

(** The [default] case: the byte parsed from [pair], stored at [j]. *)
Definition fromDebug_byte (noAssert : bool) (pair : JS.jsstring) (st : locals)
  : result locals :=
  if negb noAssert && rs st then Throw (RangeError "Invalid symbol")
  else
    let b := parseInt16 pair in
    if negb noAssert
       && match b with Some b => (b <? 0) || (b >? 255) | None => true end
    then Throw (RangeError "Not a debug encoded string")
    else
      Ok (mkLocals (set_buffer (Buffer.set (buffer (bb st)) (j st) (JS.number b)) (bb st))
            (j st + 1) true (hw st) (hr st) (hl st)).

(** The [while (i < k)] loop of [fromDebug] over the characters not yet
    read; the [default] case reads a second character. *)
Fixpoint fromDebug_loop (noAssert : bool) (str : JS.jsstring) (st : locals)
  : result locals :=
  match str with
  | [] => Ok st
  | c :: str' =>
      match fromDebug_symbol noAssert c st with
      | Some (Ok st) => fromDebug_loop noAssert str' st
      | Some (Throw e) => Throw e
      | None =>
          match str' with
          | c' :: str'' =>
              match fromDebug_byte noAssert [c; c'] st with
              | Ok st => fromDebug_loop noAssert str'' st
              | Throw e => Throw e
              end
          | [] =>
              match fromDebug_byte noAssert [c] st with
              | Ok st => Ok st
              | Throw e => Throw e
              end
          end
      end
  end.

(** [static fromDebug(str, noAssert)] *)
Definition fromDebug (junk : nat -> Z) (str : JS.jsstring) (noAssert : bool)
  : result SmartBuffer :=
  let k := Z.of_nat (List.length str) in
  match new junk (JS.ToInt32 ((k + 1) / 3)) noAssert with
  | Throw e => Throw e
  | Ok fresh =>
      match fromDebug_loop noAssert str (mkLocals fresh 0 false false false false) with
      | Throw e => Throw e
      | Ok st =>
          if negb noAssert && (negb (hr st) || negb (hw st) || negb (hl st))
          then Throw (RangeError "Missing roffset or woffset or limit")
          else if negb noAssert && (j st <? Buffer.length (buffer (bb st)))
          then Throw (RangeError "Not a debug encoded string (is it hex?)")
          else Ok (bb st)
      end
  end.

End Debug.

(** The state of [fromDebug]'s loop while it reads the text of [this]:
    [parsed_upto this i st] holds before the marker at index [i] is read,
    [parsed_marker this i st] after it. *)
Definition parsed_upto (this : SmartBuffer) (i : Z) (st : Debug.locals) : Prop :=
  Debug.j st = i /\ Debug.rs st = (0 <? i) /\ Debug.hl st = false /\
  Debug.hr st = (roffset this <? i) /\ Debug.hw st = (woffset this <? i) /\
  (roffset this < i -> roffset (Debug.bb st) = roffset this) /\
  (woffset this < i -> woffset (Debug.bb st) = woffset this) /\
  Buffer.length (buffer (Debug.bb st)) = capacity this /\
  forall m, 0 <= m < i -> Buffer.get (buffer (Debug.bb st)) m = Buffer.get (buffer this) m.

Definition parsed_marker (this : SmartBuffer) (i : Z) (st : Debug.locals) : Prop :=
  Debug.j st = i /\ Debug.rs st = false /\ Debug.hl st = (capacity this <=? i) /\
  Debug.hr st = (roffset this <=? i) /\ Debug.hw st = (woffset this <=? i) /\
  (roffset this <= i -> roffset (Debug.bb st) = roffset this) /\
  (woffset this <= i -> woffset (Debug.bb st) = woffset this) /\
  Buffer.length (buffer (Debug.bb st)) = capacity this /\
  forall m, 0 <= m < i -> Buffer.get (buffer (Debug.bb st)) m = Buffer.get (buffer this) m.

(** The two characters that [toDebug] emits for the byte [b]. *)
Definition hexByte (b : Z) : JS.jsstring :=
  if b <? 0x10 then Debug.ch "0" :: Debug.toString16 b else Debug.toString16 b.

(** The text that [toDebug] without columns emits after the marker at index
    [i], for the [n] bytes from [i] on. *)
Fixpoint bytesText (this : SmartBuffer) (n : nat) (i : Z) : JS.jsstring :=
  match n with
  | O => []
  | S n' =>
      hexByte (JS.number (Buffer.get (buffer this) i))
        ++ Debug.marker this false (i + 1) (capacity this)
        ++ bytesText this n' (i + 1)
  end.


(** ** Fixed-width integers of 16, 24 and 32 bits *)

(** [this.buffer[i]] under a bit operator: [undefined] counts as 0. *)
Definition byteAt (this : SmartBuffer) (i : Z) : Z :=
  JS.number (Buffer.get (buffer this) i).

(** [readInt16LE(offset)], [readInt16BE(offset)] *)
Definition readInt16LE (offset : optional) : M SmartBuffer Z :=
  let* offset := _checkRead offset 2 in
  let* this := get in
  let value := JS.or (byteAt this offset) (JS.shl (byteAt this (offset + 1)) 8) in
  if JS.and value 0x8000 =? 0x8000 then ret (- (0xFFFF - value + 1)) else ret value.

Definition readInt16BE (offset : optional) : M SmartBuffer Z :=
  let* offset := _checkRead offset 2 in
  let* this := get in
  let value := JS.shl (byteAt this offset) 8 in
  let value := JS.or value (byteAt this (offset + 1)) in
  if JS.and value 0x8000 =? 0x8000 then ret (- (0xFFFF - value + 1)) else ret value.

(** [readUInt16LE(offset)], [readUInt16BE(offset)] *)
Definition readUInt16LE (offset : optional) : M SmartBuffer Z :=
  let* offset := _checkRead offset 2 in
  let* this := get in
  ret (JS.or (byteAt this offset) (JS.shl (byteAt this (offset + 1)) 8)).

Definition readUInt16BE (offset : optional) : M SmartBuffer Z :=
  let* offset := _checkRead offset 2 in
  let* this := get in
  let value := JS.shl (byteAt this offset) 8 in
  ret (JS.or value (byteAt this (offset + 1))).

(** [readUInt24BE(offset)] *)
Definition readUInt24BE (offset : optional) : M SmartBuffer Z :=
  let* offset := _checkRead offset 3 in
  let* this := get in
  let value := JS.shl (byteAt this offset) 16 in
  let value := JS.or value (JS.shl (byteAt this (offset + 1)) 8) in
  let value := JS.or value (byteAt this (offset + 2)) in
  ret (JS.ToInt32 value).

(** The value that the 32-bit reads build before their final coercion:
    [value = b2 << 16; value |= b1 << 8; value |= b0; value += b3 << 24 >>> 0]. *)
Definition word32 (b0 b1 b2 b3 : Z) : Z :=
  let value := JS.shl b2 16 in
  let value := JS.or value (JS.shl b1 8) in
  let value := JS.or value b0 in
  value + JS.shr (JS.shl b3 24) 0.

(** [readInt32LE(offset)], [readInt32BE(offset)] *)
Definition readInt32LE (offset : optional) : M SmartBuffer Z :=
  let* offset := _checkRead offset 4 in
  let* this := get in
  ret (JS.ToInt32 (word32 (byteAt this offset) (byteAt this (offset + 1))
                          (byteAt this (offset + 2)) (byteAt this (offset + 3)))).

Definition readInt32BE (offset : optional) : M SmartBuffer Z :=
  let* offset := _checkRead offset 4 in
  let* this := get in
  ret (JS.ToInt32 (word32 (byteAt this (offset + 3)) (byteAt this (offset + 2))
                          (byteAt this (offset + 1)) (byteAt this offset))).

(** [readUInt32LE(offset)], [readUInt32BE(offset)] *)
Definition readUInt32LE (offset : optional) : M SmartBuffer Z :=
  let* offset := _checkRead offset 4 in
  let* this := get in
  ret (word32 (byteAt this offset) (byteAt this (offset + 1))
              (byteAt this (offset + 2)) (byteAt this (offset + 3))).

Definition readUInt32BE (offset : optional) : M SmartBuffer Z :=
  let* offset := _checkRead offset 4 in
  let* this := get in
  ret (word32 (byteAt this (offset + 3)) (byteAt this (offset + 2))
              (byteAt this (offset + 1)) (byteAt this offset)).

Section FixedWidthWrites.

Variable junk : nat -> Z.

(** The two stores of the 16-bit writes, in the order of the source. *)
Definition store16LE (value offset : Z) (b : Buffer.t) : Buffer.t :=
  Buffer.set (Buffer.set b (offset + 1) (JS.shr value 8)) offset value.

Definition store16BE (value offset : Z) (b : Buffer.t) : Buffer.t :=
  Buffer.set (Buffer.set b offset (JS.shr value 8)) (offset + 1) value.

(** [writeInt16LE(value, offset)], [writeInt16BE(value, offset)] *)
Definition writeInt16LE (value : Z) (offset : optional) : M SmartBuffer unit :=
  let value := JS.ToInt32 value in
  let* offset := _checkWrite junk value offset 2 in
  modify (fun this => set_buffer (store16LE value offset (buffer this)) this).

Definition writeInt16BE (value : Z) (offset : optional) : M SmartBuffer unit :=
  let value := JS.ToInt32 value in
  let* offset := _checkWrite junk value offset 2 in
  modify (fun this => set_buffer (store16BE value offset (buffer this)) this).

(** [writeUInt16LE(value, offset)], [writeUInt16BE(value, offset)] *)
Definition writeUInt16LE (value : Z) (offset : optional) : M SmartBuffer unit :=
  let value := JS.ToUint32 value in
  let* offset := _checkWrite junk value offset 2 in
  modify (fun this => set_buffer (store16LE value offset (buffer this)) this).

Definition writeUInt16BE (value : Z) (offset : optional) : M SmartBuffer unit :=
  let value := JS.ToUint32 value in
  let* offset := _checkWrite junk value offset 2 in
  modify (fun this => set_buffer (store16BE value offset (buffer this)) this).

(** [writeUInt24BE(value, offset)] *)
Definition writeUInt24BE (value : Z) (offset : optional) : M SmartBuffer unit :=
  let value := JS.ToUint32 value in
  let* offset := _checkWrite junk value offset 3 in
  modify (fun this =>
            set_buffer
              (Buffer.set
                 (Buffer.set (Buffer.set (buffer this) offset (JS.shr value 16))
                    (offset + 1) (JS.shr value 8))
                 (offset + 2) value) this).

(** The four stores of the 32-bit writes, in the order of the source. *)
Definition store32LE (value offset : Z) (b : Buffer.t) : Buffer.t :=
  Buffer.set
    (Buffer.set
       (Buffer.set (Buffer.set b (offset + 3) (JS.shr value 24))
          (offset + 2) (JS.shr value 16))
       (offset + 1) (JS.shr value 8))
    offset value.

Definition store32BE (value offset : Z) (b : Buffer.t) : Buffer.t :=
  Buffer.set
    (Buffer.set
       (Buffer.set (Buffer.set b offset (JS.shr value 24))
          (offset + 1) (JS.shr value 16))
       (offset + 2) (JS.shr value 8))
    (offset + 3) value.

(** [writeInt32LE(value, offset)], [writeInt32BE(value, offset)] *)
Definition writeInt32LE (value : Z) (offset : optional) : M SmartBuffer unit :=
  let value := JS.ToInt32 value in
  let* offset := _checkWrite junk value offset 4 in
  modify (fun this => set_buffer (store32LE value offset (buffer this)) this).

Definition writeInt32BE (value : Z) (offset : optional) : M SmartBuffer unit :=
  let value := JS.ToInt32 value in
  let* offset := _checkWrite junk value offset 4 in
  modify (fun this => set_buffer (store32BE value offset (buffer this)) this).

(** [writeUInt32LE(value, offset)], [writeUInt32BE(value, offset)] *)
Definition writeUInt32LE (value : Z) (offset : optional) : M SmartBuffer unit :=
  let value := JS.ToUint32 value in
  let* offset := _checkWrite junk value offset 4 in
  modify (fun this => set_buffer (store32LE value offset (buffer this)) this).

Definition writeUInt32BE (value : Z) (offset : optional) : M SmartBuffer unit :=
  let value := JS.ToUint32 value in
  let* offset := _checkWrite junk value offset 4 in
  modify (fun this => set_buffer (store32BE value offset (buffer this)) this).

End FixedWidthWrites.

(** ** More of the host's byte container *)

Module Host.

(** [buffer.fill(value, offset, end)] for a number [value] and
    [offset < end]: the host refuses a range outside the store. *)
Definition fill (b : Buffer.t) (value offset end_ : Z) : result Buffer.t :=
  if (offset <? 0) || (end_ >? Buffer.length b)
  then Throw (RangeError "The value is out of range")
  else Ok (take (Z.to_nat offset) b
             ++ replicate (Z.to_nat (end_ - offset)) (value mod 256)
             ++ drop (Z.to_nat end_) b).

(** How [buffer.slice(start, end)] reads a position: a negative one counts
    from the end, and the result is kept inside the store. *)
Definition adjustOffset (offset length : Z) : Z :=
  if offset <? 0 then Z.max (offset + length) 0 else Z.min offset length.

(** The bytes of the view [buffer.slice(start, end)]. *)
Definition subarray (b : Buffer.t) (start end_ : Z) : Buffer.t :=
  let start := adjustOffset start (Buffer.length b) in
  let end_ := adjustOffset end_ (Buffer.length b) in
  Buffer.slice b start end_.

(** The store after [Array.prototype.reverse.call(buffer.slice(start, end))]:
    the view shares the store's memory, so the bytes are reversed in place. *)
Definition reverse (b : Buffer.t) (start end_ : Z) : Buffer.t :=
  let start := adjustOffset start (Buffer.length b) in
  let end_ := adjustOffset end_ (Buffer.length b) in
  take (Z.to_nat start) b ++ rev (Buffer.slice b start end_)
    ++ drop (Z.to_nat (Z.max start end_)) b.

(** [new Uint8Array(new ArrayBuffer(n))]: [n] zero bytes; the host refuses a
    negative length. *)
Definition newArrayBuffer (n : Z) : result Buffer.t :=
  if n <? 0 then Throw (RangeError "Invalid array buffer length")
  else Ok (replicate (Z.to_nat n) 0).

(** One hexadecimal digit in lower case. *)
Definition hexDigit (d : Z) : Z :=
  if d <? 10 then Debug.ch "0" + d else Debug.ch "a" + (d - 10).

(** [buffer.toString("hex", start, end)] *)
Definition hexEncode (bytes : list Z) : JS.jsstring :=
  flat_map (fun b => [hexDigit (b / 16); hexDigit (b mod 16)]) bytes.

Definition toStringHex (b : Buffer.t) (start end_ : Z) : JS.jsstring :=
  hexEncode (Buffer.slice b (Z.max 0 start) end_).

(** [Buffer.from(str, "hex")]: pairs of hexadecimal digits are decoded up to
    the first pair that is not one. *)
Fixpoint hexDecode (str : JS.jsstring) : Buffer.t :=
  match str with
  | c1 :: c2 :: str' =>
      match Debug.hexValue c1, Debug.hexValue c2 with
      | Some h, Some l => (h * 16 + l) :: hexDecode str'
      | _, _ => []
      end
  | _ => []
  end.

End Host.

(** ** Cursors, ranges and conversions *)

(** [assert(assert)] *)
Definition assert_ (assert : bool) : M SmartBuffer unit :=
  modify (fun this =>
            mkSmartBuffer (buffer this) (woffset this) (roffset this) (negb assert)).

(** [reset(resetWOffset)] *)
Definition reset (resetWOffset : bool) : M SmartBuffer unit :=
  modify (set_roffset 0);;
  when_ resetWOffset (modify (set_woffset 0)).

(** [skipRead(length)] *)
Definition skipRead (length : Z) : M SmartBuffer unit :=
  let* this := get in
  let length := if negb (noAssert this) then JS.ToInt32 length else length in
  let offset := roffset this + length in
  when_ (negb (noAssert this))
    (if (offset <? 0) || (offset >? Buffer.length (buffer this))
     then throw (RangeError "Illegal length") else ret tt);;
  modify (set_roffset offset).

(** [skipWrite(length)] *)
Definition skipWrite (length : Z) : M SmartBuffer unit :=
  let* this := get in
  let length := if negb (noAssert this) then JS.ToInt32 length else length in
  let offset := woffset this + length in
  when_ (negb (noAssert this))
    (if (offset <? 0) || (offset >? Buffer.length (buffer this))
     then throw (RangeError "Illegal length") else ret tt);;
  modify (set_woffset offset).

(** The range check that [fill], [reverse], [copy], [slice], [toHex] and
    [toUTF8] repeat: with assertions both ends are reduced with [>>> 0] and
    must satisfy [0 <= begin <= end <= capacity]. *)
Definition checkRange (begin end_ : Z) : M SmartBuffer (Z * Z) :=
  let* this := get in
  if negb (noAssert this) then
    let begin := JS.ToUint32 begin in
    let end_ := JS.ToUint32 end_ in
    if (begin <? 0) || (begin >? end_) || (end_ >? Buffer.length (buffer this))
    then throw (RangeError "Illegal range") else ret (begin, end_)
  else ret (begin, end_).

(** [fill(value, begin, end)] for a number [value] *)
Definition fill (value : Z) (begin end_ : optional) : M SmartBuffer unit :=
  let relative := bool_decide (begin = None) in
  let* this := get in
  let begin := default (woffset this) begin in
  let end_ := default (Buffer.length (buffer this)) end_ in
  let value := if negb (noAssert this) then JS.ToInt32 value else value in
  let* (begin, end_) := checkRange begin end_ in
  if begin >=? end_ then ret tt
  else
    let* buffer' := lift (Host.fill (buffer this) value begin end_) in
    modify (set_buffer buffer');;
    if relative then modify (set_woffset end_) else ret tt.

(** [reverse(begin, end)] *)
Definition reverse (begin end_ : optional) : M SmartBuffer unit :=
  let* this := get in
  let begin := default (roffset this) begin in
  let end_ := default (woffset this) end_ in
  let* (begin, end_) := checkRange begin end_ in
  if begin =? end_ then ret tt
  else modify (set_buffer (Host.reverse (buffer this) begin end_)).

(** [toArrayBuffer()]: the bytes of the [ArrayBuffer] returned. *)
Definition toArrayBuffer : M SmartBuffer Buffer.t :=
  let* this := get in
  let* (offset, limit) := checkRange (roffset this) (woffset this) in
  let* dst := lift (Host.newArrayBuffer (limit - offset)) in
  lift (Buffer.copy (buffer this) dst 0 0 (Buffer.length (buffer this))).

(** [toHex(begin, end)] *)
Definition toHex (begin end_ : optional) : M SmartBuffer JS.jsstring :=
  let* this := get in
  let begin := default (roffset this) begin in
  let end_ := default (woffset this) end_ in
  let* (begin, end_) := checkRange begin end_ in
  ret (Host.toStringHex (buffer this) begin end_).

(** [static fromHex(str, noAssert)] *)
Definition fromHex (str : JS.jsstring) (noAssert : bool) : result SmartBuffer :=
  if negb noAssert && negb (Z.of_nat (List.length str) mod 2 =? 0)
  then Throw (TypeError "Illegal str: Length not a multiple of 2")
  else
    let buffer := Host.hexDecode str in
    Ok (mkSmartBuffer buffer (Buffer.length buffer) 0 true).

(** ** Strings *)

Section Strings.

Variable junk : nat -> Z.
Variable utf8 : JS.jsstring -> list Z.
Variable utf8_decode : list Z -> JS.jsstring.

(** The offset check that the string methods repeat: with assertions the
    offset is reduced with [>>> 0] and [offset + bytes] must not exceed the
    capacity. *)
Definition checkOffset (offset bytes : Z) : M SmartBuffer Z :=
  let* this := get in
  if negb (noAssert this) then
    let offset := JS.ToUint32 offset in
    if (offset <? 0) || (offset + bytes >? Buffer.length (buffer this))
    then throw (RangeError "Illegal offset") else ret offset
  else ret offset.

(** [writeString(str, offset)]; the result is [None] for [this] and
    [Some k] for an absolute call. *)
Definition writeString (str : JS.jsstring) (offset : optional) : M SmartBuffer (option Z) :=
  let relative := bool_decide (offset = None) in
  let* this := get in
  let offset := default (woffset this) offset in
  let* offset := checkOffset offset 0 in
  let k := Buffer.length (utf8 str) in
  grow junk (offset + k);;
  let* this := get in
  let* (buffer', written) := lift (Buffer.write (buffer this) (utf8 str) offset k) in
  modify (set_buffer buffer');;
  let offset := offset + written in
  if relative then modify (set_woffset offset);; ret None
  else ret (Some k).

(** [readString(length, SmartBuffer.METRICS_BYTES, offset)] *)
Definition readString_bytes (length : Z) (offset : optional) : M SmartBuffer StringValue :=
  let relative := bool_decide (offset = None) in
  let* this := get in
  let offset := default (roffset this) offset in
  let length := if negb (noAssert this) then JS.ToInt32 length else length in
  let* offset := checkOffset offset 0 in
  let* offset := checkOffset offset length in
  let temp := toStringUtf8 utf8_decode (buffer this) offset (offset + length) in
  if relative then
    modify (fun this => set_roffset (roffset this + length) this);; ret (Str temp)
  else ret (SString temp length).

(** [writeVString(str, offset)]; the result is [None] for [this] and
    [Some (offset - start)] for an absolute call. *)
Definition writeVString (str : JS.jsstring) (offset : optional) : M SmartBuffer (option Z) :=
  let relative := bool_decide (offset = None) in
  let* this := get in
  let offset := default (woffset this) offset in
  let* offset := checkOffset offset 0 in
  let start := offset in
  let k := Buffer.length (utf8 str) in
  let l := calculateVarint32 k in
  grow junk (offset + (l + k));;
  let* size := writeVarint32 junk k (Some offset) in
  let offset := offset + default 0 size in
  let* this := get in
  let* (buffer', written) := lift (Buffer.write (buffer this) (utf8 str) offset k) in
  modify (set_buffer buffer');;
  let offset := offset + written in
  if relative then modify (set_woffset offset);; ret None
  else ret (Some (offset - start)).

(** [readVString(offset)].  The two inner reads are absolute calls, which
    return the value together with its length. *)
Definition readVString (offset : optional) : M SmartBuffer StringValue :=
  let relative := bool_decide (offset = None) in
  let* this := get in
  let offset := default (roffset this) offset in
  let* offset := checkOffset offset 1 in
  let start := offset in
  let* len := readVarint32 (Some offset) in
  match len with
  | SNumber value length =>
      let offset := offset + length in
      let* str := readString_bytes value (Some offset) in
      match str with
      | SString string length =>
          let offset := offset + length in
          if relative then modify (set_roffset offset);; ret (Str string)
          else ret (SString string (offset - start))
      | Str string => throw (TypeError "not reached")
      end
  | Number value => throw (TypeError "not reached")
  end.

End Strings.

(** ** Views, copies and concatenation *)

Section Copies.

Variable junk : nat -> Z.

(** [slice(begin, end)]: the new object, whose store is a view on the bytes
    [[begin, end)] of this store; the model gives the bytes the view shows
    at the time of the call. *)
Definition slice (begin end_ : optional) : M SmartBuffer SmartBuffer :=
  let* this := get in
  let begin := default (roffset this) begin in
  let end_ := default (woffset this) end_ in
  let* (begin, end_) := checkRange begin end_ in
  let* bb := lift (new junk (end_ - begin) DEFAULT_NOASSERT) in
  let bb := set_buffer (Host.subarray (buffer this) begin end_) bb in
  ret (set_woffset (capacity bb) bb).

(** [read(length, offset)] *)
Definition read (length : Z) (offset : optional) : M SmartBuffer SmartBuffer :=
  let relative := bool_decide (offset = None) in
  let* this := get in
  let offset := default (roffset this) offset in
  let* offset :=
    if negb (noAssert this) then
      let offset := JS.ToUint32 offset in
      if (offset <? 0) || (offset + length >? Buffer.length (buffer this))
      then throw (TypeError "Illegal offset") else ret offset
    else ret offset in
  let* slice := slice (Some offset) (Some (offset + length)) in
  (if relative then modify (fun this => set_roffset (roffset this + length) this)
   else ret tt);;
  ret slice.

(** The loop of [concat] over buffers that are [SmartBuffer]s already: each
    readable region is copied behind the last one. *)
Fixpoint concat_loop (buffers : list SmartBuffer) (bb : SmartBuffer) : result SmartBuffer :=
  match buffers with
  | [] => Ok bb
  | bi :: buffers' =>
      let length := woffset bi - roffset bi in
      if length <=? 0 then concat_loop buffers' bb
      else
        match Buffer.copy (buffer bi) (buffer bb) (woffset bb) (roffset bi) (woffset bi) with
        | Throw e => Throw e
        | Ok buffer' =>
            concat_loop buffers' (set_woffset (woffset bb + length) (set_buffer buffer' bb))
        end
  end.

(** [static concat(buffers, noAssert)] for a list of [SmartBuffer]s *)
Definition concat (buffers : list SmartBuffer) (noAssert : bool) : result SmartBuffer :=
  let capacity :=
    fold_left (fun capacity bi =>
                 let length := woffset bi - roffset bi in
                 if length >? 0 then capacity + length else capacity)
              buffers 0 in
  if capacity =? 0 then new junk 0 noAssert
  else
    match new junk capacity noAssert with
    | Throw e => Throw e
    | Ok bb =>
        match concat_loop buffers bb with
        | Throw e => Throw e
        | Ok bb => Ok (set_roffset 0 bb)
        end
    end.

(** A new object gets a reference that no object of the heap has. *)
Definition alloc (o : SmartBuffer) : M Heap ref :=
  fun h => let r := fresh (dom h) in (<[r := o]> h, Ok r).

(** [copyTo(target, targetOffset, sourceStart, sourceEnd)]; the result is the
    reference returned, [target] when there is nothing to copy and [this]
    otherwise. *)
Definition copyTo (this target : ref) (targetOffset sourceStart sourceEnd : optional)
  : M Heap ref :=
  let* s := on this get in
  let* t := on target get in
  let targetRelative := bool_decide (targetOffset = None) in
  let targetOffset :=
    match targetOffset with None => woffset t | Some x => JS.ToInt32 x end in
  let relative := bool_decide (sourceStart = None) in
  let sourceStart :=
    match sourceStart with None => roffset s | Some x => JS.ToInt32 x end in
  let sourceEnd :=
    match sourceEnd with None => woffset s | Some x => JS.ToInt32 x end in
  if (targetOffset <? 0) || (targetOffset >? Buffer.length (buffer t))
  then throw (RangeError "Illegal target range")
  else if (sourceStart <? 0) || (sourceEnd >? Buffer.length (buffer s))
  then throw (RangeError "Illegal source range")
  else
    let len := sourceEnd - sourceStart in
    if len =? 0 then ret target
    else
      on target (ensureCapacity junk (targetOffset + len));;
      let* s := on this get in
      let* t := on target get in
      let* buffer' :=
        lift (Buffer.copy (buffer s) (buffer t) targetOffset sourceStart sourceEnd) in
      on target (modify (set_buffer buffer'));;
      (if relative then on this (modify (fun s => set_roffset (roffset s + len) s))
       else ret tt);;
      (if targetRelative
       then on target (modify (fun t => set_woffset (woffset t + len) t))
       else ret tt);;
      ret this.

(** [copy(begin, end)]; the result is the reference of the new object. *)
Definition copy (this : ref) (begin end_ : optional) : M Heap ref :=
  let* s := on this get in
  let begin := default (roffset s) begin in
  let end_ := default (woffset s) end_ in
  let* (begin, end_) := on this (checkRange begin end_) in
  if begin =? end_ then
    let* o := lift (new junk 0 (noAssert s)) in alloc o
  else
    let capacity := end_ - begin in
    let* o := lift (new junk capacity (noAssert s)) in
    let* bb := alloc o in
    on bb (modify (set_roffset 0));;
    on bb (modify (set_woffset 0));;
    copyTo this bb (Some 0) (Some begin) (Some end_);;
    ret bb.

End Copies.

(** ** Reading a bit set *)

(** [Boolean(x)] for a number *)
Definition Boolean (x : Z) : bool := negb (x =? 0).

(** The eight flags that the first loop of [readBitSet] takes from a byte:
    [value[bit++] = Boolean(k & 0x01); ... value[bit++] = Boolean(k & 0x80);] *)
Definition unpackByte (k : Z) : list bool :=
  [Boolean (JS.and k 0x01); Boolean (JS.and k 0x02);
   Boolean (JS.and k 0x04); Boolean (JS.and k 0x08);
   Boolean (JS.and k 0x10); Boolean (JS.and k 0x20);
   Boolean (JS.and k 0x40); Boolean (JS.and k 0x80)].

(** [while (bytes--) { k = this.readInt8(offset++); value[bit++] = ...; }].
    [bit] is the length of [value] throughout, so each store appends.  The
    count [bytes] comes from the store; a negative one never reaches 0, so
    the loop is given a [fuel] and returns [None] when it is still running
    after [fuel] tests.  Otherwise it returns the final [bit], [offset] and
    [value]. *)
Fixpoint readBitSet_bytes (fuel : nat) (bytes bit offset : Z) (value : list bool)
  : M SmartBuffer (option (Z * Z * list bool)) :=
  match fuel with
  | O => ret None
  | S fuel' =>
      if bytes =? 0 then ret (Some (bit, offset, value))
      else
        let* k := readInt8 (Some offset) in
        readBitSet_bytes fuel' (bytes - 1) (bit + 8) (offset + 1)
                         (value ++ unpackByte (JS.number k))
  end.

(** [while (bit < bits) { value[bit++] = Boolean((k >> (m++)) & 1); }], with
    [rest] the number of flags left. *)
Fixpoint readBitSet_tail (rest : nat) (k m : Z) : list bool :=
  match rest with
  | O => []
  | S rest' => Boolean (JS.and (JS.sar k m) 1) :: readBitSet_tail rest' k (m + 1)
  end.

(** [readBitSet(offset)]; [None] when the first loop has not ended within
    [fuel] tests.  The varint is read by an absolute call, which returns the
    value together with its length. *)
Definition readBitSet (fuel : nat) (offset : optional) : M SmartBuffer (option (list bool)) :=
  let relative := bool_decide (offset = None) in
  let* this := get in
  let offset := default (roffset this) offset in
  let* ret_ := readVarint32 (Some offset) in
  match ret_ with
  | SNumber bits length =>
      let bytes := JS.sar bits 3 in
      let offset := offset + length in
      let* r := readBitSet_bytes fuel bytes 0 offset [] in
      match r with
      | None => ret None
      | Some (bit, offset, value) =>
          let* (offset, value) :=
            if bit <? bits then
              let* k := readInt8 (Some offset) in
              ret (offset + 1,
                   value ++ readBitSet_tail (Z.to_nat (bits - bit)) (JS.number k) 0)
            else ret (offset, value) in
          (if relative then modify (set_roffset offset) else ret tt);;
          ret (Some value)
      end
  | Number value => throw (TypeError "not reached")
  end.

(** * Properties *)

(** ** The 32-bit coercions *)

(** Linear arithmetic with division and remainder by constants. *)
Ltac zlia :=
  change (2 ^ 32) with 4294967296 in *;
  change (2 ^ 31) with 2147483648 in *;
  Z.div_mod_to_equations; lia.

Lemma ToUint32_range x : 0 <= JS.ToUint32 x < 2 ^ 32.
Proof. unfold JS.ToUint32. zlia. Qed.

Lemma ToUint32_id x : 0 <= x < 2 ^ 32 -> JS.ToUint32 x = x.
Proof. intros. unfold JS.ToUint32. zlia. Qed.

Lemma ToInt32_range x : - 2 ^ 31 <= JS.ToInt32 x < 2 ^ 31.
Proof.
  unfold JS.ToInt32. cbv zeta.
  destruct (Z.ltb_spec (x mod 2 ^ 32) (2 ^ 31)); zlia.
Qed.

Lemma ToInt32_id x : - 2 ^ 31 <= x < 2 ^ 31 -> JS.ToInt32 x = x.
Proof.
  intros. unfold JS.ToInt32. cbv zeta.
  destruct (Z.ltb_spec (x mod 2 ^ 32) (2 ^ 31)); zlia.
Qed.

Lemma ToUint32_ToInt32 x : JS.ToUint32 (JS.ToInt32 x) = JS.ToUint32 x.
Proof.
  unfold JS.ToInt32, JS.ToUint32. cbv zeta.
  destruct (Z.ltb_spec (x mod 2 ^ 32) (2 ^ 31)); zlia.
Qed.

Lemma ToInt32_ToUint32 x : JS.ToInt32 (JS.ToUint32 x) = JS.ToInt32 x.
Proof.
  unfold JS.ToInt32, JS.ToUint32. cbv zeta.
  rewrite Z.mod_mod by lia. reflexivity.
Qed.

Lemma ToInt32_inj_mod a b : JS.ToUint32 a = JS.ToUint32 b -> JS.ToInt32 a = JS.ToInt32 b.
Proof. intros H. rewrite <- (ToInt32_ToUint32 a), H. apply ToInt32_ToUint32. Qed.

Lemma ToUint32_lor a b :
  JS.ToUint32 (Z.lor a b) = Z.lor (JS.ToUint32 a) (JS.ToUint32 b).
Proof.
  unfold JS.ToUint32. rewrite <- !Z.land_ones by lia. apply Z.land_lor_distr_l.
Qed.

Lemma ToUint32_or a b :
  JS.ToUint32 (JS.or a b) = Z.lor (JS.ToUint32 a) (JS.ToUint32 b).
Proof. unfold JS.or. rewrite ToUint32_lor, !ToUint32_ToInt32. reflexivity. Qed.

Lemma and_mask_byte g m k :
  0 <= g < 256 -> m = Z.ones k -> 0 <= k <= 8 -> JS.and g m = g mod 2 ^ k.
Proof.
  intros Hg -> Hk. unfold JS.and.
  assert (0 <= Z.ones k < 256).
  { rewrite Z.ones_equiv. assert (0 < 2 ^ k) by (apply Z.pow_pos_nonneg; lia).
    assert (2 ^ k <= 2 ^ 8) by (apply Z.pow_le_mono_r; lia). lia. }
  rewrite !ToInt32_id by lia. apply Z.land_ones. lia.
Qed.

Lemma lor_disjoint a x k :
  0 <= k -> 0 <= a < 2 ^ k -> Z.lor a (x * 2 ^ k) = a + x * 2 ^ k.
Proof.
  intros Hk Ha.
  assert (Hd : Z.land a (x * 2 ^ k) = 0).
  { apply Z.bits_inj'. intros i Hi. rewrite Z.land_spec, Z.bits_0.
    destruct (Z.lt_ge_cases i k).
    - rewrite Z.mul_pow2_bits_low by lia. apply andb_false_r.
    - rewrite <- (Z.mod_small a (2 ^ k)) by lia.
      rewrite Z.mod_pow2_bits_high by lia. reflexivity. }
  rewrite <- Z.lxor_lor by exact Hd. symmetry. apply Z.add_nocarry_lxor. exact Hd.
Qed.

(** ** The loops, unfolded once *)

Lemma writeVarint32_loop_eq value offset b :
  writeVarint32_loop value offset b =
  if value <? 0x80 then (Buffer.set b offset value, offset + 1)
  else writeVarint32_loop (JS.shr value 7) (offset + 1)
         (Buffer.set b offset (JS.or (JS.and value 0x7f) 0x80)).
Proof.
  rewrite writeVarint32_loop_equation_1.
  destruct (Z_lt_dec value 128) as [H|H]; simpl;
    destruct (Z.ltb_spec value 128); try lia; reflexivity.
Qed.

Lemma readVarint32_loop_eq noAssert b offset c value :
  readVarint32_loop noAssert b offset c value =
  if negb noAssert && (offset >? Buffer.length b) then Throw (Error "Truncated" true)
  else
    let v := Buffer.get b offset in
    let value' := if c <? 5 then JS.or value (JS.shl (JS.and (JS.number v) 0x7f) (7 * c))
                  else value in
    if JS.and (JS.number v) 0x80 =? 0 then Ok (value', c + 1, offset + 1)
    else readVarint32_loop noAssert b (offset + 1) (c + 1) value'.
Proof.
  rewrite readVarint32_loop_equation_1.
  destruct (negb noAssert && (offset >? Buffer.length b)); simpl; [reflexivity|].
  destruct (Z.eq_dec (JS.and (JS.number (Buffer.get b offset)) 128) 0) as [H|H]; simpl.
  - rewrite H. reflexivity.
  - destruct (Z.eqb_spec (JS.and (JS.number (Buffer.get b offset)) 128) 0);
      [contradiction|reflexivity].
Qed.

Lemma readCString_loop_eq b offset :
  readCString_loop b offset =
  if offset >=? Buffer.length b then Throw (RangeError "Index out of range")
  else if bool_decide (Buffer.get b offset = Some 0) then Ok (offset + 1)
  else readCString_loop b (offset + 1).
Proof.
  rewrite readCString_loop_equation_1.
  destruct (Z_ge_dec offset (Buffer.length b)) as [H|H]; simpl;
    destruct (Z.geb_spec offset (Buffer.length b)); try lia; [reflexivity|].
  destruct (option_eq_dec (Buffer.get b offset) (Some 0)) as [E|E]; simpl.
  - rewrite bool_decide_eq_true_2 by exact E. reflexivity.
  - rewrite bool_decide_eq_false_2 by exact E. reflexivity.
Qed.

(** ** The store *)

Lemma Buffer_length_nonneg (b : Buffer.t) : 0 <= Buffer.length b.
Proof. unfold Buffer.length. lia. Qed.

Lemma Buffer_length_app (a b : Buffer.t) :
  Buffer.length (a ++ b) = Buffer.length a + Buffer.length b.
Proof. unfold Buffer.length. rewrite length_app. lia. Qed.

Lemma Buffer_get_lookup (b : Buffer.t) i :
  0 <= i < Buffer.length b -> Buffer.get b i = b !! Z.to_nat i.
Proof.
  intros H. unfold Buffer.get.
  destruct (Z.leb_spec 0 i); destruct (Z.ltb_spec i (Buffer.length b)); try lia.
  reflexivity.
Qed.

Lemma Buffer_get_outside (b : Buffer.t) i :
  i < 0 \/ Buffer.length b <= i -> Buffer.get b i = None.
Proof.
  intros H. unfold Buffer.get.
  destruct (Z.leb_spec 0 i); destruct (Z.ltb_spec i (Buffer.length b)); try lia;
    reflexivity.
Qed.

Lemma Buffer_get_app_l (a b : Buffer.t) i :
  0 <= i < Buffer.length a -> Buffer.get (a ++ b) i = Buffer.get a i.
Proof.
  intros H. rewrite !Buffer_get_lookup.
  - apply lookup_app_l. unfold Buffer.length in H. lia.
  - lia.
  - rewrite Buffer_length_app. pose proof (Buffer_length_nonneg b). lia.
Qed.

Lemma Buffer_length_set (b : Buffer.t) i v :
  Buffer.length (Buffer.set b i v) = Buffer.length b.
Proof.
  unfold Buffer.set. destruct (_ && _); [|reflexivity].
  unfold Buffer.length. rewrite length_insert. reflexivity.
Qed.

Lemma Buffer_get_set_eq (b : Buffer.t) i v :
  0 <= i < Buffer.length b -> Buffer.get (Buffer.set b i v) i = Some (v mod 256).
Proof.
  intros H. rewrite Buffer_get_lookup by (rewrite Buffer_length_set; lia).
  unfold Buffer.set.
  destruct (Z.leb_spec 0 i); destruct (Z.ltb_spec i (Buffer.length b)); try lia.
  simpl. apply list_lookup_insert_eq. unfold Buffer.length in H. lia.
Qed.

Lemma Buffer_get_set_ne (b : Buffer.t) i k v :
  i <> k -> Buffer.get (Buffer.set b i v) k = Buffer.get b k.
Proof.
  intros H. unfold Buffer.get. rewrite Buffer_length_set.
  destruct ((0 <=? k) && (k <? Buffer.length b)) eqn:E; [|reflexivity].
  apply andb_true_iff in E as [E1 E2]. apply Z.leb_le in E1.
  unfold Buffer.set. destruct (_ && _) eqn:E3; [|reflexivity].
  apply andb_true_iff in E3 as [E3 _]. apply Z.leb_le in E3.
  apply list_lookup_insert_ne. lia.
Qed.

(** The bytes that [resize] adds behind a store of [n] bytes to reach [c]. *)
Lemma allocUnsafe_length junk c b :
  Buffer.allocUnsafe junk c = Ok b -> Buffer.length b = Z.max 0 c.
Proof.
  unfold Buffer.allocUnsafe. destruct (Z.ltb_spec c 0); [discriminate|].
  destruct (c >? Buffer.MAX_LENGTH); [discriminate|].
  intros [= <-]. unfold Buffer.length. rewrite length_map, length_seq. lia.
Qed.

Lemma allocUnsafe_ok junk c :
  0 <= c <= Buffer.MAX_LENGTH ->
  Buffer.allocUnsafe junk c = Ok (map junk (seq 0 (Z.to_nat c))).
Proof.
  intros H. unfold Buffer.allocUnsafe.
  destruct (Z.ltb_spec c 0); [lia|]. destruct (Z.gtb_spec c Buffer.MAX_LENGTH); [lia|].
  reflexivity.
Qed.

Lemma copy_ok (source target : list Z) ts ss se :
  0 <= ts -> 0 <= ss <= Buffer.length source -> 0 <= se ->
  Buffer.copy source target ts ss se = Ok (Buffer.blit source target ts ss se).
Proof.
  intros Hts Hss Hse. unfold Buffer.copy.
  destruct (Z.ltb_spec ts 0); [lia|]. destruct (Z.ltb_spec ss 0); [lia|].
  destruct (Z.gtb_spec ss (Buffer.length source)); [lia|].
  destruct (Z.ltb_spec se 0); [lia|]. reflexivity.
Qed.

Lemma blit_prefix (b target : Buffer.t) :
  Buffer.length b <= Buffer.length target ->
  Buffer.blit b target 0 0 (Buffer.length b) = b ++ drop (List.length b) target.
Proof.
  intros H. unfold Buffer.blit, Buffer.slice, Buffer.length in *.
  rewrite !Z.sub_0_r, !Nat2Z.id. change (Z.to_nat 0) with 0%nat.
  rewrite drop_0, (take_ge b (List.length b)) by lia.
  rewrite (take_ge b) by lia. reflexivity.
Qed.

Lemma copy_prefix (b target : list Z) :
  Buffer.length b <= Buffer.length target ->
  Buffer.copy b target 0 0 (Buffer.length b) = Ok (b ++ drop (List.length b) target).
Proof.
  intros H. pose proof (Buffer_length_nonneg b).
  rewrite copy_ok by lia. rewrite blit_prefix by exact H. reflexivity.
Qed.

(** ** Capacity *)

Ltac monad := unfold bind, ret, throw, get, put, gets, modify, when_, lift; cbn beta iota.

Lemma set_buffer_id this : set_buffer (buffer this) this = this.
Proof. destruct this; reflexivity. Qed.

Section Growth.

Variable junk : nat -> Z.

(** A call of [resize] that has to grow the store and is given a capacity
    that its coercion to a signed 32-bit integer keeps. *)
Lemma resize_grows this c :
  capacity this < c -> noAssert this = true \/ c < 2 ^ 31 -> c <= Buffer.MAX_LENGTH ->
  resize junk c this =
  (set_buffer (buffer this ++ drop (List.length (buffer this))
                                (map junk (seq 0 (Z.to_nat c)))) this, Ok tt).
Proof.
  intros Hc Hn Hmax. unfold capacity in Hc.
  pose proof (Buffer_length_nonneg (buffer this)).
  unfold resize. monad.
  assert (Hlen : Buffer.length (buffer this) <=
                 Buffer.length (map junk (seq 0 (Z.to_nat c)))).
  { unfold Buffer.length in *. rewrite length_map, length_seq. lia. }
  destruct (noAssert this); cbn [negb]; cbv iota.
  - destruct (Z.ltb_spec (Buffer.length (buffer this)) c); [|lia].
    rewrite allocUnsafe_ok by lia. cbv beta iota.
    rewrite copy_prefix by exact Hlen. reflexivity.
  - destruct Hn as [Hn|Hn]; [discriminate|].
    rewrite ToInt32_id by lia. destruct (Z.ltb_spec c 0); [lia|]. cbv beta iota.
    destruct (Z.ltb_spec (Buffer.length (buffer this)) c); [|lia].
    rewrite allocUnsafe_ok by lia. cbv beta iota.
    rewrite copy_prefix by exact Hlen. reflexivity.
Qed.

(** Whatever its argument and outcome, [resize] leaves the old store as a
    prefix of the new one and touches nothing else. *)
Lemma resize_extends this c :
  exists tail r, resize junk c this = (set_buffer (buffer this ++ tail) this, r).
Proof.
  unfold resize. monad.
  destruct (negb (noAssert this)).
  - destruct (JS.ToInt32 c <? 0).
    + exists [], (Throw (TypeError "Not valid capacity value")).
      rewrite app_nil_r, set_buffer_id. reflexivity.
    + destruct (Z.ltb_spec (Buffer.length (buffer this)) (JS.ToInt32 c)).
      * unfold Buffer.allocUnsafe.
        destruct ((JS.ToInt32 c <? 0) || (JS.ToInt32 c >? Buffer.MAX_LENGTH)) eqn:E.
        { eexists [], _. rewrite app_nil_r, set_buffer_id. reflexivity. }
        rewrite copy_prefix.
        { eexists _, _. reflexivity. }
        unfold Buffer.length in *. rewrite length_map, length_seq. lia.
      * exists [], (Ok tt). rewrite app_nil_r, set_buffer_id. reflexivity.
  - destruct (Z.ltb_spec (Buffer.length (buffer this)) c).
    + unfold Buffer.allocUnsafe.
      destruct ((c <? 0) || (c >? Buffer.MAX_LENGTH)) eqn:E.
      { eexists [], _. rewrite app_nil_r, set_buffer_id. reflexivity. }
      rewrite copy_prefix.
      { eexists _, _. reflexivity. }
      unfold Buffer.length in *. rewrite length_map, length_seq. lia.
    + exists [], (Ok tt). rewrite app_nil_r, set_buffer_id. reflexivity.
Qed.

Lemma grown_length (b : list Z) c :
  Buffer.length b < c ->
  Buffer.length (b ++ drop (List.length b) (map junk (seq 0 (Z.to_nat c)))) = c.
Proof.
  intros H. pose proof (Buffer_length_nonneg b). unfold Buffer.length in *.
  rewrite length_app, length_drop, length_map, length_seq. lia.
Qed.

(** The growth step of a write that needs [s] bytes. *)
Lemma grow_enough this s :
  s <= capacity this -> grow junk s this = (this, Ok tt).
Proof.
  intros H. unfold grow, capacity in *. monad.
  destruct (Z.gtb_spec s (Buffer.length (buffer this))); [lia|reflexivity].
Qed.

Lemma grow_grows this s :
  capacity this < s ->
  noAssert this = true \/ Z.max (2 * capacity this) s < 2 ^ 31 ->
  Z.max (2 * capacity this) s <= Buffer.MAX_LENGTH ->
  grow junk s this =
  (set_buffer (buffer this ++ drop (List.length (buffer this))
                 (map junk (seq 0 (Z.to_nat (Z.max (2 * capacity this) s))))) this,
   Ok tt).
Proof.
  intros H Hn Hmax. unfold grow, capacity in *. monad.
  destruct (Z.gtb_spec s (Buffer.length (buffer this))); [|lia].
  pose proof (Buffer_length_nonneg (buffer this)).
  destruct (Z.gtb_spec (Buffer.length (buffer this) * 2) s).
  - rewrite resize_grows;
      [|unfold capacity; lia|destruct Hn; [left; assumption|right; lia]|lia].
    replace (Z.max (2 * Buffer.length (buffer this)) s)
      with (Buffer.length (buffer this) * 2) by lia. reflexivity.
  - rewrite resize_grows;
      [|unfold capacity; lia|destruct Hn; [left; assumption|right; lia]|lia].
    replace (Z.max (2 * Buffer.length (buffer this)) s) with s by lia. reflexivity.
Qed.

(** The growth step of a write that needs [s] bytes, in one statement: the
    store is extended by [tail], which is empty when there is room, and
    otherwise brings the capacity to [max (2 * capacity) s]. *)
Lemma grow_run this s :
  noAssert this = true \/ Z.max (2 * capacity this) s < 2 ^ 31 ->
  Z.max (2 * capacity this) s <= Buffer.MAX_LENGTH ->
  exists tail,
    grow junk s this = (set_buffer (buffer this ++ tail) this, Ok tt) /\
    s <= Buffer.length (buffer this ++ tail) /\
    (if s >? capacity this
     then Buffer.length (buffer this ++ tail) = Z.max (2 * capacity this) s
     else tail = []).
Proof.
  intros Hn Hmax. unfold capacity in *.
  destruct (Z.gtb_spec s (Buffer.length (buffer this))).
  - exists (drop (List.length (buffer this))
              (map junk (seq 0 (Z.to_nat (Z.max (2 * Buffer.length (buffer this)) s))))).
    pose proof (Buffer_length_nonneg (buffer this)).
    split; [apply grow_grows; unfold capacity; [lia|exact Hn|exact Hmax]|].
    rewrite grown_length by lia. split; [lia|reflexivity].
  - exists []. rewrite app_nil_r, set_buffer_id.
    split; [apply grow_enough; unfold capacity; lia|]. split; [lia|reflexivity].
Qed.

End Growth.

(** ** Varints *)

(** A property of all bytes, checked on each of them. *)
Lemma byte_cases (f : Z -> bool) :
  forallb (fun n => f (Z.of_nat n)) (seq 0 256) = true ->
  forall g, 0 <= g < 256 -> f g = true.
Proof.
  intros H g Hg. rewrite forallb_forall in H.
  rewrite <- (Z2Nat.id g) by lia. apply H. apply in_seq. lia.
Qed.

Lemma and_0x80 g :
  0 <= g < 256 -> JS.and g 0x80 = if g <? 0x80 then 0 else 0x80.
Proof.
  intros Hg. apply Z.eqb_eq.
  apply (byte_cases (fun g => JS.and g 0x80 =? (if g <? 0x80 then 0 else 0x80)));
    [vm_compute; reflexivity|exact Hg].
Qed.

Lemma and_0x7f g : 0 <= g < 256 -> JS.and g 0x7f = g mod 128.
Proof. intros. apply (and_mask_byte g 127 7); [lia|reflexivity|lia]. Qed.

Lemma or_0x80 x : 0 <= x < 128 -> JS.or x 0x80 = x + 128.
Proof.
  intros Hx.
  assert (H : (128 <=? x) || (JS.or x 0x80 =? x + 128) = true).
  { apply (byte_cases (fun x => (128 <=? x) || (JS.or x 0x80 =? x + 128)));
      [vm_compute; reflexivity|lia]. }
  apply orb_true_iff in H as [H|H]; [apply Z.leb_le in H; lia|apply Z.eqb_eq, H].
Qed.

Lemma and_0x7f_any v : JS.and v 0x7f = v mod 128.
Proof.
  unfold JS.and. rewrite (ToInt32_id 127) by lia.
  change 127 with (Z.ones 7). rewrite Z.land_ones by lia.
  unfold JS.ToInt32. cbv zeta. change (2 ^ 7) with 128.
  destruct (Z.ltb_spec (v mod 2 ^ 32) (2 ^ 31)); zlia.
Qed.

Lemma shr_7 v : 0 <= v < 2 ^ 32 -> JS.shr v 7 = v / 128.
Proof.
  intros. unfold JS.shr. rewrite ToUint32_id by lia.
  change (7 mod 32) with 7. rewrite Z.shiftr_div_pow2 by lia. reflexivity.
Qed.

Lemma shl_small x s :
  0 <= x < 128 -> 0 <= s < 32 -> JS.ToUint32 (JS.shl x s) = (x * 2 ^ s) mod 2 ^ 32.
Proof.
  intros Hx Hs. unfold JS.shl. rewrite ToUint32_ToInt32, ToInt32_id by lia.
  rewrite Z.mod_small by lia. rewrite Z.shiftl_mul_pow2 by lia. reflexivity.
Qed.

(** The write loop keeps the size of the store, moves forward, and touches
    only the bytes between the first and the final offset. *)
Lemma writeVarint32_loop_frame value offset b :
  Buffer.length (fst (writeVarint32_loop value offset b)) = Buffer.length b /\
  offset < snd (writeVarint32_loop value offset b) /\
  forall i, i < offset \/ snd (writeVarint32_loop value offset b) <= i ->
            Buffer.get (fst (writeVarint32_loop value offset b)) i = Buffer.get b i.
Proof.
  apply (writeVarint32_loop_elim
           (fun value offset b r =>
              Buffer.length (fst r) = Buffer.length b /\ offset < snd r /\
              forall i, i < offset \/ snd r <= i ->
                        Buffer.get (fst r) i = Buffer.get b i)); clear.
  - intros value _ offset b _. simpl. split; [apply Buffer_length_set|].
    split; [lia|]. intros i Hi. apply Buffer_get_set_ne. lia.
  - intros value _ offset b (IH1 & IH2 & IH3) _.
    rewrite Buffer_length_set in IH1. split; [exact IH1|]. split; [lia|].
    intros i Hi. rewrite IH3 by lia. apply Buffer_get_set_ne. lia.
Qed.

(** The number of bytes the loop writes is [calculateVarint32]. *)
Lemma writeVarint32_loop_size u offset b :
  0 <= u < 2 ^ 32 ->
  snd (writeVarint32_loop u offset b) = offset + calculateVarint32 u.
Proof.
  intros Hu. unfold calculateVarint32. rewrite ToUint32_id by lia.
  change (JS.shl 1 7) with 128. change (JS.shl 1 14) with 16384.
  change (JS.shl 1 21) with 2097152. change (JS.shl 1 28) with 268435456.
  rewrite writeVarint32_loop_eq.
  destruct (Z.ltb_spec u 128); [simpl; lia|].
  rewrite shr_7 by lia. rewrite writeVarint32_loop_eq.
  destruct (Z.ltb_spec (u / 128) 128); destruct (Z.ltb_spec u 16384);
    try zlia; [simpl; lia|].
  rewrite shr_7 by zlia. rewrite writeVarint32_loop_eq.
  destruct (Z.ltb_spec (u / 128 / 128) 128); destruct (Z.ltb_spec u 2097152);
    try zlia; [simpl; lia|].
  rewrite shr_7 by zlia. rewrite writeVarint32_loop_eq.
  destruct (Z.ltb_spec (u / 128 / 128 / 128) 128); destruct (Z.ltb_spec u 268435456);
    try zlia; [simpl; lia|].
  rewrite shr_7 by zlia. rewrite writeVarint32_loop_eq.
  destruct (Z.ltb_spec (u / 128 / 128 / 128 / 128) 128); [simpl; lia|zlia].
Qed.

Lemma five_cases c : 0 <= c <= 4 -> c = 0 \/ c = 1 \/ c = 2 \/ c = 3 \/ c = 4.
Proof. lia. Qed.

(** Reading what the write loop wrote.  [U] is the whole number, of which
    the groups below [7 * c] are in [acc] and the rest, [value], is written
    at [offset]; [b'] is any store that holds the written bytes. *)
Lemma readVarint32_loop_written value offset b :
  forall noAssert c U acc (b' : list Z),
    0 <= c <= 4 -> 0 <= U < 2 ^ 32 -> value = U / 2 ^ (7 * c) ->
    JS.ToUint32 acc = U mod 2 ^ (7 * c) -> 0 <= offset ->
    snd (writeVarint32_loop value offset b) <= Buffer.length b ->
    Buffer.length b' = Buffer.length b ->
    (forall i, offset <= i < snd (writeVarint32_loop value offset b) ->
               Buffer.get b' i = Buffer.get (fst (writeVarint32_loop value offset b)) i) ->
    exists acc',
      readVarint32_loop noAssert b' offset c acc =
      Ok (acc', c + (snd (writeVarint32_loop value offset b) - offset),
          snd (writeVarint32_loop value offset b)) /\
      JS.ToUint32 acc' = U.
Proof.
  apply (writeVarint32_loop_elim
           (fun value offset b r =>
              forall noAssert c U acc (b' : list Z),
                0 <= c <= 4 -> 0 <= U < 2 ^ 32 -> value = U / 2 ^ (7 * c) ->
                JS.ToUint32 acc = U mod 2 ^ (7 * c) -> 0 <= offset ->
                snd r <= Buffer.length b -> Buffer.length b' = Buffer.length b ->
                (forall i, offset <= i < snd r -> Buffer.get b' i = Buffer.get (fst r) i) ->
                exists acc',
                  readVarint32_loop noAssert b' offset c acc =
                  Ok (acc', c + (snd r - offset), snd r) /\
                  JS.ToUint32 acc' = U)); clear.
  - (* the last byte *)
    intros value Hlt offset b _ noAssert c U acc b' Hc HU Hv Hacc Ho Hlen Hb' Hget.
    simpl in *.
    assert (Hpow : 0 < 2 ^ (7 * c)) by (apply Z.pow_pos_nonneg; lia).
    assert (Hv0 : 0 <= value) by (subst value; apply Z.div_pos; lia).
    assert (Hbyte : Buffer.get b' offset = Some value).
    { rewrite Hget by lia. rewrite Buffer_get_set_eq by lia.
      rewrite Z.mod_small by lia. reflexivity. }
    rewrite readVarint32_loop_eq, Hbyte.
    destruct (Z.gtb_spec offset (Buffer.length b')); [lia|]. rewrite andb_false_r.
    cbv zeta. simpl JS.number.
    rewrite and_0x80 by lia. destruct (Z.ltb_spec value 128); [|lia]. simpl (0 =? 0).
    cbv iota. destruct (Z.ltb_spec c 5); [|lia].
    replace (c + (offset + 1 - offset)) with (c + 1) by lia.
    eexists. split; [reflexivity|].
    rewrite ToUint32_or, Hacc, and_0x7f by lia.
    rewrite (Z.mod_small value 128) by lia. rewrite shl_small by lia.
    assert (Hle : 2 ^ (7 * c) * value <= U) by (subst value; apply Z.mul_div_le; lia).
    rewrite (Z.mod_small (value * 2 ^ (7 * c))) by nia.
    rewrite lor_disjoint by (try apply Z.mod_pos_bound; lia).
    subst value. rewrite (Z.div_mod U (2 ^ (7 * c))) at 3 by lia. lia.
  - (* a byte with the continuation bit *)
    intros value Hge offset b IH _ noAssert c U acc b' Hc HU Hv Hacc Ho Hlen Hb' Hget.
    set (g := JS.or (JS.and value 127) 128) in *.
    set (r := writeVarint32_loop (JS.shr value 7) (offset + 1) (Buffer.set b offset g)) in *.
    assert (Hpow : 0 < 2 ^ (7 * c)) by (apply Z.pow_pos_nonneg; lia).
    assert (HvU : 0 <= value <= U).
    { subst value. split; [apply Z.div_pos; lia|]. apply Z.div_le_upper_bound; nia. }
    assert (Hg : g = value mod 128 + 128).
    { unfold g. rewrite and_0x7f_any. apply or_0x80. zlia. }
    destruct (writeVarint32_loop_frame (JS.shr value 7) (offset + 1)
                (Buffer.set b offset g)) as (F1 & F2 & F3).
    fold r in F1, F2, F3. rewrite Buffer_length_set in F1.
    assert (Hbyte : Buffer.get b' offset = Some g).
    { rewrite Hget by lia. rewrite F3 by lia. rewrite Buffer_get_set_eq by lia.
      rewrite Z.mod_small by zlia. reflexivity. }
    rewrite readVarint32_loop_eq, Hbyte.
    destruct (Z.gtb_spec offset (Buffer.length b')); [lia|]. rewrite andb_false_r.
    cbv zeta. simpl JS.number.
    rewrite and_0x80 by zlia. destruct (Z.ltb_spec g 128); [zlia|].
    simpl (128 =? 0). cbv iota. destruct (Z.ltb_spec c 5); [|lia].
    assert (Hc3 : c <= 3).
    { destruct (five_cases c Hc) as [->|[->|[->|[->| ->]]]]; try lia.
      exfalso. change (2 ^ (7 * 4)) with 268435456 in *. zlia. }
    destruct (IH noAssert (c + 1) U
                (JS.or acc (JS.shl (JS.and g 127) (7 * c))) b') as (acc' & E1 & E2);
      try lia.
    + rewrite shr_7 by lia. subst value.
      rewrite Z.div_div by lia. f_equal.
      replace (7 * (c + 1)) with (7 * c + 7) by lia. rewrite Z.pow_add_r by lia. lia.
    + rewrite ToUint32_or, Hacc, and_0x7f, shl_small by zlia.
      rewrite Hg. replace ((value mod 128 + 128) mod 128) with (value mod 128) by zlia.
      assert (Hle : 2 ^ (7 * c) * value <= U) by (subst value; apply Z.mul_div_le; lia).
      assert (Hm : 0 <= value mod 128 <= value).
      { split; [apply Z.mod_pos_bound; lia|apply Z.mod_le; lia]. }
      rewrite (Z.mod_small (value mod 128 * 2 ^ (7 * c))) by nia.
      rewrite lor_disjoint.
      * destruct (five_cases c Hc) as [->|[->|[->|[->| ->]]]]; try lia; subst value;
          [change (2 ^ (7 * 0)) with 1|change (2 ^ (7 * 1)) with 128
           |change (2 ^ (7 * 2)) with 16384|change (2 ^ (7 * 3)) with 2097152];
          [change (2 ^ (7 * (0 + 1))) with 128|change (2 ^ (7 * (1 + 1))) with 16384
           |change (2 ^ (7 * (2 + 1))) with 2097152
           |change (2 ^ (7 * (3 + 1))) with 268435456]; zlia.
      * lia.
      * apply Z.mod_pos_bound. lia.
    + rewrite Buffer_length_set. lia.
    + rewrite Buffer_length_set. lia.
    + intros i Hi. apply Hget. lia.
    + exists acc'. split; [|exact E2]. rewrite E1.
      replace (c + 1 + (snd r - (offset + 1))) with (c + (snd r - offset)) by lia.
      reflexivity.
Qed.

(** ** Zig-zag *)

Lemma zigZagEncode32_spec n :
  - 2 ^ 31 <= n < 2 ^ 31 ->
  zigZagEncode32 n = if n <? 0 then - 2 * n - 1 else 2 * n.
Proof.
  intros Hn. unfold zigZagEncode32, JS.xor, JS.shl, JS.sar. cbv zeta.
  rewrite !(ToInt32_id n) by lia. change (1 mod 32) with 1. change (31 mod 32) with 31.
  rewrite Z.shiftl_mul_pow2, Z.shiftr_div_pow2 by lia.
  rewrite (ToInt32_id (JS.ToInt32 _)) by apply ToInt32_range.
  destruct (Z.ltb_spec n 0).
  - replace (n / 2 ^ 31) with (-1) by zlia.
    rewrite (ToInt32_id (-1)) by lia. rewrite Z.lxor_m1_r.
    unfold Z.lnot, JS.ToInt32, JS.ToUint32. cbv zeta. change (2 ^ 1) with 2.
    destruct (Z.ltb_spec ((n * 2) mod 2 ^ 32) (2 ^ 31)); zlia.
  - replace (n / 2 ^ 31) with 0 by zlia.
    rewrite (ToInt32_id 0) by lia. rewrite Z.lxor_0_r.
    rewrite ToUint32_ToInt32. change (2 ^ 1) with 2. unfold JS.ToUint32. zlia.
Qed.

Lemma zigZag32_roundtrip n :
  - 2 ^ 31 <= n < 2 ^ 31 -> zigZagDecode32 (JS.ToInt32 (zigZagEncode32 n)) = n.
Proof.
  intros Hn. rewrite zigZagEncode32_spec by exact Hn.
  set (u := if n <? 0 then - 2 * n - 1 else 2 * n).
  assert (Hu : 0 <= u < 2 ^ 32) by (unfold u; destruct (Z.ltb_spec n 0); lia).
  unfold zigZagDecode32, JS.xor, JS.shr, JS.and.
  rewrite ToUint32_ToInt32, (ToUint32_id u) by exact Hu.
  change (1 mod 32) with 1. rewrite Z.shiftr_div_pow2 by lia. change (2 ^ 1) with 2.
  rewrite (ToInt32_id (JS.ToInt32 u)) by apply ToInt32_range.
  rewrite (ToInt32_id 1) by lia. change 1 with (Z.ones 1) at 1.
  rewrite Z.land_ones by lia. change (2 ^ 1) with 2.
  assert (Hm : JS.ToInt32 u mod 2 = u mod 2).
  { unfold JS.ToInt32. cbv zeta. destruct (Z.ltb_spec (u mod 2 ^ 32) (2 ^ 31)); zlia. }
  rewrite Hm. rewrite (ToInt32_id (u / 2)) by zlia.
  unfold u. destruct (Z.ltb_spec n 0).
  - replace ((- 2 * n - 1) mod 2) with 1 by zlia. change (Z.opp 1) with (-1).
    rewrite (ToInt32_id (-1)) by lia. rewrite Z.lxor_m1_r. unfold Z.lnot.
    rewrite ToInt32_id by zlia. zlia.
  - replace ((2 * n) mod 2) with 0 by zlia.
    change (- 0) with 0. rewrite (ToInt32_id 0) by lia. rewrite Z.lxor_0_r.
    rewrite ToInt32_id by zlia. zlia.
Qed.

Lemma calculateVarint32_ToInt32 u : calculateVarint32 (JS.ToInt32 u) = calculateVarint32 u.
Proof. unfold calculateVarint32. rewrite ToUint32_ToInt32. reflexivity. Qed.

Lemma calculateVarint32_ToUint32 u : calculateVarint32 (JS.ToUint32 u) = calculateVarint32 u.
Proof.
  unfold calculateVarint32. rewrite (ToUint32_id (JS.ToUint32 u)) by apply ToUint32_range.
  reflexivity.
Qed.

Lemma calculateVarint32_range u : 1 <= calculateVarint32 u <= 5.
Proof.
  unfold calculateVarint32. cbv zeta.
  repeat match goal with |- context [if ?c then _ else _] => destruct c end; lia.
Qed.

Section Varint.

Variable junk : nat -> Z.

(** What a call of [writeVarint32] that passes its checks does: the store
    grows by [tail] (empty when there is room), the loop writes the value as
    an unsigned 32-bit number into it, and a relative call moves [woffset]
    behind the bytes written. *)
Lemma writeVarint32_run this value off :
  let o := default (woffset this) off in
  let size := calculateVarint32 value in
  0 <= o <= capacity this -> capacity this < 2 ^ 32 ->
  noAssert this = true \/ Z.max (2 * capacity this) (o + size) < 2 ^ 31 ->
  exists tail,
    let b1 := buffer this ++ tail in
    let b2 := fst (writeVarint32_loop (JS.ToUint32 value) o b1) in
    o + size <= Buffer.length b1 /\
    (if o + size >? capacity this
     then Buffer.length b1 = Z.max (2 * capacity this) (o + size) else tail = []) /\
    writeVarint32 junk value off this =
    (match off with
     | None => set_woffset (o + size) (set_buffer b2 this)
     | Some _ => set_buffer b2 this
     end,
     Ok (match off with None => None | Some _ => Some size end)).
Proof.
  intros o size Ho Hcap Hn. unfold capacity in *.
  pose proof (calculateVarint32_range value) as Hsize. fold size in Hsize.
  pose proof (ToUint32_range value) as Hu.
  assert (Hgrow : exists tail,
             o + size <= Buffer.length (buffer this ++ tail) /\
             (if o + size >? Buffer.length (buffer this)
              then Buffer.length (buffer this ++ tail) =
                   Z.max (2 * Buffer.length (buffer this)) (o + size)
              else tail = []) /\
             grow junk (o + size) this = (set_buffer (buffer this ++ tail) this, Ok tt)).
  { destruct (Z.gtb_spec (o + size) (Buffer.length (buffer this))).
    - exists (drop (List.length (buffer this))
                (map junk (seq 0 (Z.to_nat (Z.max (2 * Buffer.length (buffer this))
                                              (o + size)))))).
      split; [|split; [|apply grow_grows; unfold capacity, Buffer.MAX_LENGTH;
                        [lia|exact Hn|lia]]].
      + rewrite grown_length; lia.
      + rewrite grown_length; lia.
    - exists []. rewrite app_nil_r, set_buffer_id.
      split; [lia|]. split; [reflexivity|]. apply grow_enough. unfold capacity. lia. }
  destruct Hgrow as (tail & G1 & G2 & G3). exists tail. cbv zeta.
  split; [exact G1|]. split; [exact G2|].
  assert (Hsnd : forall b, snd (writeVarint32_loop (JS.ToUint32 value) o b) = o + size).
  { intros. rewrite writeVarint32_loop_size by exact Hu.
    rewrite calculateVarint32_ToUint32. reflexivity. }
  unfold writeVarint32. monad.
  assert (Hchk : ((o <? 0) || (o + 0 >? Buffer.length (buffer this))) = false).
  { destruct (Z.ltb_spec o 0); destruct (Z.gtb_spec (o + 0) (Buffer.length (buffer this)));
      try lia; reflexivity. }
  fold o.
  destruct (noAssert this) eqn:Hna; unfold negb; cbv beta iota.
  - fold size. rewrite G3. cbn [buffer set_buffer].
    destruct (writeVarint32_loop (JS.ToUint32 value) o (buffer this ++ tail))
      as [b2 o2] eqn:E.
    specialize (Hsnd (buffer this ++ tail)). rewrite E in Hsnd. simpl in Hsnd. subst o2.
    destruct off; reflexivity.
  - rewrite (ToUint32_id o) by lia. rewrite Hchk. cbv beta iota.
    rewrite calculateVarint32_ToInt32. fold size. rewrite G3.
    rewrite ToUint32_ToInt32. cbn [buffer set_buffer].
    destruct (writeVarint32_loop (JS.ToUint32 value) o (buffer this ++ tail))
      as [b2 o2] eqn:E.
    specialize (Hsnd (buffer this ++ tail)). rewrite E in Hsnd. simpl in Hsnd. subst o2.
    destruct off; reflexivity.
Qed.

(** Reading a store in which the write loop has put [u] at the offset. *)
Lemma readVarint32_written this u off b :
  let o := default (roffset this) off in
  let size := calculateVarint32 u in
  0 <= u < 2 ^ 32 -> 0 <= o < 2 ^ 32 -> o + size <= Buffer.length b ->
  buffer this = fst (writeVarint32_loop u o b) ->
  readVarint32 off this =
  (match off with None => set_roffset (o + size) this | Some _ => this end,
   Ok (match off with
       | None => Number (JS.ToInt32 u)
       | Some _ => SNumber (JS.ToInt32 u) size
       end)).
Proof.
  intros o size Hu Ho Hlen Hb.
  pose proof (calculateVarint32_range u) as Hsize. fold size in Hsize.
  pose proof (writeVarint32_loop_size u o b Hu) as Hsnd. fold size in Hsnd.
  destruct (writeVarint32_loop_frame u o b) as (F1 & _ & _). rewrite <- Hb in F1.
  destruct (readVarint32_loop_written u o b (noAssert this) 0 u (JS.ToUint32 0) (buffer this))
    as (acc' & E1 & E2); try lia.
  - change (2 ^ (7 * 0)) with 1. rewrite Z.div_1_r. reflexivity.
  - change (2 ^ (7 * 0)) with 1. rewrite Z.mod_1_r. reflexivity.
  - intros i _. rewrite Hb. reflexivity.
  - rewrite Hsnd in E1. replace (0 + (o + size - o)) with size in E1 by lia.
    unfold readVarint32. monad. fold o.
    assert (Hchk : ((o <? 0) || (o + 1 >? Buffer.length (buffer this))) = false).
    { destruct (Z.ltb_spec o 0); destruct (Z.gtb_spec (o + 1) (Buffer.length (buffer this)));
        try lia; reflexivity. }
    assert (Hv : JS.ToInt32 acc' = JS.ToInt32 u).
    { apply ToInt32_inj_mod. rewrite E2. symmetry. apply ToUint32_id. exact Hu. }
    destruct (noAssert this) eqn:Hna; unfold negb; cbv beta iota.
    + rewrite E1. cbv beta iota. rewrite Hv. destruct off; reflexivity.
    + rewrite (ToUint32_id o) by lia. rewrite Hchk. cbv beta iota.
      rewrite E1. cbv beta iota. rewrite Hv. destruct off; reflexivity.
Qed.

(** C1. For every 32-bit signed integer [n], [writeVarint32ZigZag] followed
    by [readVarint32ZigZag] at the same offset gives [n] back, and the number
    of bytes written, which is the length that the absolute read reports, is
    [calculateVarint32 (zigZagEncode32 n)].  The first part is the absolute
    call at an offset [o] inside the store, the second the relative call with
    both cursors at [o].  The store is smaller than 2^30 bytes, so that
    [resize] keeps the capacity it is asked for. *)
Theorem varint32_zigzag_roundtrip (this : SmartBuffer) (n o : Z) :
  - 2 ^ 31 <= n < 2 ^ 31 -> 0 <= o <= capacity this -> capacity this < 2 ^ 30 ->
  let size := calculateVarint32 (zigZagEncode32 n) in
  (exists this',
      writeVarint32ZigZag junk n (Some o) this = (this', Ok (Some size)) /\
      readVarint32ZigZag (Some o) this' = (this', Ok (SNumber n size))) /\
  (woffset this = o -> roffset this = o ->
   exists this',
      writeVarint32ZigZag junk n None this = (this', Ok None) /\
      woffset this' = o + size /\
      readVarint32ZigZag None this' = (set_roffset (o + size) this', Ok (Number n))).
Proof.
  intros Hn Ho Hcap size.
  pose proof (ToUint32_range (JS.xor (JS.shl (JS.ToInt32 n) 1) (JS.sar (JS.ToInt32 n) 31)))
    as Hu.
  change (JS.ToUint32 _) with (zigZagEncode32 n) in Hu.
  pose proof (calculateVarint32_range (zigZagEncode32 n)) as Hsize. fold size in Hsize.
  pose proof (zigZag32_roundtrip n Hn) as Hzz.
  unfold writeVarint32ZigZag, readVarint32ZigZag. split.
  - destruct (writeVarint32_run this (zigZagEncode32 n) (Some o)) as (tail & W1 & _ & W3);
      simpl default; try lia.
    cbv zeta in W1, W3. simpl default in W1, W3. fold size in W1, W3.
    rewrite (ToUint32_id (zigZagEncode32 n)) in W3 by exact Hu.
    eexists. split; [exact W3|]. unfold bind.
    erewrite (readVarint32_written _ (zigZagEncode32 n) (Some o) (buffer this ++ tail));
      simpl default; try lia; [|reflexivity].
    fold size. rewrite Hzz. reflexivity.
  - intros Hw Hr.
    destruct (writeVarint32_run this (zigZagEncode32 n) None) as (tail & W1 & _ & W3);
      simpl default; try lia.
    cbv zeta in W1, W3. simpl default in W1, W3. rewrite Hw in W1, W3. fold size in W1, W3.
    rewrite (ToUint32_id (zigZagEncode32 n)) in W3 by exact Hu.
    eexists. split; [exact W3|]. split; [reflexivity|]. unfold bind.
    erewrite (readVarint32_written _ (zigZagEncode32 n) None (buffer this ++ tail));
      simpl default; simpl roffset; rewrite ?Hr; try lia; [|reflexivity].
    fold size. rewrite Hzz. reflexivity.
Qed.

End Varint.

(** ** Truncated varints *)

(** Scanning a store whose bytes from [offset] to the end all have bit 7
    set: the loop leaves the store by reading [undefined] one place behind
    its end and returns; the test [offset > this.buffer.length] is false in
    every round. *)
Lemma readVarint32_loop_unterminated (b : list Z) :
  forall (k : nat) offset c value,
    0 <= offset -> Buffer.length b - offset = Z.of_nat k ->
    (forall i, offset <= i < Buffer.length b ->
               exists g, Buffer.get b i = Some g /\ JS.and g 0x80 <> 0) ->
    exists v, readVarint32_loop false b offset c value =
              Ok (v, c + Z.of_nat k + 1, Buffer.length b + 1).
Proof.
  induction k as [|k IH]; intros offset c value Ho Hk Hbits.
  - rewrite readVarint32_loop_eq.
    destruct (Z.gtb_spec offset (Buffer.length b)); [lia|]. simpl andb. cbv iota zeta.
    rewrite Buffer_get_outside by lia. simpl JS.number.
    change (JS.and 0 128 =? 0) with true. cbv iota.
    replace (c + Z.of_nat 0 + 1) with (c + 1) by lia.
    replace (Buffer.length b + 1) with (offset + 1) by lia. eexists. reflexivity.
  - rewrite readVarint32_loop_eq.
    destruct (Z.gtb_spec offset (Buffer.length b)); [lia|]. simpl andb. cbv iota zeta.
    destruct (Hbits offset) as (g & Hg & Hbit); [lia|]. rewrite Hg. simpl JS.number.
    destruct (Z.eqb_spec (JS.and g 128) 0); [contradiction|].
    destruct (IH (offset + 1) (c + 1)
                (if c <? 5 then JS.or value (JS.shl (JS.and g 127) (7 * c)) else value))
      as (v & E); try lia.
    + intros i Hi. apply Hbits. lia.
    + exists v. rewrite E. f_equal. f_equal. f_equal. lia.
Qed.

(** With assertions enabled no call of [readVarint32] throws "Truncated". *)
Lemma readVarint32_loop_never_truncated (b : list Z) :
  forall (k : nat) offset c value,
    Buffer.length b - offset = Z.of_nat k ->
    readVarint32_loop false b offset c value <> Throw (Error "Truncated" true).
Proof.
  induction k as [|k IH]; intros offset c value Hk; rewrite readVarint32_loop_eq;
    (destruct (Z.gtb_spec offset (Buffer.length b)); [lia|]); simpl andb; cbv iota zeta.
  - rewrite Buffer_get_outside by lia. simpl JS.number.
    change (JS.and 0 128 =? 0) with true. cbv iota. discriminate.
  - destruct (JS.and (JS.number (Buffer.get b offset)) 128 =? 0); [discriminate|].
    apply IH. lia.
Qed.

Lemma readVarint32_never_truncated this off :
  noAssert this = false ->
  snd (readVarint32 off this) <> Throw (Error "Truncated" true).
Proof.
  intros Hna. unfold readVarint32. monad. rewrite Hna. unfold negb. cbv iota.
  set (o := JS.ToUint32 (default (roffset this) off)).
  destruct ((o <? 0) || (o + 1 >? Buffer.length (buffer this))) eqn:E; cbv beta iota;
    [simpl; discriminate|].
  apply orb_false_iff in E as [_ E]. rewrite Z.gtb_ltb in E. apply Z.ltb_ge in E.
  pose proof (readVarint32_loop_never_truncated (buffer this)
                (Z.to_nat (Buffer.length (buffer this) - o)) o 0 (JS.ToUint32 0)) as Hl.
  destruct (readVarint32_loop false (buffer this) o 0 (JS.ToUint32 0)) as [[[v c] o']|e].
  - cbv beta iota. destruct (bool_decide (off = None)); simpl; discriminate.
  - simpl. intros H. apply Hl; [lia|]. injection H as ->. reflexivity.
Qed.

(** C6. With assertions enabled, [readVarint32] at an offset from which
    every byte up to the end of the store has bit 7 set does not raise the
    "Truncated" error: the scan reads [undefined] behind the store, takes it
    for a byte without continuation bit, and returns a value with a length
    that is one more than the bytes the store had left. *)
Theorem readVarint32_unterminated_returns (this : SmartBuffer) (o : Z) :
  noAssert this = false -> 0 <= o < capacity this -> capacity this < 2 ^ 32 ->
  (forall i, o <= i < capacity this ->
             exists g, Buffer.get (buffer this) i = Some g /\ JS.and g 0x80 <> 0) ->
  exists v, readVarint32 (Some o) this = (this, Ok (SNumber v (capacity this - o + 1))).
Proof.
  intros Hna Ho Hcap Hbits. unfold capacity in *.
  destruct (readVarint32_loop_unterminated (buffer this)
              (Z.to_nat (Buffer.length (buffer this) - o)) o 0 (JS.ToUint32 0))
    as (v & E); try lia; [exact Hbits|].
  exists (JS.ToInt32 v). unfold readVarint32. monad. rewrite Hna. unfold negb. cbv iota.
  change (default (roffset this) (Some o)) with o. rewrite (ToUint32_id o) by lia.
  destruct (Z.ltb_spec o 0); [lia|].
  destruct (Z.gtb_spec (o + 1) (Buffer.length (buffer this))); [lia|].
  cbn [orb]. cbv beta iota.
  replace (0 + Z.of_nat (Z.to_nat (Buffer.length (buffer this) - o)) + 1)
    with (Buffer.length (buffer this) - o + 1) in E by lia.
  rewrite E. reflexivity.
Qed.

Lemma readVarint32_unterminated_returns_witness :
  exists v, readVarint32 (Some 0) (mkSmartBuffer [0x80] 0 0 false) =
            (mkSmartBuffer [0x80] 0 0 false, Ok (SNumber v (1 - 0 + 1))).
Proof.
  apply (readVarint32_unterminated_returns (mkSmartBuffer [0x80] 0 0 false) 0).
  - reflexivity.
  - vm_compute. split; [discriminate|reflexivity].
  - reflexivity.
  - intros i Hi. assert (i = 0) as -> by (unfold capacity, Buffer.length in Hi; simpl in Hi; lia).
    exists 0x80. split; [reflexivity|vm_compute; discriminate].
Defined.

Lemma varint32_zigzag_roundtrip_witness :
  let this := mkSmartBuffer [0; 0] 1 1 false in
  let size := calculateVarint32 (zigZagEncode32 (-300)) in
  (exists this',
      writeVarint32ZigZag (fun _ => 0) (-300) (Some 1) this = (this', Ok (Some size)) /\
      readVarint32ZigZag (Some 1) this' = (this', Ok (SNumber (-300) size))) /\
  (exists this',
      writeVarint32ZigZag (fun _ => 0) (-300) None this = (this', Ok None) /\
      woffset this' = 1 + size /\
      readVarint32ZigZag None this' = (set_roffset (1 + size) this', Ok (Number (-300)))).
Proof.
  intros this size.
  destruct (varint32_zigzag_roundtrip (fun _ => 0) this (-300) 1) as (A & R).
  - lia.
  - unfold capacity, Buffer.length. simpl. lia.
  - unfold capacity, Buffer.length. simpl. lia.
  - split; [exact A|]. apply R; reflexivity.
Defined.

(** ** Checks and cursors *)

(** C4. A relative fixed-width read whose range check fails has moved the
    read cursor before the error is thrown: with assertions enabled and fewer
    than [bytes] bytes left behind [roffset], [_checkRead] throws its range
    error from a state in which [roffset] is already advanced by [bytes], and
    so does [readInt8] called without offset. *)
Theorem relative_read_failure_moves_roffset (this : SmartBuffer) (bytes : Z) :
  noAssert this = false -> roffset this + bytes > capacity this ->
  _checkRead None bytes this =
  (set_roffset (roffset this + bytes) this, Throw (RangeError "Illegal offset")) /\
  (bytes = 1 ->
   readInt8 None this =
   (set_roffset (roffset this + 1) this, Throw (RangeError "Illegal offset"))).
Proof.
  intros Hna Hlen. unfold capacity in Hlen.
  assert (E : _checkRead None bytes this =
              (set_roffset (roffset this + bytes) this,
               Throw (RangeError "Illegal offset"))).
  { unfold _checkRead. monad. cbn [noAssert set_roffset buffer]. rewrite Hna.
    cbn [negb]. cbv beta iota.
    destruct (Z.gtb_spec (roffset this + bytes) (Buffer.length (buffer this))); [|lia].
    rewrite orb_true_r. reflexivity. }
  split; [exact E|]. intros ->. unfold readInt8, bind. rewrite E. reflexivity.
Qed.

Lemma relative_read_failure_moves_roffset_witness :
  _checkRead None 1 (mkSmartBuffer [7] 1 1 false) =
  (mkSmartBuffer [7] 1 2 false, Throw (RangeError "Illegal offset")) /\
  readInt8 None (mkSmartBuffer [7] 1 1 false) =
  (mkSmartBuffer [7] 1 2 false, Throw (RangeError "Illegal offset")).
Proof.
  destruct (relative_read_failure_moves_roffset (mkSmartBuffer [7] 1 1 false) 1) as (A & R).
  - reflexivity.
  - unfold capacity, Buffer.length. simpl. lia.
  - split; [exact A|]. apply R. reflexivity.
Defined.

(** The same order of steps in [_checkWrite]: a relative write from a write
    cursor behind the store moves the cursor and then throws. *)
Lemma relative_write_failure_moves_woffset junk this value bytes :
  noAssert this = false -> capacity this < woffset this < 2 ^ 32 ->
  _checkWrite junk value None bytes this =
  (set_woffset (woffset this + bytes) this, Throw (RangeError "Illegal offset")).
Proof.
  intros Hna Hw. unfold capacity in Hw. unfold _checkWrite. monad.
  cbn [noAssert set_woffset buffer]. rewrite Hna. cbn [negb]. cbv beta iota.
  rewrite ToUint32_id by (pose proof (Buffer_length_nonneg (buffer this)); lia).
  destruct (Z.gtb_spec (woffset this + 0) (Buffer.length (buffer this))); [|lia].
  rewrite orb_true_r. reflexivity.
Qed.

(** The methods that test their arguments inline throw from the state they
    were called in; [readVarint32] is one of them. *)
Lemma readVarint32_throws_unchanged this off e :
  snd (readVarint32 off this) = Throw e -> fst (readVarint32 off this) = this.
Proof.
  unfold readVarint32. monad.
  destruct (negb (noAssert this)).
  - destruct ((JS.ToUint32 (default (roffset this) off) <? 0)
              || (JS.ToUint32 (default (roffset this) off) + 1
                  >? Buffer.length (buffer this))); cbv beta iota; [reflexivity|].
    destruct (readVarint32_loop _ _ _ _ _) as [[[v c] o']|e']; cbv beta iota;
      [|reflexivity].
    destruct (bool_decide (off = None)); simpl; [discriminate|reflexivity].
  - destruct (readVarint32_loop _ _ _ _ _) as [[[v c] o']|e']; cbv beta iota;
      [|reflexivity].
    destruct (bool_decide (off = None)); simpl; [discriminate|reflexivity].
Qed.

(** ** C-strings *)

Lemma readCString_loop_unterminated (b : list Z) :
  forall (k : nat) offset,
    Buffer.length b - offset <= Z.of_nat k ->
    (forall i, offset <= i < Buffer.length b -> Buffer.get b i <> Some 0) ->
    readCString_loop b offset = Throw (RangeError "Index out of range").
Proof.
  induction k as [|k IH]; intros offset Hk Hnz; rewrite readCString_loop_eq.
  - destruct (Z.geb_spec offset (Buffer.length b)); [reflexivity|lia].
  - destruct (Z.geb_spec offset (Buffer.length b)); [reflexivity|].
    rewrite bool_decide_eq_false_2 by (apply Hnz; lia).
    apply IH; [lia|]. intros i Hi. apply Hnz. lia.
Qed.

Lemma readCString_loop_terminated (b : list Z) z :
  z < Buffer.length b -> Buffer.get b z = Some 0 ->
  forall (k : nat) offset,
    z - offset = Z.of_nat k ->
    (forall i, offset <= i < z -> Buffer.get b i <> Some 0) ->
    readCString_loop b offset = Ok (z + 1).
Proof.
  intros Hz Hzero. induction k as [|k IH]; intros offset Hk Hnz;
    rewrite readCString_loop_eq;
    (destruct (Z.geb_spec offset (Buffer.length b)); [lia|]).
  - replace offset with z by lia. rewrite bool_decide_eq_true_2 by exact Hzero.
    reflexivity.
  - rewrite bool_decide_eq_false_2 by (apply Hnz; lia).
    apply IH; [lia|]. intros i Hi. apply Hnz. lia.
Qed.

Section CString.

Variable junk : nat -> Z.
Variable utf8 : list Z -> list Z.
Variable utf8_decode : list Z -> list Z.

(** C9. With assertions enabled [writeCString] throws for a string that
    holds a NUL character anywhere, and leaves the buffer as it was.
    [readCString] scans from the read offset to the first zero byte, returns
    the string before it and consumes the zero byte with it; when no zero
    byte follows the offset in the store it throws a range error. *)
Theorem cstring_codec_errors (this : SmartBuffer) (str : list Z) (off : optional) :
  let o := default (roffset this) off in
  0 <= o < 2 ^ 32 ->
  (noAssert this = false -> In 0 str ->
   writeCString junk utf8 str off this =
   (this, Throw (TypeError "Illegal str: Contains NULL-characters"))) /\
  ((forall i, o <= i < capacity this -> Buffer.get (buffer this) i <> Some 0) ->
   exists message, readCString utf8_decode off this = (this, Throw (RangeError message))) /\
  (forall z, o <= z < capacity this -> Buffer.get (buffer this) z = Some 0 ->
             (forall i, o <= i < z -> Buffer.get (buffer this) i <> Some 0) ->
             let s := utf8_decode (Buffer.slice (buffer this) o z) in
             readCString utf8_decode off this =
             (match off with None => set_roffset (z + 1) this | Some _ => this end,
              Ok (match off with
                  | None => Str s
                  | Some _ => SString s (z + 1 - o)
                  end))).
Proof.
  intros o Ho. unfold capacity. split; [|split].
  - intros Hna Hnul. unfold writeCString. monad. rewrite Hna. cbn [negb]. cbv iota.
    assert (E : existsb (fun ch => ch =? 0) str = true).
    { apply existsb_exists. exists 0. split; [exact Hnul|reflexivity]. }
    rewrite E. reflexivity.
  - intros Hnz. unfold readCString. monad. fold o.
    assert (Hloop : readCString_loop (buffer this) o =
                    Throw (RangeError "Index out of range")).
    { apply (readCString_loop_unterminated (buffer this)
               (Z.to_nat (Buffer.length (buffer this) - o))); [lia|exact Hnz]. }
    destruct (noAssert this); cbn [negb]; cbv beta iota.
    + rewrite Hloop. eexists. reflexivity.
    + rewrite (ToUint32_id o) by exact Ho.
      destruct ((o <? 0) || (o + 1 >? Buffer.length (buffer this))); cbv beta iota.
      * eexists. reflexivity.
      * rewrite Hloop. eexists. reflexivity.
  - intros z Hz Hzero Hnz. set (s := utf8_decode (Buffer.slice (buffer this) o z)).
    unfold readCString. monad. fold o.
    assert (Hloop : readCString_loop (buffer this) o = Ok (z + 1)).
    { apply (readCString_loop_terminated (buffer this) z ltac:(lia) Hzero
               (Z.to_nat (z - o))); [lia|exact Hnz]. }
    assert (Hs : toStringUtf8 utf8_decode (buffer this) o (z + 1 - 1) = s).
    { unfold toStringUtf8, s. rewrite Z.max_r by lia.
      replace (z + 1 - 1) with z by lia. reflexivity. }
    destruct (noAssert this); cbn [negb]; cbv beta iota.
    + rewrite Hloop. cbv beta iota. rewrite Hs. destruct off; reflexivity.
    + rewrite (ToUint32_id o) by exact Ho.
      destruct (Z.ltb_spec o 0); [lia|].
      destruct (Z.gtb_spec (o + 1) (Buffer.length (buffer this))); [lia|].
      cbn [orb]. cbv beta iota. rewrite Hloop. cbv beta iota. rewrite Hs.
      destruct off; reflexivity.
Qed.

End CString.

Lemma cstring_codec_errors_witness :
  let this := mkSmartBuffer [0x61; 0x62; 0; 0x63] 4 0 false in
  let str := JS.str "a" ++ [0] ++ JS.str "b" in
  writeCString (fun _ => 0) (fun s => s) str (Some 3) this =
  (this, Throw (TypeError "Illegal str: Contains NULL-characters")) /\
  exists message,
    readCString (fun s => s) (Some 3) this = (this, Throw (RangeError message)).
Proof.
  intros this str.
  destruct (cstring_codec_errors (fun _ => 0) (fun s => s) (fun s => s) this str (Some 3))
    as (H1 & H2 & _).
  - simpl. lia.
  - split.
    + apply H1; [reflexivity|]. right. left. reflexivity.
    + apply H2. intros i Hi.
      assert (i = 3) as -> by (unfold capacity, Buffer.length in Hi; simpl in Hi; lia).
      vm_compute. discriminate.
Defined.

(** ** Compaction *)

Lemma slice_length (b : list Z) s e :
  0 <= s <= e -> e <= Buffer.length b -> Buffer.length (Buffer.slice b s e) = e - s.
Proof.
  intros H1 H2. unfold Buffer.slice, Buffer.length in *.
  rewrite length_take, length_drop. lia.
Qed.

Lemma copy_range (b target : list Z) s e :
  0 <= s <= e -> e <= Buffer.length b -> Buffer.length target = e - s ->
  Buffer.copy b target 0 s e = Ok (Buffer.slice b s e).
Proof.
  intros H1 H2 H3. rewrite copy_ok by lia. f_equal. unfold Buffer.blit.
  pose proof (slice_length b s e H1 H2) as Hs.
  rewrite Z.sub_0_r. change (Z.to_nat 0) with 0%nat. rewrite take_0. cbn [app Nat.add].
  rewrite (take_ge (Buffer.slice b s e)) by (unfold Buffer.length in *; lia).
  rewrite drop_ge by (unfold Buffer.length in *; lia). apply app_nil_r.
Qed.

Section Compact.

Variable junk : nat -> Z.

(** C8, amended.  For a valid range [0 <= begin <= end <= capacity]:
    [compact(0, capacity)] is a no-op that leaves the store and both cursors
    as they are; for every other range the buffer becomes backed by a store
    of exactly [end - begin] bytes, the former bytes of the range, with
    [roffset = 0]; [woffset] is 0 when the range is empty and is decreased by
    [begin] when the range is not empty and [begin] is the read cursor, as it
    is when [begin] is omitted. *)
Theorem compact_range (this : SmartBuffer) (begin end_ : optional) :
  let b := default (roffset this) begin in
  let e := default (capacity this) end_ in
  0 <= b <= e -> e <= capacity this -> capacity this < 2 ^ 32 ->
  exists this',
    compact junk begin end_ this = (this', Ok tt) /\
    noAssert this' = noAssert this /\
    (b = 0 /\ e = capacity this -> this' = this) /\
    (~ (b = 0 /\ e = capacity this) ->
     buffer this' = Buffer.slice (buffer this) b e /\
     capacity this' = e - b /\
     roffset this' = 0 /\
     (b = e -> woffset this' = 0) /\
     (b < e -> b = roffset this -> woffset this' = woffset this - b)).
Proof.
  intros b e Hbe He Hcap. unfold capacity in *.
  assert (Hchk : compact junk begin end_ this =
                 (if (b =? 0) && (e =? Buffer.length (buffer this)) then ret tt
                  else if e - b =? 0 then
                    modify (set_buffer Buffer.EMPTY_BUFFER);;
                    modify (set_roffset 0);;
                    modify (set_woffset 0)
                  else
                    let* buffer' := lift (Buffer.allocUnsafe junk (e - b)) in
                    let* buffer' := lift (Buffer.copy (buffer this) buffer' 0 b e) in
                    modify (set_buffer buffer');;
                    modify (fun this => set_woffset (woffset this - roffset this) this);;
                    modify (set_roffset 0)) this).
  { unfold compact. unfold bind at 1. unfold get at 1. cbv beta iota. fold b.
    change (default (Buffer.length (buffer this)) end_) with e.
    unfold bind at 1. destruct (noAssert this); cbn [negb]; cbv iota.
    - reflexivity.
    - rewrite (ToUint32_id b), (ToUint32_id e) by lia.
      destruct (Z.ltb_spec b 0); [lia|]. destruct (Z.gtb_spec b e); [lia|].
      destruct (Z.gtb_spec e (Buffer.length (buffer this))); [lia|]. reflexivity. }
  rewrite Hchk. clear Hchk.
  destruct (Z.eqb_spec b 0) as [Hb0|Hb0];
    [destruct (Z.eqb_spec e (Buffer.length (buffer this))) as [He0|He0]|]; cbn [andb].
  - exists this. split; [reflexivity|]. split; [reflexivity|].
    split; [reflexivity|]. intros H. exfalso. apply H. split; assumption.
  - destruct (Z.eqb_spec (e - b) 0) as [Hlen|Hlen].
    + eexists. split; [reflexivity|]. split; [reflexivity|].
      split; [intros [_ ?]; contradiction|]. intros _. cbn.
      unfold Buffer.slice. replace (Z.to_nat (e - b)) with 0%nat by lia.
      rewrite take_0. change (Buffer.length Buffer.EMPTY_BUFFER) with 0.
      repeat split; try reflexivity; try lia.
    + monad. rewrite allocUnsafe_ok by (unfold Buffer.MAX_LENGTH; lia). cbv beta iota.
      rewrite copy_range;
        [|lia|lia|unfold Buffer.length; rewrite length_map, length_seq; lia].
      eexists. split; [reflexivity|]. split; [reflexivity|].
      split; [intros [_ ?]; contradiction|]. intros _. cbn.
      split; [reflexivity|]. split; [apply slice_length; lia|].
      split; [reflexivity|]. split; [lia|]. intros _ ->. reflexivity.
  - destruct (Z.eqb_spec (e - b) 0) as [Hlen|Hlen].
    + eexists. split; [reflexivity|]. split; [reflexivity|].
      split; [intros [? _]; contradiction|]. intros _. cbn.
      unfold Buffer.slice. replace (Z.to_nat (e - b)) with 0%nat by lia.
      rewrite take_0. change (Buffer.length Buffer.EMPTY_BUFFER) with 0.
      repeat split; try reflexivity; try lia.
    + monad. rewrite allocUnsafe_ok by (unfold Buffer.MAX_LENGTH; lia). cbv beta iota.
      rewrite copy_range;
        [|lia|lia|unfold Buffer.length; rewrite length_map, length_seq; lia].
      eexists. split; [reflexivity|]. split; [reflexivity|].
      split; [intros [? _]; contradiction|]. intros _. cbn.
      split; [reflexivity|]. split; [apply slice_length; lia|].
      split; [reflexivity|]. split; [lia|]. intros _ ->. reflexivity.
Qed.

End Compact.

Lemma compact_range_witness :
  exists this',
    compact (fun _ => 0) None None (mkSmartBuffer [1; 2; 3] 3 1 false) = (this', Ok tt) /\
    buffer this' = Buffer.slice [1; 2; 3] 1 3 /\
    capacity this' = 3 - 1 /\
    roffset this' = 0 /\
    woffset this' = 3 - 1.
Proof.
  destruct (compact_range (fun _ => 0) (mkSmartBuffer [1; 2; 3] 3 1 false) None None)
    as (this' & C & _ & _ & R).
  - simpl. unfold capacity, Buffer.length. simpl. lia.
  - simpl. unfold capacity, Buffer.length. simpl. lia.
  - unfold capacity, Buffer.length. simpl. lia.
  - exists this'. split; [exact C|].
    destruct R as (R1 & R2 & R3 & _ & R5).
    + intros [H _]. simpl in H. discriminate H.
    + split; [exact R1|]. split; [exact R2|]. split; [exact R3|].
      apply R5; [unfold capacity, Buffer.length; simpl; lia|reflexivity].
Defined.

(** The claim C8 as it was stated fails where [begin] and [end] are passed
    explicitly: [compact(0, capacity)] does not reset [roffset], and for a
    [begin] that is not the read cursor [woffset] is not decreased by
    [begin]. *)
Lemma compact_explicit_range_counterexample :
  (exists this',
      compact (fun _ => 0) (Some 0) (Some 2) (mkSmartBuffer [1; 2] 2 1 false)
      = (this', Ok tt) /\ roffset this' <> 0) /\
  (exists this',
      compact (fun _ => 0) (Some 1) (Some 3) (mkSmartBuffer [1; 2; 3] 3 0 false)
      = (this', Ok tt) /\ woffset this' <> 3 - 1).
Proof.
  split; eexists; (split; [vm_compute; reflexivity|]); simpl; lia.
Qed.

(** ** The debug text *)

(** C7, amended.  With assertions enabled [fromDebug] rejects
    ["<61 62 00>"] with a range error, since the text marks no end of the
    store; with [noAssert] it yields a store of 3 bytes with [roffset = 0] and
    [woffset = 3].  The text that decodes to a store of 4 bytes with these
    cursors names the fourth byte and the end: ["<61 62 00>00*"]. *)
Theorem fromDebug_scenario (junk : nat -> Z) :
  Debug.fromDebug junk (JS.str "<61 62 00>") false =
  Throw (RangeError "Missing roffset or woffset or limit") /\
  Debug.fromDebug junk (JS.str "<61 62 00>") true =
  Ok (mkSmartBuffer [0x61; 0x62; 0x00] 3 0 true) /\
  Debug.fromDebug junk (JS.str "<61 62 00>00*") false =
  Ok (mkSmartBuffer [0x61; 0x62; 0x00; 0x00] 3 0 false).
Proof. repeat split; reflexivity. Qed.

(** The claim C7 as it was stated fails: in neither mode does the call
    yield a store of 4 bytes. *)
Lemma fromDebug_scenario_counterexample :
  ~ (exists this,
        Debug.fromDebug (fun _ => 0) (JS.str "<61 62 00>") false = Ok this /\
        capacity this = 4 /\ roffset this = 0 /\ woffset this = 3) /\
  ~ (exists this,
        Debug.fromDebug (fun _ => 0) (JS.str "<61 62 00>") true = Ok this /\
        capacity this = 4 /\ roffset this = 0 /\ woffset this = 3).
Proof.
  split; intros (this & H & Hcap & _); vm_compute in H.
  - discriminate.
  - injection H as <-. vm_compute in Hcap. discriminate.
Qed.

(** *** The text of a buffer and its parse *)

Lemma hexByte_parse b :
  0 <= b < 256 ->
  exists c c',
    hexByte b = [c; c'] /\
    (forall noAssert st, Debug.fromDebug_symbol noAssert c st = None) /\
    Debug.parseInt16 [c; c'] = Some b.
Proof.
  intros Hb.
  pose proof (byte_cases
    (fun b => match hexByte b with
              | [c; c'] =>
                  negb (existsb (Z.eqb c) [124; 93; 94; 60; 42; 62; 32])
                  && match Debug.parseInt16 [c; c'] with Some v => v =? b | None => false end
              | _ => false
              end) ltac:(vm_compute; reflexivity) b Hb) as H.
  cbv beta in H.
  destruct (hexByte b) as [|c [|c' [|]]]; try discriminate H.
  apply andb_true_iff in H as [H1 H2].
  exists c, c'. split; [reflexivity|]. split.
  - intros noAssert st. apply negb_true_iff in H1. cbn [existsb] in H1.
    repeat (apply orb_false_elim in H1 as [? H1]).
    unfold Debug.fromDebug_symbol.
    change (Debug.ch "|") with 124. change (Debug.ch "]") with 93.
    change (Debug.ch "^") with 94. change (Debug.ch "<") with 60.
    change (Debug.ch "*") with 42. change (Debug.ch ">") with 62.
    change (Debug.ch " ") with 32.
    repeat match goal with E : (c =? _) = false |- _ => rewrite E; clear E end.
    reflexivity.
  - destruct (Debug.parseInt16 [c; c']); [|discriminate]. apply Z.eqb_eq in H2. congruence.
Qed.

Section DebugText.

Variable this : SmartBuffer.

Lemma toDebug_loop_hex n : forall i hex,
  0 <= i ->
  Debug.toDebug_loop this false n i hex [] [] = (hex ++ bytesText this n i, [], []).
Proof.
  induction n as [|n IH]; intros i hex Hi.
  - simpl. rewrite app_nil_r. reflexivity.
  - cbn [Debug.toDebug_loop bytesText]. rewrite andb_false_r. cbn [andb].
    destruct (Z.eqb_spec i (-1)); [lia|]. cbn [negb].
    rewrite IH by lia. unfold hexByte, capacity.
    destruct (_ <? 16); rewrite <- ?app_assoc; reflexivity.
Qed.

Lemma toDebug_text :
  Debug.toDebug this false =
  Debug.marker this false 0 (capacity this) ++ bytesText this (Z.to_nat (capacity this)) 0.
Proof.
  unfold Debug.toDebug. pose proof (Buffer_length_nonneg (buffer this)) as Hk.
  replace (Z.to_nat (Buffer.length (buffer this) - -1))
    with (S (Z.to_nat (capacity this))) by (unfold capacity; lia).
  cbn [Debug.toDebug_loop]. change (-1 =? -1) with true. cbn [negb andb].
  change (-1 + 1) with 0. rewrite toDebug_loop_hex by lia. reflexivity.
Qed.

Hypothesis bytes : Forall (fun b => 0 <= b < 256) (buffer this).
Hypothesis roffset_range : 0 <= roffset this <= capacity this.
Hypothesis woffset_range : 0 <= woffset this <= capacity this.

Lemma byte_at i :
  0 <= i < capacity this ->
  exists b, Buffer.get (buffer this) i = Some b /\ 0 <= b < 256.
Proof.
  intros Hi. rewrite Buffer_get_lookup by exact Hi.
  destruct (buffer this !! Z.to_nat i) as [b|] eqn:E.
  - exists b. split; [reflexivity|].
    exact (Forall_lookup_1 _ _ _ _ bytes E).
  - apply lookup_ge_None in E. unfold capacity, Buffer.length in Hi. lia.
Qed.

Lemma marker_step i st rest :
  0 <= i <= capacity this -> parsed_upto this i st ->
  ~ (i = capacity this /\ roffset this = capacity this /\ woffset this <> capacity this) ->
  exists st',
    Debug.fromDebug_loop false (Debug.marker this false i (capacity this) ++ rest) st
    = Debug.fromDebug_loop false rest st' /\ parsed_marker this i st'.
Proof.
  intros Hi (Hj & Hrs & Hhl & Hhr & Hhw & Hr & Hw & Hlen & Hget) Hbug.
  destruct st as [bb j rs hw hr hl]. cbn in Hj, Hrs, Hhl, Hhr, Hhw, Hr, Hw, Hlen, Hget.
  subst j rs hl hr hw. unfold Debug.marker. fold (capacity this).
  destruct (Z.eqb_spec i (roffset this)) as [Eir|Eir];
    destruct (Z.eqb_spec (roffset this) (woffset this)) as [Erw|Erw];
    destruct (Z.eqb_spec (woffset this) (capacity this)) as [Ewk|Ewk];
    destruct (Z.eqb_spec (roffset this) (capacity this)) as [Erk|Erk];
    destruct (Z.eqb_spec i (woffset this)) as [Eiw|Eiw];
    destruct (Z.eqb_spec i (capacity this)) as [Eik|Eik];
    destruct (Z.eqb_spec i 0) as [Ei0|Ei0];
    try (exfalso; lia); cbn [andb orb negb app].
  all: destruct (Z.ltb_spec (roffset this) i); destruct (Z.ltb_spec (woffset this) i);
    destruct (Z.ltb_spec 0 i); try (exfalso; lia).
  all: cbn [Debug.fromDebug_loop]; unfold Debug.fromDebug_symbol, Debug.symbol.
  all: cbn -[Z.leb Z.ltb Z.eqb Debug.fromDebug_loop Buffer.get Buffer.length].
  all: eexists; (split; [reflexivity|]).
  all: unfold parsed_marker;
    cbn -[Z.leb Z.ltb Z.eqb Z.le Z.lt Buffer.get Buffer.length capacity].
  all: destruct (Z.leb_spec (capacity this) i); destruct (Z.leb_spec (roffset this) i);
    destruct (Z.leb_spec (woffset this) i); try (exfalso; lia).
  all: repeat split; try reflexivity; try assumption; try (intros; lia);
    try (intros; apply Hr; lia); try (intros; apply Hw; lia).
Qed.

Lemma marker_bracket st :
  parsed_upto this (capacity this) st ->
  roffset this = capacity this -> woffset this <> capacity this ->
  Debug.fromDebug_loop false (Debug.marker this false (capacity this) (capacity this)) st
  = Throw (RangeError "Invalid symbol").
Proof.
  intros (Hj & Hrs & _) Hr Hw. unfold Debug.marker. fold (capacity this).
  destruct (Z.eqb_spec (capacity this) (roffset this)) as [_|E]; [|lia].
  destruct (Z.eqb_spec (roffset this) (woffset this)) as [E|_]; [lia|].
  destruct (Z.eqb_spec (roffset this) (capacity this)) as [_|E]; [|lia].
  cbn [andb Debug.fromDebug_loop].
  change (Debug.fromDebug_symbol false (Debug.ch "[") st)
    with (@None (result Debug.locals)).
  unfold Debug.fromDebug_byte. rewrite Hrs.
  destruct (Z.ltb_spec 0 (capacity this)); [reflexivity|lia].
Qed.

Lemma byte_step i st rest :
  0 <= i < capacity this -> parsed_marker this i st ->
  exists st',
    Debug.fromDebug_loop false (hexByte (JS.number (Buffer.get (buffer this) i)) ++ rest) st
    = Debug.fromDebug_loop false rest st' /\ parsed_upto this (i + 1) st'.
Proof.
  intros Hi (Hj & Hrs & Hhl & Hhr & Hhw & Hr & Hw & Hlen & Hget).
  destruct (byte_at i Hi) as (b & Hb & Hrange). rewrite Hb.
  change (JS.number (Some b)) with b.
  destruct (hexByte_parse b Hrange) as (c & c' & -> & Hsym & Hparse).
  cbn [app Debug.fromDebug_loop]. rewrite Hsym. unfold Debug.fromDebug_byte.
  rewrite Hrs, Hparse. change (JS.number (Some b)) with b. cbn [negb andb].
  destruct (Z.ltb_spec b 0); [lia|]. destruct (Z.gtb_spec b 255); [lia|]. cbn [orb].
  eexists. split; [reflexivity|].
  unfold parsed_upto. cbn [Debug.j Debug.rs Debug.hl Debug.hr Debug.hw Debug.bb
                           roffset woffset buffer set_buffer].
  rewrite Hj, Hhl, Hhr, Hhw, Buffer_length_set.
  destruct (Z.ltb_spec 0 (i + 1)); [|lia].
  destruct (Z.leb_spec (capacity this) i); [lia|].
  repeat split; try reflexivity.
  - destruct (Z.leb_spec (roffset this) i); destruct (Z.ltb_spec (roffset this) (i + 1));
      try lia; reflexivity.
  - destruct (Z.leb_spec (woffset this) i); destruct (Z.ltb_spec (woffset this) (i + 1));
      try lia; reflexivity.
  - intros. apply Hr. lia.
  - intros. apply Hw. lia.
  - exact Hlen.
  - intros m Hm. destruct (Z.eq_dec m i) as [->|Hne].
    + rewrite Buffer_get_set_eq by lia. rewrite Hb. f_equal. apply Z.mod_small. lia.
    + rewrite Buffer_get_set_ne by lia. apply Hget. lia.
Qed.

Lemma parse_text n : forall i st,
  i + Z.of_nat n = capacity this -> 0 <= i -> parsed_upto this i st ->
  let text := Debug.marker this false i (capacity this) ++ bytesText this n i in
  (roffset this = capacity this /\ woffset this <> capacity this ->
   Debug.fromDebug_loop false text st = Throw (RangeError "Invalid symbol")) /\
  (~ (roffset this = capacity this /\ woffset this <> capacity this) ->
   exists st',
     Debug.fromDebug_loop false text st = Ok st' /\ parsed_marker this (capacity this) st').
Proof.
  induction n as [|n IH]; intros i st Hn Hi Hst text; unfold text; clear text.
  - assert (i = capacity this) as -> by lia. cbn [bytesText]. rewrite app_nil_r. split.
    + intros [Hr Hw]. apply marker_bracket; assumption.
    + intros Hok.
      destruct (marker_step (capacity this) st []) as (st' & E & Hst'); [lia|exact Hst|tauto|].
      rewrite app_nil_r in E. exists st'. split; [exact E|exact Hst'].
  - cbn [bytesText].
    destruct (marker_step i st
                (hexByte (JS.number (Buffer.get (buffer this) i))
                   ++ Debug.marker this false (i + 1) (capacity this)
                   ++ bytesText this n (i + 1))) as (st1 & E1 & Hst1);
      [lia|exact Hst|lia|].
    destruct (byte_step i st1
                (Debug.marker this false (i + 1) (capacity this)
                   ++ bytesText this n (i + 1))) as (st2 & E2 & Hst2);
      [lia|exact Hst1|].
    rewrite E1, E2. apply IH; [lia|lia|exact Hst2].
Qed.

Lemma marker_length i :
  0 <= i <= capacity this ->
  List.length (Debug.marker this false i (capacity this)) =
  if (i =? 0) && negb (capacity this =? 0)
     && negb (roffset this =? 0) && negb (woffset this =? 0)
  then 0%nat else 1%nat.
Proof.
  intros Hi. unfold Debug.marker. fold (capacity this).
  destruct (Z.eqb_spec i (roffset this)); destruct (Z.eqb_spec (roffset this) (woffset this));
    destruct (Z.eqb_spec (woffset this) (capacity this));
    destruct (Z.eqb_spec (roffset this) (capacity this));
    destruct (Z.eqb_spec i (woffset this)); destruct (Z.eqb_spec i (capacity this));
    destruct (Z.eqb_spec i 0); destruct (Z.eqb_spec (capacity this) 0);
    destruct (Z.eqb_spec (roffset this) 0); destruct (Z.eqb_spec (woffset this) 0);
    try (exfalso; lia); reflexivity.
Qed.

Lemma bytesText_length n : forall i,
  0 <= i -> i + Z.of_nat n = capacity this ->
  List.length (bytesText this n i) = (3 * n)%nat.
Proof.
  induction n as [|n IH]; intros i Hi Hn; [reflexivity|].
  cbn [bytesText]. destruct (byte_at i ltac:(lia)) as (b & -> & Hb).
  change (JS.number (Some b)) with b.
  destruct (hexByte_parse b Hb) as (c & c' & -> & _).
  rewrite !length_app, IH by lia. rewrite marker_length by lia.
  destruct (Z.eqb_spec (i + 1) 0); [lia|]. cbn [andb List.length]. lia.
Qed.

Lemma toDebug_length :
  (Z.of_nat (List.length (Debug.toDebug this false)) + 1) / 3 = capacity this.
Proof.
  pose proof (Buffer_length_nonneg (buffer this)) as Hk. fold (capacity this) in Hk.
  rewrite toDebug_text, length_app, marker_length, bytesText_length by lia.
  change (0 =? 0) with true. cbn [andb].
  destruct (Z.eqb_spec (capacity this) 0) as [E|E].
  - rewrite E. reflexivity.
  - destruct (negb _ && _ && _); zlia.
Qed.

End DebugText.

(** C2. Let [this] have bytes in the store and both cursors inside it.  If
    the read cursor stands at the end of the store and the write cursor does
    not, [toDebug] prints the marker ["["], for which [fromDebug] has no
    case: the text of such a buffer is refused with a range error.  For
    every other buffer [fromDebug] gives the bytes and both cursors back. *)
Theorem debug_roundtrip_unless_bracket (junk : nat -> Z) (this : SmartBuffer) :
  Forall (fun b => 0 <= b < 256) (buffer this) ->
  0 <= roffset this <= capacity this -> 0 <= woffset this <= capacity this ->
  capacity this < 2 ^ 31 ->
  (roffset this = capacity this /\ woffset this <> capacity this ->
   Debug.fromDebug junk (Debug.toDebug this false) false
   = Throw (RangeError "Invalid symbol")) /\
  (~ (roffset this = capacity this /\ woffset this <> capacity this) ->
   exists this',
     Debug.fromDebug junk (Debug.toDebug this false) false = Ok this' /\
     buffer this' = buffer this /\
     roffset this' = roffset this /\ woffset this' = woffset this).
Proof.
  intros Hbytes Hr Hw Hcap.
  pose proof (Buffer_length_nonneg (buffer this)) as Hk. fold (capacity this) in Hk.
  unfold Debug.fromDebug. rewrite toDebug_length by assumption.
  rewrite ToInt32_id by lia.
  assert (Hnew : exists b, new junk (capacity this) false = Ok (mkSmartBuffer b 0 0 false)
                           /\ Buffer.length b = capacity this).
  { unfold new. rewrite ToInt32_id by lia. cbn [negb andb].
    destruct (Z.ltb_spec (capacity this) 0); [lia|].
    destruct (Z.eqb_spec (capacity this) 0) as [E|E].
    - exists []. split; [reflexivity|]. symmetry. exact E.
    - destruct (Buffer.allocUnsafe junk (capacity this)) as [b|e] eqn:Ea.
      + exists b. split; [reflexivity|]. apply allocUnsafe_length in Ea. lia.
      + rewrite allocUnsafe_ok in Ea by (unfold Buffer.MAX_LENGTH; lia). discriminate. }
  destruct Hnew as (b & -> & Hb).
  rewrite toDebug_text.
  assert (Hst : parsed_upto this 0
                  (Debug.mkLocals (mkSmartBuffer b 0 0 false) 0 false false false false)).
  { unfold parsed_upto. cbn [Debug.j Debug.rs Debug.hl Debug.hr Debug.hw Debug.bb
                             roffset woffset buffer].
    destruct (Z.ltb_spec (roffset this) 0); [lia|].
    destruct (Z.ltb_spec (woffset this) 0); [lia|].
    repeat split; try reflexivity; try exact Hb; intros; lia. }
  destruct (parse_text this Hbytes Hr Hw (Z.to_nat (capacity this)) 0 _
              ltac:(lia) ltac:(lia) Hst) as [Hbad Hgood].
  split.
  - intros H. rewrite (Hbad H). reflexivity.
  - intros H. destruct (Hgood H) as (st' & -> & Hst').
    destruct Hst' as (Hj & Hrs & Hhl & Hhr & Hhw & Hr' & Hw' & Hlen & Hget).
    rewrite Hhl, Hhr, Hhw, Hj, Hlen.
    destruct (Z.leb_spec (capacity this) (capacity this)); [|lia].
    destruct (Z.leb_spec (roffset this) (capacity this)); [|lia].
    destruct (Z.leb_spec (woffset this) (capacity this)); [|lia].
    rewrite Z.ltb_irrefl. cbn [negb andb orb].
    exists (Debug.bb st'). split; [reflexivity|].
    split; [|split; [apply Hr'; lia|apply Hw'; lia]].
    apply list_eq. intros n.
    destruct (Z.ltb_spec (Z.of_nat n) (capacity this)) as [Hn|Hn].
    + specialize (Hget (Z.of_nat n) ltac:(lia)).
      rewrite (Buffer_get_lookup (buffer (Debug.bb st'))) in Hget by lia.
      rewrite (Buffer_get_lookup (buffer this)) in Hget by (unfold capacity in Hn; lia).
      rewrite Nat2Z.id in Hget. exact Hget.
    + rewrite !lookup_ge_None_2; [reflexivity| |];
        unfold capacity, Buffer.length in *; lia.
Qed.

Lemma debug_roundtrip_unless_bracket_witness :
  Debug.fromDebug (fun _ => 0) (Debug.toDebug (mkSmartBuffer [0] 0 1 false) false) false
  = Throw (RangeError "Invalid symbol") /\
  exists this',
    Debug.fromDebug (fun _ => 0)
      (Debug.toDebug (mkSmartBuffer [0x61; 0x62] 2 1 false) false) false = Ok this' /\
    buffer this' = [0x61; 0x62] /\ roffset this' = 1 /\ woffset this' = 2.
Proof.
  split.
  - apply (debug_roundtrip_unless_bracket (fun _ => 0) (mkSmartBuffer [0] 0 1 false)).
    + repeat constructor; lia.
    + unfold capacity, Buffer.length. simpl. lia.
    + unfold capacity, Buffer.length. simpl. lia.
    + unfold capacity, Buffer.length. simpl. lia.
    + unfold capacity, Buffer.length. simpl. split; [reflexivity|discriminate].
  - apply (debug_roundtrip_unless_bracket (fun _ => 0)
             (mkSmartBuffer [0x61; 0x62] 2 1 false)).
    + repeat constructor; lia.
    + unfold capacity, Buffer.length. simpl. lia.
    + unfold capacity, Buffer.length. simpl. lia.
    + unfold capacity, Buffer.length. simpl. lia.
    + unfold capacity, Buffer.length. simpl. intros [H _]. discriminate H.
Defined.

(** The text of the smallest such buffer: one zero byte, [roffset = 1] and
    [woffset = 0]. *)
Lemma toDebug_bracket_text (junk : nat -> Z) :
  Debug.toDebug (mkSmartBuffer [0] 0 1 false) false = JS.str ">00[" /\
  Debug.fromDebug junk (JS.str ">00[") false = Throw (RangeError "Invalid symbol") /\
  exists this',
    Debug.fromDebug junk (JS.str ">00[") true = Ok this' /\ roffset this' = 0.
Proof.
  split; [reflexivity|]. split; [reflexivity|]. eexists. split; reflexivity.
Qed.

(** ** Two objects *)

Lemma on_Some {A} (r : nat) (m : M SmartBuffer A) (h : gmap nat SmartBuffer) o :
  h !! r = Some o -> on r m h = (<[r := fst (m o)]> h, snd (m o)).
Proof. intros H. unfold on. rewrite H. destruct (m o). reflexivity. Qed.

Lemma blit_length (source target : list Z) ts ss se :
  0 <= ts <= Buffer.length target ->
  Buffer.length (Buffer.blit source target ts ss se) = Buffer.length target.
Proof.
  intros H. unfold Buffer.blit, Buffer.length in *.
  rewrite !length_app, length_drop, !length_take. lia.
Qed.


Lemma if_same {A} (c : bool) (x : A) : (if c then x else x) = x.
Proof. destruct c; reflexivity. Qed.

(** Looking up an object in a heap that a method has updated. *)
Ltac lookup_heap :=
  repeat (rewrite lookup_insert_eq || rewrite lookup_insert_ne by congruence);
  (eassumption || reflexivity).

Ltac run_on :=
  erewrite on_Some by lookup_heap; cbn [get modify ret fst snd]; cbv beta iota.

Section Write.

Variable junk : nat -> Z.

(** What [write(source, offset)] does for a source that is another object
    with readable bytes, at an offset inside the receiver's store. *)
Lemma write_run (h : gmap nat SmartBuffer) this src t s off :
  this <> src -> h !! this = Some t -> h !! src = Some s ->
  let L := woffset s - roffset s in
  let o := default (woffset t) off in
  0 < L -> 0 <= roffset s <= capacity s -> 0 <= o <= capacity t ->
  capacity t < 2 ^ 32 ->
  noAssert t = true \/ Z.max (2 * capacity t) (o + L) < 2 ^ 31 ->
  Z.max (2 * capacity t) (o + L) <= Buffer.MAX_LENGTH ->
  exists tail h',
    (if o + L >? capacity t
     then Buffer.length (buffer t ++ tail) = Z.max (2 * capacity t) (o + L)
     else tail = []) /\
    o + L <= Buffer.length (buffer t ++ tail) /\
    write junk this src off h = (h', Ok tt) /\
    h' !! src = Some (set_roffset (roffset s + L) s) /\
    h' !! this =
    Some (match off with
          | None => set_woffset (woffset t + L)
          | Some _ => fun t => t
          end (set_buffer (Buffer.blit (buffer s) (buffer t ++ tail) o
                             (roffset s) (woffset s)) t)).
Proof.
  intros Hne Ht Hs L o HL Hr Ho Hcap Hn Hmax. unfold capacity in *.
  assert (Hgrow : exists tail,
             o + L <= Buffer.length (buffer t ++ tail) /\
             (if o + L >? Buffer.length (buffer t)
              then Buffer.length (buffer t ++ tail) =
                   Z.max (2 * Buffer.length (buffer t)) (o + L)
              else tail = []) /\
             grow junk (o + L) t = (set_buffer (buffer t ++ tail) t, Ok tt)).
  { destruct (Z.gtb_spec (o + L) (Buffer.length (buffer t))).
    - exists (drop (List.length (buffer t))
                (map junk (seq 0 (Z.to_nat (Z.max (2 * Buffer.length (buffer t))
                                              (o + L)))))).
      split; [|split; [|apply grow_grows; unfold capacity; [lia|exact Hn|exact Hmax]]].
      + rewrite grown_length; lia.
      + rewrite grown_length; lia.
    - exists []. rewrite app_nil_r, set_buffer_id.
      split; [lia|]. split; [reflexivity|]. apply grow_enough. unfold capacity. lia. }
  destruct Hgrow as (tail & G1 & G2 & G3). exists tail.
  assert (Hchk : ((o <? 0) || (o + 0 >? Buffer.length (buffer t))) = false).
  { destruct (Z.ltb_spec o 0); destruct (Z.gtb_spec (o + 0) (Buffer.length (buffer t)));
      try lia; reflexivity. }
  assert (Hcopy : Buffer.copy (buffer s) (buffer t ++ tail) o (roffset s) (woffset s) =
                  Ok (Buffer.blit (buffer s) (buffer t ++ tail) o (roffset s) (woffset s))).
  { apply copy_ok; unfold L in HL; lia. }
  unfold write. monad. run_on. fold o. rewrite (ToUint32_id o) by lia. rewrite Hchk.
  clear Hn Hmax. destruct (negb (noAssert t)); unfold ret; cbv beta iota; run_on; fold L.
  all: destruct (Z.leb_spec L 0); [lia|]; cbv beta iota.
  all: run_on; rewrite G3; cbn [fst snd]; cbv beta iota; run_on; run_on.
  all: cbn [buffer set_buffer]; rewrite Hcopy; cbv beta iota; run_on; run_on.
  all: cbn [roffset woffset noAssert buffer set_buffer set_roffset].
  all: destruct off as [x|];
    first [rewrite bool_decide_eq_true_2 by reflexivity
          |rewrite bool_decide_eq_false_2 by discriminate]; cbv beta iota.
  all: try run_on.
  all: eexists; (split; [exact G2|]); (split; [exact G1|]); (split; [reflexivity|]).
  all: split; lookup_heap.
Qed.

End Write.

Section Prepend.

Variable junk : nat -> Z.


End Prepend.

Section Sources.

Variable junk : nat -> Z.

(** A source without readable bytes: nothing is written, nothing moves. *)
Lemma write_nothing (h : gmap nat SmartBuffer) this src t s o :
  h !! this = Some t -> h !! src = Some s ->
  woffset s - roffset s <= 0 -> 0 <= o <= capacity t -> capacity t < 2 ^ 32 ->
  exists h', write junk this src (Some o) h = (h', Ok tt) /\
             h' !! this = Some t /\ h' !! src = Some s.
Proof.
  intros Ht Hs HL Ho Hcap. unfold capacity in *.
  assert (Hchk : ((o <? 0) || (o + 0 >? Buffer.length (buffer t))) = false).
  { destruct (Z.ltb_spec o 0); destruct (Z.gtb_spec (o + 0) (Buffer.length (buffer t)));
      try lia; reflexivity. }
  unfold write. monad. run_on. change (default (woffset t) (Some o)) with o.
  rewrite (ToUint32_id o) by lia. rewrite Hchk. unfold ret. rewrite if_same. cbv beta iota.
  destruct (decide (this = src)) as [->|Hne].
  - assert (s = t) as -> by congruence. run_on.
    destruct (Z.leb_spec (woffset t - roffset t) 0); [|lia]. cbv beta iota.
    eexists. split; [reflexivity|]. split; lookup_heap.
  - run_on. destruct (Z.leb_spec (woffset s - roffset s) 0); [|lia]. cbv beta iota.
    eexists. split; [reflexivity|]. split; lookup_heap.
Qed.

(** What an absolute [write] does when the source is the receiver itself. *)
Lemma write_self_run (h : gmap nat SmartBuffer) this t off :
  h !! this = Some t ->
  let L := woffset t - roffset t in
  let o := default (woffset t) off in
  0 < L -> 0 <= roffset t <= capacity t -> 0 <= o <= capacity t ->
  capacity t < 2 ^ 30 -> o + L < 2 ^ 31 ->
  exists tail h',
    (if o + L >? capacity t
     then Buffer.length (buffer t ++ tail) = Z.max (2 * capacity t) (o + L)
     else tail = []) /\
    o + L <= Buffer.length (buffer t ++ tail) /\
    write junk this this off h = (h', Ok tt) /\
    h' !! this =
    Some (match off with
          | None => set_woffset (woffset t + L)
          | Some _ => fun t => t
          end (set_roffset (roffset t + L)
                 (set_buffer (Buffer.blit (buffer t ++ tail) (buffer t ++ tail) o
                                (roffset t) (woffset t)) t))).
Proof.
  intros Ht L o HL Hr Ho Hcap HoL.
  destruct (grow_run junk t (o + L)) as (tail & G & G1 & G2);
    [right; change (2 ^ 30) with 1073741824 in Hcap; zlia
    |unfold Buffer.MAX_LENGTH; change (2 ^ 30) with 1073741824 in Hcap; zlia|].
  exists tail. unfold capacity in *.
  assert (Hchk : ((o <? 0) || (o + 0 >? Buffer.length (buffer t))) = false).
  { destruct (Z.ltb_spec o 0); destruct (Z.gtb_spec (o + 0) (Buffer.length (buffer t)));
      try lia; reflexivity. }
  assert (Hcopy : Buffer.copy (buffer t ++ tail) (buffer t ++ tail) o (roffset t) (woffset t)
                  = Ok (Buffer.blit (buffer t ++ tail) (buffer t ++ tail) o
                          (roffset t) (woffset t))).
  { apply copy_ok; rewrite ?Buffer_length_app; unfold L in HL;
      pose proof (Buffer_length_nonneg tail); lia. }
  unfold write. monad. run_on. fold o.
  rewrite (ToUint32_id o) by lia. rewrite Hchk.
  destruct (negb (noAssert t)); unfold ret; cbv beta iota; run_on; fold L.
  all: destruct (Z.leb_spec L 0); [lia|]; cbv beta iota.
  all: run_on; rewrite G; cbn [fst snd]; cbv beta iota; run_on; run_on.
  all: cbn [buffer set_buffer roffset woffset]; rewrite Hcopy; cbv beta iota; run_on; run_on.
  all: destruct off as [x|];
    [rewrite bool_decide_eq_false_2 by discriminate
    |rewrite bool_decide_eq_true_2 by reflexivity; run_on];
    cbv beta iota.
  all: eexists; (split; [exact G2|]); (split; [exact G1|]); (split; [reflexivity|]).
  all: lookup_heap.
Qed.

(** C10, amended.  [write(source, offset)] with an explicit offset inside
    the target's store, for a source with readable length [L > 0] whose read
    cursor lies inside its own store.  When the source is another buffer, the
    call moves [source.roffset] forward by [L], which leaves the source
    without readable bytes, and leaves both cursors of the target as they
    were; writing the same source again changes nothing.  When the source is
    the target itself, the read cursor that moves forward by [L] is the
    target's own, and its write cursor stays.  The sizes stay below 2^31. *)
Theorem write_absolute_consumes_source
    (h : gmap nat SmartBuffer) (this src : nat) (t s : SmartBuffer) (o : Z) :
  h !! this = Some t -> h !! src = Some s ->
  let L := woffset s - roffset s in
  0 < L -> 0 <= roffset s <= capacity s -> 0 <= o <= capacity t ->
  capacity t < 2 ^ 30 -> o + L < 2 ^ 31 ->
  (this <> src ->
   exists h' t' s',
     write junk this src (Some o) h = (h', Ok tt) /\
     h' !! this = Some t' /\ h' !! src = Some s' /\
     roffset s' = roffset s + L /\ woffset s' = woffset s /\ length s' = 0 /\
     roffset t' = roffset t /\ woffset t' = woffset t /\
     exists h'',
       write junk this src (Some o) h' = (h'', Ok tt) /\
       h'' !! this = Some t' /\ h'' !! src = Some s') /\
  (this = src ->
   exists h' t',
     write junk this src (Some o) h = (h', Ok tt) /\
     h' !! this = Some t' /\
     roffset t' = roffset t + L /\ woffset t' = woffset t).
Proof.
  intros Ht Hs L HL Hr Ho Hcap HoL. split.
  - intros Hne.
    assert (Hcap32 : capacity t < 2 ^ 32).
    { eapply Z.lt_trans; [exact Hcap|reflexivity]. }
    assert (Hsize : noAssert t = true \/ Z.max (2 * capacity t) (o + L) < 2 ^ 31).
    { right. change (2 ^ 30) with 1073741824 in Hcap. zlia. }
    assert (Hmax : Z.max (2 * capacity t) (o + L) <= Buffer.MAX_LENGTH).
    { unfold Buffer.MAX_LENGTH. change (2 ^ 30) with 1073741824 in Hcap. zlia. }
    destruct (write_run junk h this src t s (Some o) Hne Ht Hs HL Hr Ho Hcap32 Hsize Hmax)
      as (tail & h' & G2 & G1 & W & Ws & Wt).
    change (default (woffset t) (Some o)) with o in *. fold L in G1, G2, W, Ws.
    cbv beta iota in Wt.
    eexists h', _, _. split; [exact W|]. split; [exact Wt|]. split; [exact Ws|].
    cbn [roffset woffset set_roffset set_buffer]. unfold length.
    cbn [roffset woffset set_roffset set_buffer].
    repeat (split; [first [reflexivity|lia]|]).
    apply (write_nothing h' this src _ _ o Wt Ws).
    + cbn [roffset woffset set_roffset]. lia.
    + unfold capacity. cbn [buffer set_buffer]. rewrite blit_length by lia.
      unfold capacity in Ho. rewrite Buffer_length_app.
      pose proof (Buffer_length_nonneg tail). lia.
    + unfold capacity in *. cbn [buffer set_buffer]. rewrite blit_length by lia.
      destruct (Z.gtb_spec (o + L) (Buffer.length (buffer t))).
      * rewrite G2. lia.
      * subst tail. rewrite app_nil_r. lia.
  - intros <-. assert (s = t) as -> by congruence.
    destruct (write_self_run h this t (Some o) Ht HL Hr Ho Hcap HoL)
      as (tail & h' & _ & _ & W & Wt).
    eexists h', _. split; [exact W|]. split; [exact Wt|]. split; reflexivity.
Qed.

End Sources.

Lemma write_absolute_consumes_source_witness :
  let h : gmap nat SmartBuffer :=
    <[0%nat := mkSmartBuffer [0x12; 0x34; 0; 0] 2 2 false]>
      (<[1%nat := mkSmartBuffer [0x56; 0x78] 2 0 false]> ∅) in
  exists h' t' s',
    write (fun _ => 0) 0 1 (Some 1) h = (h', Ok tt) /\
    h' !! 0%nat = Some t' /\ h' !! 1%nat = Some s' /\
    roffset s' = 0 + (2 - 0) /\ woffset s' = 2 /\ length s' = 0 /\
    roffset t' = 2 /\ woffset t' = 2 /\
    exists h'',
      write (fun _ => 0) 0 1 (Some 1) h' = (h'', Ok tt) /\
      h'' !! 0%nat = Some t' /\ h'' !! 1%nat = Some s'.
Proof.
  intros h.
  apply (write_absolute_consumes_source (fun _ => 0) h 0 1
           (mkSmartBuffer [0x12; 0x34; 0; 0] 2 2 false)
           (mkSmartBuffer [0x56; 0x78] 2 0 false) 1).
  - reflexivity.
  - reflexivity.
  - simpl. lia.
  - unfold capacity, Buffer.length. simpl. lia.
  - unfold capacity, Buffer.length. simpl. lia.
  - unfold capacity, Buffer.length. simpl. lia.
  - simpl. lia.
  - discriminate.
Defined.

(** The claim C10 as it was stated fails in two cases.  When the source is
    the target itself ([L = 2 > 0]), the call moves the target's own read
    cursor.  When the read cursor of the source lies behind the end of its
    store ([L = 5 - 3 > 0]), the host refuses the copy: the call throws and
    the source is not consumed. *)
Lemma write_absolute_counterexample :
  (exists h' t',
      write (fun _ => 0) 0 0 (Some 0) {[ 0%nat := mkSmartBuffer [1; 2] 2 0 false ]}
      = (h', Ok tt) /\
      h' !! 0%nat = Some t' /\ roffset t' = 2 /\ roffset t' <> 0) /\
  (exists h' message,
      write (fun _ => 0) 0 1 (Some 1)
        (<[0%nat := mkSmartBuffer [0x12; 0x34; 0; 0] 2 2 false]>
           (<[1%nat := mkSmartBuffer [0x56; 0x78] 5 3 false]> ∅))
      = (h', Throw (RangeError message)) /\
      h' !! 1%nat = Some (mkSmartBuffer [0x56; 0x78] 5 3 false)).
Proof.
  split.
  - eexists _, _. split; [vm_compute; reflexivity|].
    split; [reflexivity|]. split; [reflexivity|]. simpl. lia.
  - eexists _, _. split; [vm_compute; reflexivity|]. reflexivity.
Qed.


(** ** Writes and the growth step *)

Section Writes.

Variable junk : nat -> Z.
Variable utf8 : list Z -> list Z.

(** [_checkWrite] at an offset inside the store. *)
Lemma _checkWrite_run this value off bytes :
  let o := default (woffset this) off in
  0 <= o <= capacity this -> capacity this < 2 ^ 32 ->
  noAssert this = true \/ Z.max (2 * capacity this) (o + bytes) < 2 ^ 31 ->
  Z.max (2 * capacity this) (o + bytes) <= Buffer.MAX_LENGTH ->
  exists tail,
    _checkWrite junk value off bytes this =
    (match off with
     | None => set_woffset (woffset this + bytes) (set_buffer (buffer this ++ tail) this)
     | Some _ => set_buffer (buffer this ++ tail) this
     end, Ok o) /\
    o + bytes <= Buffer.length (buffer this ++ tail) /\
    (if o + bytes >? capacity this
     then Buffer.length (buffer this ++ tail) = Z.max (2 * capacity this) (o + bytes)
     else tail = []).
Proof.
  intros o Ho Hcap Hn Hmax. unfold capacity in *.
  assert (Hchk : ((o <? 0) || (o + 0 >? Buffer.length (buffer this))) = false).
  { destruct (Z.ltb_spec o 0); destruct (Z.gtb_spec (o + 0) (Buffer.length (buffer this)));
      try lia; reflexivity. }
  destruct off as [x|].
  - assert (Hox : o = x) by reflexivity. clearbody o. subst x.
    destruct (grow_run junk this (o + bytes) Hn Hmax) as (tail & G & G1 & G2).
    exists tail. split; [|split; assumption].
    unfold _checkWrite. monad. rewrite (ToUint32_id o) by lia. rewrite Hchk.
    unfold ret. rewrite if_same. cbv beta iota. rewrite G. reflexivity.
  - subst o. change (default (woffset this) None) with (woffset this) in *.
    destruct (grow_run junk (set_woffset (woffset this + bytes) this)
                (woffset this + bytes) Hn Hmax) as (tail & G & G1 & G2).
    exists tail. split; [|split; assumption].
    unfold _checkWrite. monad. cbn [noAssert buffer set_woffset].
    rewrite (ToUint32_id (woffset this)) by lia. rewrite Hchk.
    unfold ret. rewrite if_same. cbv beta iota. rewrite G. reflexivity.
Qed.

End Writes.

(** ** Cursors of one object *)

Section Cursors.

Variable junk : nat -> Z.
Variable utf8 : list Z -> list Z.
Variable utf8_decode : list Z -> list Z.

Lemma grow_frame this s :
  exists tail r, grow junk s this = (set_buffer (buffer this ++ tail) this, r).
Proof.
  unfold grow. monad. destruct (s >? Buffer.length (buffer this)).
  - apply resize_extends.
  - exists [], (Ok tt). rewrite app_nil_r, set_buffer_id. reflexivity.
Qed.







Lemma writeUInt8_cursors this value off :
  roffset (fst (writeUInt8 junk value off this)) =
  roffset (fst (_checkWrite junk (JS.ToUint32 value) off 1 this)) /\
  woffset (fst (writeUInt8 junk value off this)) =
  woffset (fst (_checkWrite junk (JS.ToUint32 value) off 1 this)).
Proof.
  unfold writeUInt8, bind.
  destruct (_checkWrite junk (JS.ToUint32 value) off 1 this) as [this' [o|e]];
    split; reflexivity.
Qed.

End Cursors.


Section CodecCursors.

Variable junk : nat -> Z.
Variable utf8 : list Z -> list Z.
Variable utf8_decode : list Z -> list Z.



Lemma writeVarint32_cursors this value off this' r :
  noAssert this = true \/ 0 <= woffset this < 2 ^ 32 ->
  writeVarint32 junk value off this = (this', r) ->
  roffset this' = roffset this /\
  match off, r with
  | None, Ok _ => woffset this' = woffset this + calculateVarint32 value
  | _, _ => woffset this' = woffset this
  end.
Proof.
  intros Hw. unfold writeVarint32. monad.
  assert (Hsnd : forall o b, snd (writeVarint32_loop (JS.ToUint32 value) o b)
                             = o + calculateVarint32 value).
  { intros. rewrite writeVarint32_loop_size by apply ToUint32_range.
    rewrite calculateVarint32_ToUint32. reflexivity. }
  assert (Ho : off = None ->
               (if negb (noAssert this) then JS.ToUint32 (default (woffset this) off)
                else default (woffset this) off) = woffset this).
  { intros ->. change (default (woffset this) None) with (woffset this).
    destruct (noAssert this); [reflexivity|]. destruct Hw as [Hw|Hw]; [discriminate|].
    apply ToUint32_id. exact Hw. }
  destruct (negb (noAssert this)); cbv beta iota.
  - destruct ((JS.ToUint32 _ <? 0) || _); cbv beta iota.
    { intros [= <- <-]. split; [reflexivity|]. destruct off; reflexivity. }
    rewrite calculateVarint32_ToInt32, ToUint32_ToInt32.
    destruct (grow_frame junk this
                (JS.ToUint32 (default (woffset this) off) + calculateVarint32 value))
      as (tail & g & E). rewrite E. destruct g as [[]|e]; cbv beta iota.
    + cbn [buffer set_buffer].
      specialize (Hsnd (JS.ToUint32 (default (woffset this) off)) (buffer this ++ tail)).
      destruct (writeVarint32_loop _ _ _) as [b2 o2]. simpl in Hsnd. subst o2.
      destruct off as [x|]; cbn [bool_decide decide_rel]; cbv beta iota.
      * rewrite bool_decide_eq_false_2 by discriminate.
        intros [= <- <-]. split; reflexivity.
      * rewrite bool_decide_eq_true_2 by reflexivity.
        intros [= <- <-]. split; [reflexivity|]. cbn [woffset set_woffset].
        specialize (Ho eq_refl). cbv beta iota in Ho.
        change (default (woffset this) None) with (woffset this) in *.
        rewrite Ho. reflexivity.
    + intros [= <- <-]. split; [reflexivity|]. destruct off; reflexivity.
  - destruct (grow_frame junk this
                (default (woffset this) off + calculateVarint32 value))
      as (tail & g & E). rewrite E. destruct g as [[]|e]; cbv beta iota.
    + cbn [buffer set_buffer].
      specialize (Hsnd (default (woffset this) off) (buffer this ++ tail)).
      destruct (writeVarint32_loop _ _ _) as [b2 o2]. simpl in Hsnd. subst o2.
      destruct off as [x|]; cbv beta iota.
      * rewrite bool_decide_eq_false_2 by discriminate.
        intros [= <- <-]. split; reflexivity.
      * rewrite bool_decide_eq_true_2 by reflexivity.
        intros [= <- <-]. split; reflexivity.
    + intros [= <- <-]. split; [reflexivity|]. destruct off; reflexivity.
Qed.

End CodecCursors.

Lemma splice_length (b chunk : list Z) o :
  0 <= o -> o + Buffer.length chunk <= Buffer.length b ->
  Buffer.length (take (Z.to_nat o) b ++ chunk
                   ++ drop (Z.to_nat o + List.length chunk) b) = Buffer.length b.
Proof.
  intros H1 H2. unfold Buffer.length in *.
  rewrite !length_app, length_drop, length_take. lia.
Qed.

Lemma splice_get_below (b chunk : list Z) o i :
  0 <= i < o -> o <= Buffer.length b ->
  (take (Z.to_nat o) b ++ chunk ++ drop (Z.to_nat o + List.length chunk) b) !! Z.to_nat i
  = b !! Z.to_nat i.
Proof.
  intros Hi Ho. unfold Buffer.length in Ho.
  rewrite lookup_app_l by (rewrite length_take; lia).
  apply lookup_take_lt. lia.
Qed.

Lemma Buffer_write_fits (b bytes : list Z) o :
  0 <= o -> o + Buffer.length bytes <= Buffer.length b ->
  Buffer.write b bytes o (Buffer.length bytes) =
  Ok (take (Z.to_nat o) b ++ bytes ++ drop (Z.to_nat o + List.length bytes) b,
      Buffer.length bytes).
Proof.
  intros H1 H2. unfold Buffer.write.
  destruct (Z.ltb_spec o 0); [lia|].
  pose proof (Buffer_length_nonneg bytes).
  destruct (Z.gtb_spec o (Buffer.length b)); [lia|]. cbn [orb]. cbv iota.
  rewrite Z.min_l by lia. rewrite (take_ge bytes) by (unfold Buffer.length; lia).
  reflexivity.
Qed.

Section StringCursors.

Variable junk : nat -> Z.
Variable utf8 : list Z -> list Z.
Variable utf8_decode : list Z -> list Z.


End StringCursors.

Section BufferCursors.

Variable junk : nat -> Z.
Variable utf8_decode : list Z -> list Z.

(** What a call of [writeBuffer] with a buffer that is not empty does. *)
Lemma writeBuffer_run this (buf : list Z) off :
  let o := default (woffset this) off in
  let n := Buffer.length buf in
  0 < n -> 0 <= o <= capacity this ->
  noAssert this = true \/ Z.max (2 * capacity this) (o + n) < 2 ^ 31 ->
  Z.max (2 * capacity this) (o + n) <= Buffer.MAX_LENGTH ->
  exists tail,
    writeBuffer junk buf off this =
    (match off with
     | None => set_woffset (o + n)
     | Some _ => fun this => this
     end (set_buffer (Buffer.blit buf (buffer this ++ tail) o 0 n) this), Ok tt) /\
    o + n <= Buffer.length (buffer this ++ tail) /\
    (if o + n >? capacity this
     then Buffer.length (buffer this ++ tail) = Z.max (2 * capacity this) (o + n)
     else tail = []).
Proof.
  intros o n Hn0 Ho Hn Hmax.
  destruct (grow_run junk this (o + n) Hn Hmax) as (tail & G & G1 & G2).
  exists tail. split; [|split; assumption].
  unfold writeBuffer. fold n. destruct (Z.eqb_spec n 0); [lia|]. monad. fold o.
  rewrite G. cbv beta iota. cbn [buffer set_buffer].
  rewrite copy_ok by (fold n; lia). cbv beta iota.
  destruct off; reflexivity.
Qed.



End BufferCursors.

(** ** Stores that have grown *)

Lemma capacity_set_woffset w this : capacity (set_woffset w this) = capacity this.
Proof. reflexivity. Qed.

Lemma grown_get (b tail : list Z) i :
  0 <= i < Buffer.length b -> Buffer.get (b ++ tail) i = Buffer.get b i.
Proof. apply Buffer_get_app_l. Qed.

(** ** Scenarios of the test suite *)

(** "debug": each text is decoded and printed back. *)
Example test_debug (junk : nat -> Z) :
  Forall (fun text =>
            exists bb, Debug.fromDebug junk (JS.str text) false = Ok bb /\
                       Debug.toDebug bb false = JS.str text)
         ["60<61 62>63*"; "<60 61 62 63]"; "|"; "^61*"; "12|"]%string.
Proof. repeat constructor; eexists; split; reflexivity. Qed.

(** "prepend": a relative prepend of two bytes at 0, then an absolute one of
    one byte at 3. *)
Example test_prepend :
  let bb := mkSmartBuffer [0x12; 0x34] 2 0 false in
  let bb2 := mkSmartBuffer [0x56; 0x78] 2 0 false in
  let h : gmap nat SmartBuffer := <[0%nat := bb]> (<[1%nat := bb2]> ∅) in
  exists h1 bb' bb2',
    prepend (fun _ => 0) 0 1 None h = (h1, Ok tt) /\
    h1 !! 0%nat = Some bb' /\ h1 !! 1%nat = Some bb2' /\
    Debug.toDebug bb' false = JS.str "<56 78 12 34]" /\
    Debug.toDebug bb2' false = JS.str "56 78|" /\
    exists h2 bb'' bb2'',
      prepend (fun _ => 0) 0 1 (Some 3)
        (<[0%nat := set_roffset 4 bb']> (<[1%nat := set_roffset 1 bb2']> h1))
      = (h2, Ok tt) /\
      h2 !! 0%nat = Some bb'' /\ h2 !! 1%nat = Some bb2'' /\
      Debug.toDebug bb'' false = JS.str "56 78 78 34|" /\
      Debug.toDebug bb2'' false = JS.str "56 78|".
Proof.
  eexists _, _, _. split; [vm_compute; reflexivity|].
  split; [reflexivity|]. split; [reflexivity|].
  split; [reflexivity|]. split; [reflexivity|].
  eexists _, _, _. split; [vm_compute; reflexivity|].
  repeat split; reflexivity.
Qed.

(** "compact": the whole store is kept as it is; with the read cursor at 1
    the store becomes one byte. *)
Example test_compact :
  let bb := mkSmartBuffer [1; 2] 2 0 false in
  compact (fun _ => 0) None None bb = (bb, Ok tt) /\
  exists bb',
    compact (fun _ => 0) None None (set_roffset 1 bb) = (bb', Ok tt) /\
    capacity bb' = 1 /\ roffset bb' = 0 /\ buffer bb' = [2].
Proof.
  split; [reflexivity|]. eexists. split; [vm_compute; reflexivity|].
  repeat split; reflexivity.
Qed.

(** "resize" and "ensureCapacity". *)
Example test_resize :
  exists bb,
    resize (fun _ => 0) 2 (mkSmartBuffer [0] 1 1 false) = (bb, Ok tt) /\
    capacity bb = 2 /\ Debug.toDebug bb false = JS.str "00^00*".
Proof. eexists. split; [vm_compute; reflexivity|]. split; reflexivity. Qed.

(** "write": a relative write moves the offsets of both buffers, an
    absolute one those of the source only. *)
Example test_write :
  let bb := mkSmartBuffer [0x12; 0x34] 2 2 false in
  let bb2 := mkSmartBuffer [0x56; 0x78] 2 0 false in
  let h : gmap nat SmartBuffer := <[0%nat := bb]> (<[1%nat := bb2]> ∅) in
  exists h1 bb' bb2',
    write (fun _ => 0) 0 1 None h = (h1, Ok tt) /\
    h1 !! 0%nat = Some bb' /\ h1 !! 1%nat = Some bb2' /\
    Debug.toDebug bb' false = JS.str "12 34<56 78]" /\
    Debug.toDebug bb2' false = JS.str "56 78|" /\
    exists h2 bb'' bb2'',
      write (fun _ => 0) 0 1 (Some 1) (<[1%nat := set_roffset 0 bb2']> h1) = (h2, Ok tt) /\
      h2 !! 0%nat = Some bb'' /\ h2 !! 1%nat = Some bb2'' /\
      Debug.toDebug bb'' false = JS.str "12 56<78 78]" /\
      Debug.toDebug bb2'' false = JS.str "56 78|".
Proof.
  eexists _, _, _. split; [vm_compute; reflexivity|].
  split; [reflexivity|]. split; [reflexivity|].
  split; [reflexivity|]. split; [reflexivity|].
  eexists _, _, _. split; [vm_compute; reflexivity|].
  repeat split; reflexivity.
Qed.

(** * Further properties of the code *)

(** ** Bytes and words *)

Lemma shl_byte b s : 0 <= b < 256 -> 0 <= s <= 16 -> JS.shl b s = b * 2 ^ s.
Proof.
  intros Hb Hs. unfold JS.shl. rewrite (ToInt32_id b) by lia.
  rewrite Z.mod_small by lia. rewrite Z.shiftl_mul_pow2 by lia.
  assert (0 < 2 ^ s) by (apply Z.pow_pos_nonneg; lia).
  assert (2 ^ s <= 2 ^ 16) by (apply Z.pow_le_mono_r; lia).
  apply ToInt32_id. change (2 ^ 16) with 65536 in *. nia.
Qed.

Lemma shl_byte_24 b : 0 <= b < 256 -> JS.shr (JS.shl b 24) 0 = b * 2 ^ 24.
Proof.
  intros Hb. unfold JS.shr, JS.shl. change (0 mod 32) with 0. rewrite Z.shiftr_0_r.
  rewrite ToUint32_ToInt32, (ToInt32_id b) by lia. change (24 mod 32) with 24.
  rewrite Z.shiftl_mul_pow2 by lia. apply ToUint32_id. lia.
Qed.

Lemma or_add a x k :
  0 <= k -> 0 <= a < 2 ^ k -> 0 <= x -> a + x * 2 ^ k < 2 ^ 31 ->
  JS.or (x * 2 ^ k) a = a + x * 2 ^ k /\ JS.or a (x * 2 ^ k) = a + x * 2 ^ k.
Proof.
  intros Hk Ha Hx Hsum. assert (0 <= x * 2 ^ k) by nia.
  unfold JS.or. rewrite !ToInt32_id by lia.
  split; [rewrite Z.lor_comm|]; apply lor_disjoint; assumption.
Qed.

Lemma word16_bytes b0 b1 :
  0 <= b0 < 256 -> 0 <= b1 < 256 ->
  JS.or b0 (JS.shl b1 8) = b0 + b1 * 256 /\ JS.or (JS.shl b1 8) b0 = b0 + b1 * 256.
Proof.
  intros H0 H1. rewrite shl_byte by lia. change (2 ^ 8) with 256.
  change 256 with (2 ^ 8) at 1 3. split; apply or_add; lia.
Qed.

Lemma word24_bytes b0 b1 b2 :
  0 <= b0 < 256 -> 0 <= b1 < 256 -> 0 <= b2 < 256 ->
  JS.or (JS.or (JS.shl b2 16) (JS.shl b1 8)) b0 = b0 + b1 * 256 + b2 * 65536.
Proof.
  intros H0 H1 H2. rewrite !shl_byte by lia.
  destruct (or_add (b1 * 2 ^ 8) b2 16) as [-> _]; try lia.
  replace (b1 * 2 ^ 8 + b2 * 2 ^ 16) with ((b1 + b2 * 256) * 2 ^ 8) by lia.
  destruct (or_add b0 (b1 + b2 * 256) 8) as [-> _]; lia.
Qed.

Lemma word32_bytes b0 b1 b2 b3 :
  0 <= b0 < 256 -> 0 <= b1 < 256 -> 0 <= b2 < 256 -> 0 <= b3 < 256 ->
  word32 b0 b1 b2 b3 = b0 + b1 * 256 + b2 * 65536 + b3 * 16777216.
Proof.
  intros H0 H1 H2 H3. unfold word32. rewrite word24_bytes, shl_byte_24 by lia. lia.
Qed.

(** The byte that a store keeps of a 32-bit value shifted right. *)
Lemma shr_byte v s : 0 <= s < 32 -> JS.shr v s mod 256 = JS.ToUint32 v / 2 ^ s mod 256.
Proof.
  intros Hs. unfold JS.shr. rewrite (Z.mod_small s 32) by lia.
  rewrite Z.shiftr_div_pow2 by lia. reflexivity.
Qed.

Lemma low_byte v : v mod 256 = JS.ToUint32 v mod 256.
Proof. unfold JS.ToUint32. zlia. Qed.

Lemma low_byte_ToInt32 v : JS.ToInt32 v mod 256 = JS.ToUint32 v mod 256.
Proof. rewrite low_byte, ToUint32_ToInt32. reflexivity. Qed.

(** ** Fixed-width integers *)

Lemma _checkRead_ok this off n :
  let o := default (roffset this) off in
  noAssert this = true \/ (0 <= o /\ o + n <= capacity this) ->
  _checkRead off n this =
  (match off with None => set_roffset (roffset this + n) this | Some _ => this end, Ok o).
Proof.
  intros o H. unfold _checkRead. destruct off as [x|]; monad; cbn [noAssert buffer set_roffset].
  - destruct (noAssert this); cbn [negb]; [reflexivity|].
    destruct H as [H|[H1 H2]]; [discriminate|]. unfold capacity in H2.
    change (default (roffset this) (Some x)) with x in *. subst o.
    destruct (Z.ltb_spec x 0); [lia|].
    destruct (Z.gtb_spec (x + n) (Buffer.length (buffer this))); [lia|]. reflexivity.
  - destruct (noAssert this); cbn [negb]; [reflexivity|].
    destruct H as [H|[H1 H2]]; [discriminate|]. unfold capacity in H2.
    change (default (roffset this) None) with (roffset this) in *. subst o.
    destruct (Z.ltb_spec (roffset this) 0); [lia|].
    destruct (Z.gtb_spec (roffset this + n) (Buffer.length (buffer this))); [lia|].
    reflexivity.
Qed.

Section FixedWidthRuns.

Variable junk : nat -> Z.

(** Every fixed-width write is [_checkWrite] followed by stores. *)
Lemma fixed_write_run (store : Z -> Buffer.t -> Buffer.t) this value off n :
  let o := default (woffset this) off in
  0 <= o <= capacity this -> capacity this < 2 ^ 32 ->
  noAssert this = true \/ Z.max (2 * capacity this) (o + n) < 2 ^ 31 ->
  Z.max (2 * capacity this) (o + n) <= Buffer.MAX_LENGTH ->
  exists tail,
    (let* offset := _checkWrite junk value off n in
     modify (fun this => set_buffer (store offset (buffer this)) this)) this =
    (match off with
     | None => set_woffset (woffset this + n)
     | Some _ => fun this => this
     end (set_buffer (store o (buffer this ++ tail)) this), Ok tt) /\
    o + n <= Buffer.length (buffer this ++ tail) /\
    (if o + n >? capacity this
     then Buffer.length (buffer this ++ tail) = Z.max (2 * capacity this) (o + n)
     else tail = []).
Proof.
  intros o Ho Hcap Hn Hmax.
  destruct (_checkWrite_run junk this value off n Ho Hcap Hn Hmax) as (tail & E & G).
  exists tail. split; [|exact G]. unfold bind. rewrite E. fold o.
  destruct off; reflexivity.
Qed.

End FixedWidthRuns.

Ltac bytes_get :=
  repeat first
    [ rewrite Buffer_get_set_eq by (rewrite ?Buffer_length_set; lia)
    | rewrite Buffer_get_set_ne by lia ].

Lemma store32LE_bytes v o (b : list Z) :
  0 <= o -> o + 4 <= Buffer.length b ->
  let b' := store32LE v o b in
  Buffer.length b' = Buffer.length b /\
  Buffer.get b' o = Some (JS.ToUint32 v mod 256) /\
  Buffer.get b' (o + 1) = Some (JS.ToUint32 v / 2 ^ 8 mod 256) /\
  Buffer.get b' (o + 2) = Some (JS.ToUint32 v / 2 ^ 16 mod 256) /\
  Buffer.get b' (o + 3) = Some (JS.ToUint32 v / 2 ^ 24 mod 256) /\
  forall i, i < o \/ o + 4 <= i -> Buffer.get b' i = Buffer.get b i.
Proof.
  intros Ho Hlen b'. unfold b', store32LE.
  split; [rewrite !Buffer_length_set; reflexivity|].
  repeat split; try (intros i Hi); bytes_get;
    rewrite ?shr_byte by lia; rewrite <- ?low_byte; reflexivity.
Qed.

Lemma store32BE_bytes v o (b : list Z) :
  0 <= o -> o + 4 <= Buffer.length b ->
  let b' := store32BE v o b in
  Buffer.length b' = Buffer.length b /\
  Buffer.get b' o = Some (JS.ToUint32 v / 2 ^ 24 mod 256) /\
  Buffer.get b' (o + 1) = Some (JS.ToUint32 v / 2 ^ 16 mod 256) /\
  Buffer.get b' (o + 2) = Some (JS.ToUint32 v / 2 ^ 8 mod 256) /\
  Buffer.get b' (o + 3) = Some (JS.ToUint32 v mod 256) /\
  forall i, i < o \/ o + 4 <= i -> Buffer.get b' i = Buffer.get b i.
Proof.
  intros Ho Hlen b'. unfold b', store32BE.
  split; [rewrite !Buffer_length_set; reflexivity|].
  repeat split; try (intros i Hi); bytes_get;
    rewrite ?shr_byte by lia; rewrite <- ?low_byte; reflexivity.
Qed.

Lemma uint32_bytes u :
  0 <= u < 2 ^ 32 ->
  u mod 256 + u / 2 ^ 8 mod 256 * 256 + u / 2 ^ 16 mod 256 * 65536
  + u / 2 ^ 24 mod 256 * 16777216 = u.
Proof.
  intros Hu. change (2 ^ 8) with 256. change (2 ^ 16) with 65536.
  change (2 ^ 24) with 16777216. zlia.
Qed.

Lemma byteAt_get this i b : Buffer.get (buffer this) i = Some b -> byteAt this i = b.
Proof. intros H. unfold byteAt. rewrite H. reflexivity. Qed.

Lemma read32_values this off b0 b1 b2 b3 :
  let o := default (roffset this) off in
  let next := match off with None => set_roffset (roffset this + 4) this | Some _ => this end in
  noAssert this = true \/ (0 <= o /\ o + 4 <= capacity this) ->
  Buffer.get (buffer this) o = Some b0 -> Buffer.get (buffer this) (o + 1) = Some b1 ->
  Buffer.get (buffer this) (o + 2) = Some b2 -> Buffer.get (buffer this) (o + 3) = Some b3 ->
  0 <= b0 < 256 -> 0 <= b1 < 256 -> 0 <= b2 < 256 -> 0 <= b3 < 256 ->
  let le := b0 + b1 * 256 + b2 * 65536 + b3 * 16777216 in
  let be := b3 + b2 * 256 + b1 * 65536 + b0 * 16777216 in
  readUInt32LE off this = (next, Ok le) /\
  readInt32LE off this = (next, Ok (JS.ToInt32 le)) /\
  readUInt32BE off this = (next, Ok be) /\
  readInt32BE off this = (next, Ok (JS.ToInt32 be)).
Proof.
  intros o next Hok G0 G1 G2 G3 H0 H1 H2 H3 le be.
  pose proof (_checkRead_ok this off 4 Hok) as E. fold o in E.
  assert (Hb : forall i b, Buffer.get (buffer this) i = Some b -> byteAt next i = b).
  { intros i b H. unfold next. destruct off; apply byteAt_get; exact H. }
  unfold readUInt32LE, readInt32LE, readUInt32BE, readInt32BE, bind.
  rewrite E. fold next. unfold get, ret.
  rewrite (Hb _ _ G0), (Hb _ _ G1), (Hb _ _ G2), (Hb _ _ G3).
  rewrite !word32_bytes by assumption. repeat split.
Qed.

Lemma read32_stored this roff u :
  let o := default (roffset this) roff in
  let next := match roff with None => set_roffset (roffset this + 4) this | Some _ => this end in
  0 <= o -> o + 4 <= capacity this -> 0 <= u < 2 ^ 32 ->
  (Buffer.get (buffer this) o = Some (u mod 256) ->
   Buffer.get (buffer this) (o + 1) = Some (u / 2 ^ 8 mod 256) ->
   Buffer.get (buffer this) (o + 2) = Some (u / 2 ^ 16 mod 256) ->
   Buffer.get (buffer this) (o + 3) = Some (u / 2 ^ 24 mod 256) ->
   readInt32LE roff this = (next, Ok (JS.ToInt32 u)) /\
   readUInt32LE roff this = (next, Ok u)) /\
  (Buffer.get (buffer this) o = Some (u / 2 ^ 24 mod 256) ->
   Buffer.get (buffer this) (o + 1) = Some (u / 2 ^ 16 mod 256) ->
   Buffer.get (buffer this) (o + 2) = Some (u / 2 ^ 8 mod 256) ->
   Buffer.get (buffer this) (o + 3) = Some (u mod 256) ->
   readInt32BE roff this = (next, Ok (JS.ToInt32 u)) /\
   readUInt32BE roff this = (next, Ok u)).
Proof.
  intros o next Ho Hlen Hu.
  pose proof (uint32_bytes u Hu) as Hsum. change (2 ^ 8) with 256 in Hsum.
  assert (Hk : forall k, 0 <= u / 2 ^ k mod 256 < 256)
    by (intros; apply Z.mod_pos_bound; lia).
  assert (H0 : 0 <= u mod 256 < 256) by (apply Z.mod_pos_bound; lia).
  split; intros G0 G1 G2 G3.
  - destruct (read32_values this roff _ _ _ _ (or_intror (conj Ho Hlen)) G0 G1 G2 G3
                H0 (Hk 8) (Hk 16) (Hk 24)) as (R1 & R2 & _).
    fold next in R1, R2. change (2 ^ 8) with 256 in *. rewrite Hsum in R1, R2.
    split; assumption.
  - destruct (read32_values this roff _ _ _ _ (or_intror (conj Ho Hlen)) G0 G1 G2 G3
                (Hk 24) (Hk 16) (Hk 8) H0) as (_ & _ & R1 & R2).
    fold next in R1, R2. change (2 ^ 8) with 256 in *.
    replace (u mod 256 + u / 256 mod 256 * 256 + u / 2 ^ 16 mod 256 * 65536
             + u / 2 ^ 24 mod 256 * 16777216) with u in R1, R2 by lia.
    split; assumption.
Qed.

Section Int32.

Variable junk : nat -> Z.

Lemma store32_roundtrip this x v woff roff :
  let o := default (woffset this) woff in
  0 <= o <= capacity this -> capacity this < 2 ^ 32 ->
  noAssert this = true \/ Z.max (2 * capacity this) (o + 4) < 2 ^ 31 ->
  default (roffset this) roff = o -> JS.ToUint32 x = JS.ToUint32 v ->
  let next this' :=
    match roff with None => set_roffset (o + 4) this' | Some _ => this' end in
  (exists this',
      (let* offset := _checkWrite junk x woff 4 in
       modify (fun this => set_buffer (store32LE x offset (buffer this)) this)) this
      = (this', Ok tt) /\
      readInt32LE roff this' = (next this', Ok (JS.ToInt32 v)) /\
      readUInt32LE roff this' = (next this', Ok (JS.ToUint32 v))) /\
  (exists this',
      (let* offset := _checkWrite junk x woff 4 in
       modify (fun this => set_buffer (store32BE x offset (buffer this)) this)) this
      = (this', Ok tt) /\
      readInt32BE roff this' = (next this', Ok (JS.ToInt32 v)) /\
      readUInt32BE roff this' = (next this', Ok (JS.ToUint32 v))).
Proof.
  intros o Ho Hcap Hn Hr Hx next. pose proof (ToUint32_range v) as Hv.
  assert (Hmax : Z.max (2 * capacity this) (o + 4) <= Buffer.MAX_LENGTH)
    by (unfold Buffer.MAX_LENGTH; lia).
  split.
  - destruct (fixed_write_run junk (store32LE x) this x woff 4 Ho Hcap Hn Hmax)
      as (tail & W & Hlen & _). fold o in W, Hlen.
    destruct (store32LE_bytes x o (buffer this ++ tail) ltac:(lia) Hlen)
      as (L & G0 & G1 & G2 & G3 & _). rewrite Hx in G0, G1, G2, G3.
    eexists. split; [exact W|].
    match goal with |- context [readInt32LE roff ?t] => set (this' := t) end.
    assert (Hb : buffer this' = store32LE x o (buffer this ++ tail))
      by (unfold this'; destruct woff; reflexivity).
    assert (Hro : roffset this' = roffset this)
      by (unfold this'; destruct woff; reflexivity).
    destruct (read32_stored this' roff (JS.ToUint32 v)) as [R _].
    + rewrite Hro, Hr. lia.
    + rewrite Hro, Hr. unfold capacity. rewrite Hb, L. exact Hlen.
    + exact Hv.
    + rewrite Hro, Hr, Hb in R. specialize (R G0 G1 G2 G3).
      rewrite ToInt32_ToUint32 in R. unfold next.
      destruct roff; [exact R|]. cbn in Hr. rewrite Hr in R. exact R.
  - destruct (fixed_write_run junk (store32BE x) this x woff 4 Ho Hcap Hn Hmax)
      as (tail & W & Hlen & _). fold o in W, Hlen.
    destruct (store32BE_bytes x o (buffer this ++ tail) ltac:(lia) Hlen)
      as (L & G0 & G1 & G2 & G3 & _). rewrite Hx in G0, G1, G2, G3.
    eexists. split; [exact W|].
    match goal with |- context [readInt32BE roff ?t] => set (this' := t) end.
    assert (Hb : buffer this' = store32BE x o (buffer this ++ tail))
      by (unfold this'; destruct woff; reflexivity).
    assert (Hro : roffset this' = roffset this)
      by (unfold this'; destruct woff; reflexivity).
    destruct (read32_stored this' roff (JS.ToUint32 v)) as [_ R].
    + rewrite Hro, Hr. lia.
    + rewrite Hro, Hr. unfold capacity. rewrite Hb, L. exact Hlen.
    + exact Hv.
    + rewrite Hro, Hr, Hb in R. specialize (R G0 G1 G2 G3).
      rewrite ToInt32_ToUint32 in R. unfold next.
      destruct roff; [exact R|]. cbn in Hr. rewrite Hr in R. exact R.
Qed.

(** X4. A 32-bit integer written with [writeInt32LE] or [writeUInt32LE] and
    read at the same offset with [readInt32LE] comes back as [v | 0], with
    [readUInt32LE] as [v >>> 0]; the same holds for the four big-endian
    methods.  The write may grow the store; the reads are absolute or
    relative with the read cursor at the offset of the write. *)
Theorem int32_roundtrip this v woff roff :
  let o := default (woffset this) woff in
  0 <= o <= capacity this -> capacity this < 2 ^ 32 ->
  noAssert this = true \/ Z.max (2 * capacity this) (o + 4) < 2 ^ 31 ->
  default (roffset this) roff = o ->
  let next this' :=
    match roff with None => set_roffset (o + 4) this' | Some _ => this' end in
  (forall write,
      write = writeInt32LE junk \/ write = writeUInt32LE junk ->
      exists this',
        write v woff this = (this', Ok tt) /\
        readInt32LE roff this' = (next this', Ok (JS.ToInt32 v)) /\
        readUInt32LE roff this' = (next this', Ok (JS.ToUint32 v))) /\
  (forall write,
      write = writeInt32BE junk \/ write = writeUInt32BE junk ->
      exists this',
        write v woff this = (this', Ok tt) /\
        readInt32BE roff this' = (next this', Ok (JS.ToInt32 v)) /\
        readUInt32BE roff this' = (next this', Ok (JS.ToUint32 v))).
Proof.
  intros o Ho Hcap Hn Hr next.
  split; intros write [->| ->].
  - apply (store32_roundtrip this (JS.ToInt32 v) v woff roff Ho Hcap Hn Hr).
    apply ToUint32_ToInt32.
  - apply (store32_roundtrip this (JS.ToUint32 v) v woff roff Ho Hcap Hn Hr).
    unfold JS.ToUint32. apply Z.mod_mod. lia.
  - apply (store32_roundtrip this (JS.ToInt32 v) v woff roff Ho Hcap Hn Hr).
    apply ToUint32_ToInt32.
  - apply (store32_roundtrip this (JS.ToUint32 v) v woff roff Ho Hcap Hn Hr).
    unfold JS.ToUint32. apply Z.mod_mod. lia.
Qed.

End Int32.

Lemma int32_roundtrip_witness :
  let this := mkSmartBuffer [0; 0] 1 1 false in
  exists this',
    writeInt32BE (fun _ => 0) (-2) None this = (this', Ok tt) /\
    readInt32BE None this' = (set_roffset (1 + 4) this', Ok (JS.ToInt32 (-2))) /\
    readUInt32BE None this' = (set_roffset (1 + 4) this', Ok (JS.ToUint32 (-2))).
Proof.
  intros this.
  destruct (int32_roundtrip (fun _ => 0) this (-2) None None) as [_ H].
  - unfold capacity, Buffer.length. simpl. lia.
  - unfold capacity, Buffer.length. simpl. lia.
  - right. unfold capacity, Buffer.length. simpl. lia.
  - reflexivity.
  - apply H. left. reflexivity.
Defined.

Lemma land_pow2 x k :
  0 <= k -> Z.land x (2 ^ k) = if Z.testbit x k then 2 ^ k else 0.
Proof.
  intros Hk. apply Z.bits_inj'. intros i Hi.
  rewrite Z.land_spec, Z.pow2_bits_eqb by lia.
  destruct (Z.eqb_spec k i) as [->|Hne].
  - destruct (Z.testbit x i) eqn:E; cbn [andb].
    + rewrite Z.pow2_bits_eqb, Z.eqb_refl by lia. reflexivity.
    + rewrite Z.bits_0. reflexivity.
  - rewrite andb_false_r. destruct (Z.testbit x k).
    + rewrite Z.pow2_bits_eqb by lia. symmetry. apply Z.eqb_neq. exact Hne.
    + rewrite Z.bits_0. reflexivity.
Qed.

Lemma and_0x8000 x :
  0 <= x < 65536 -> (JS.and x 0x8000 =? 0x8000) = negb (x <? 32768).
Proof.
  intros Hx. unfold JS.and. rewrite !ToInt32_id by lia.
  change 32768 with (2 ^ 15) at 1. rewrite land_pow2 by lia.
  rewrite Z.testbit_odd, Z.shiftr_div_pow2 by lia. change (2 ^ 15) with 32768.
  destruct (Z.ltb_spec x 32768).
  - rewrite Z.div_small by lia. reflexivity.
  - replace (x / 32768) with 1 by zlia. reflexivity.
Qed.

Lemma store16_bytes v o (b : list Z) :
  0 <= o -> o + 2 <= Buffer.length b ->
  (Buffer.length (store16LE v o b) = Buffer.length b /\
   Buffer.get (store16LE v o b) o = Some (JS.ToUint32 v mod 256) /\
   Buffer.get (store16LE v o b) (o + 1) = Some (JS.ToUint32 v / 2 ^ 8 mod 256)) /\
  (Buffer.length (store16BE v o b) = Buffer.length b /\
   Buffer.get (store16BE v o b) o = Some (JS.ToUint32 v / 2 ^ 8 mod 256) /\
   Buffer.get (store16BE v o b) (o + 1) = Some (JS.ToUint32 v mod 256)).
Proof.
  intros Ho Hlen. unfold store16LE, store16BE.
  repeat split; rewrite ?Buffer_length_set; try reflexivity; bytes_get;
    rewrite ?shr_byte by lia; rewrite <- ?low_byte; reflexivity.
Qed.

(** The 16-bit value of a 32-bit one, unsigned and signed. *)
Lemma uint16_bytes u :
  u mod 256 + u / 2 ^ 8 mod 256 * 256 = u mod 65536.
Proof. change (2 ^ 8) with 256. zlia. Qed.

Lemma read16_values this off b0 b1 :
  let o := default (roffset this) off in
  let next := match off with None => set_roffset (roffset this + 2) this | Some _ => this end in
  noAssert this = true \/ (0 <= o /\ o + 2 <= capacity this) ->
  Buffer.get (buffer this) o = Some b0 -> Buffer.get (buffer this) (o + 1) = Some b1 ->
  0 <= b0 < 256 -> 0 <= b1 < 256 ->
  let signed x := if x <? 32768 then x else x - 65536 in
  readUInt16LE off this = (next, Ok (b0 + b1 * 256)) /\
  readInt16LE off this = (next, Ok (signed (b0 + b1 * 256))) /\
  readUInt16BE off this = (next, Ok (b1 + b0 * 256)) /\
  readInt16BE off this = (next, Ok (signed (b1 + b0 * 256))).
Proof.
  intros o next Hok G0 G1 H0 H1 signed.
  pose proof (_checkRead_ok this off 2 Hok) as E. fold o in E.
  assert (Hb : forall i b, Buffer.get (buffer this) i = Some b -> byteAt next i = b).
  { intros i b H. unfold next. destruct off; apply byteAt_get; exact H. }
  unfold readUInt16LE, readInt16LE, readUInt16BE, readInt16BE, bind.
  rewrite E. fold next. unfold get, ret.
  rewrite (Hb _ _ G0), (Hb _ _ G1).
  destruct (word16_bytes b0 b1 H0 H1) as [-> _].
  destruct (word16_bytes b1 b0 H1 H0) as [_ ->].
  rewrite !and_0x8000 by lia. unfold signed.
  destruct (Z.ltb_spec (b0 + b1 * 256) 32768); destruct (Z.ltb_spec (b1 + b0 * 256) 32768);
    cbn [negb]; repeat split; f_equal; f_equal; lia.
Qed.

Section Int16.

Variable junk : nat -> Z.

Lemma store16_roundtrip this x v woff roff :
  let o := default (woffset this) woff in
  0 <= o <= capacity this -> capacity this < 2 ^ 32 ->
  noAssert this = true \/ Z.max (2 * capacity this) (o + 2) < 2 ^ 31 ->
  default (roffset this) roff = o -> JS.ToUint32 x = JS.ToUint32 v ->
  let next this' :=
    match roff with None => set_roffset (o + 2) this' | Some _ => this' end in
  let u := JS.ToUint32 v mod 65536 in
  let s := if u <? 32768 then u else u - 65536 in
  (exists this',
      (let* offset := _checkWrite junk x woff 2 in
       modify (fun this => set_buffer (store16LE x offset (buffer this)) this)) this
      = (this', Ok tt) /\
      readInt16LE roff this' = (next this', Ok s) /\
      readUInt16LE roff this' = (next this', Ok u)) /\
  (exists this',
      (let* offset := _checkWrite junk x woff 2 in
       modify (fun this => set_buffer (store16BE x offset (buffer this)) this)) this
      = (this', Ok tt) /\
      readInt16BE roff this' = (next this', Ok s) /\
      readUInt16BE roff this' = (next this', Ok u)).
Proof.
  intros o Ho Hcap Hn Hr Hx next u s.
  assert (Hmax : Z.max (2 * capacity this) (o + 2) <= Buffer.MAX_LENGTH)
    by (unfold Buffer.MAX_LENGTH; lia).
  assert (Hk : forall k, 0 <= JS.ToUint32 v / 2 ^ k mod 256 < 256)
    by (intros; apply Z.mod_pos_bound; lia).
  assert (H0 : 0 <= JS.ToUint32 v mod 256 < 256) by (apply Z.mod_pos_bound; lia).
  pose proof (uint16_bytes (JS.ToUint32 v)) as Hsum. fold u in Hsum.
  split.
  - destruct (fixed_write_run junk (store16LE x) this x woff 2 Ho Hcap Hn Hmax)
      as (tail & W & Hlen & _). fold o in W, Hlen.
    destruct (store16_bytes x o (buffer this ++ tail) ltac:(lia) Hlen)
      as [(L & G0 & G1) _]. rewrite Hx in G0, G1.
    eexists. split; [exact W|].
    match goal with |- context [readInt16LE roff ?t] => set (this' := t) end.
    assert (Hb : buffer this' = store16LE x o (buffer this ++ tail))
      by (unfold this'; destruct woff; reflexivity).
    assert (Hro : roffset this' = roffset this)
      by (unfold this'; destruct woff; reflexivity).
    destruct (read16_values this' roff (JS.ToUint32 v mod 256)
                (JS.ToUint32 v / 2 ^ 8 mod 256)) as (R1 & R2 & _).
    + right. rewrite Hro, Hr. unfold capacity. rewrite Hb, L. lia.
    + rewrite Hro, Hr, Hb. exact G0.
    + rewrite Hro, Hr, Hb. exact G1.
    + exact H0.
    + exact (Hk 8).
    + rewrite Hsum, Hro in R1, R2. unfold next, s.
      destruct roff; [split; assumption|]. cbn in Hr. rewrite Hr in R1, R2.
      split; assumption.
  - destruct (fixed_write_run junk (store16BE x) this x woff 2 Ho Hcap Hn Hmax)
      as (tail & W & Hlen & _). fold o in W, Hlen.
    destruct (store16_bytes x o (buffer this ++ tail) ltac:(lia) Hlen)
      as [_ (L & G0 & G1)]. rewrite Hx in G0, G1.
    eexists. split; [exact W|].
    match goal with |- context [readInt16BE roff ?t] => set (this' := t) end.
    assert (Hb : buffer this' = store16BE x o (buffer this ++ tail))
      by (unfold this'; destruct woff; reflexivity).
    assert (Hro : roffset this' = roffset this)
      by (unfold this'; destruct woff; reflexivity).
    destruct (read16_values this' roff (JS.ToUint32 v / 2 ^ 8 mod 256)
                (JS.ToUint32 v mod 256)) as (_ & _ & R1 & R2).
    + right. rewrite Hro, Hr. unfold capacity. rewrite Hb, L. lia.
    + rewrite Hro, Hr, Hb. exact G0.
    + rewrite Hro, Hr, Hb. exact G1.
    + exact (Hk 8).
    + exact H0.
    + rewrite Hsum, Hro in R1, R2. unfold next, s.
      destruct roff; [split; assumption|]. cbn in Hr. rewrite Hr in R1, R2.
      split; assumption.
Qed.

(** X2. A value written with [writeInt16LE] or [writeUInt16LE] and read at
    the same offset comes back reduced to 16 bits: [readUInt16LE] gives
    [v mod 2^16] and [readInt16LE] the same number in two's complement; the
    same holds for the four big-endian methods. *)
Theorem int16_roundtrip this v woff roff :
  let o := default (woffset this) woff in
  0 <= o <= capacity this -> capacity this < 2 ^ 32 ->
  noAssert this = true \/ Z.max (2 * capacity this) (o + 2) < 2 ^ 31 ->
  default (roffset this) roff = o ->
  let next this' :=
    match roff with None => set_roffset (o + 2) this' | Some _ => this' end in
  let u := JS.ToUint32 v mod 65536 in
  let s := if u <? 32768 then u else u - 65536 in
  (forall write,
      write = writeInt16LE junk \/ write = writeUInt16LE junk ->
      exists this',
        write v woff this = (this', Ok tt) /\
        readInt16LE roff this' = (next this', Ok s) /\
        readUInt16LE roff this' = (next this', Ok u)) /\
  (forall write,
      write = writeInt16BE junk \/ write = writeUInt16BE junk ->
      exists this',
        write v woff this = (this', Ok tt) /\
        readInt16BE roff this' = (next this', Ok s) /\
        readUInt16BE roff this' = (next this', Ok u)).
Proof.
  intros o Ho Hcap Hn Hr next u s.
  split; intros write [->| ->].
  - apply (store16_roundtrip this (JS.ToInt32 v) v woff roff Ho Hcap Hn Hr).
    apply ToUint32_ToInt32.
  - apply (store16_roundtrip this (JS.ToUint32 v) v woff roff Ho Hcap Hn Hr).
    unfold JS.ToUint32. apply Z.mod_mod. lia.
  - apply (store16_roundtrip this (JS.ToInt32 v) v woff roff Ho Hcap Hn Hr).
    apply ToUint32_ToInt32.
  - apply (store16_roundtrip this (JS.ToUint32 v) v woff roff Ho Hcap Hn Hr).
    unfold JS.ToUint32. apply Z.mod_mod. lia.
Qed.

End Int16.

Lemma int16_roundtrip_witness :
  let this := mkSmartBuffer [0; 0; 0] 1 1 false in
  exists this',
    writeInt16LE (fun _ => 0) (-2) (Some 1) this = (this', Ok tt) /\
    readInt16LE (Some 1) this' = (this', Ok (-2)) /\
    readUInt16LE (Some 1) this' = (this', Ok 65534).
Proof.
  intros this.
  destruct (int16_roundtrip (fun _ => 0) this (-2) (Some 1) (Some 1)) as [H _].
  - unfold capacity, Buffer.length. simpl. lia.
  - unfold capacity, Buffer.length. simpl. lia.
  - right. unfold capacity, Buffer.length. simpl. lia.
  - reflexivity.
  - apply H. left. reflexivity.
Defined.

Section Int24.

Variable junk : nat -> Z.

(** X3. A value written with [writeUInt24BE] and read at the same offset with
    [readUInt24BE] comes back as [v mod 2^24], most significant byte first in
    the store. *)
Theorem uint24_roundtrip this v woff roff :
  let o := default (woffset this) woff in
  0 <= o <= capacity this -> capacity this < 2 ^ 32 ->
  noAssert this = true \/ Z.max (2 * capacity this) (o + 3) < 2 ^ 31 ->
  default (roffset this) roff = o ->
  exists this',
    writeUInt24BE junk v woff this = (this', Ok tt) /\
    readUInt24BE roff this' =
    (match roff with None => set_roffset (o + 3) this' | Some _ => this' end,
     Ok (JS.ToUint32 v mod 2 ^ 24)) /\
    Buffer.get (buffer this') o = Some (JS.ToUint32 v / 2 ^ 16 mod 256).
Proof.
  intros o Ho Hcap Hn Hr. set (u := JS.ToUint32 v).
  assert (Hmax : Z.max (2 * capacity this) (o + 3) <= Buffer.MAX_LENGTH)
    by (unfold Buffer.MAX_LENGTH; lia).
  assert (Hk : forall k, 0 <= u / 2 ^ k mod 256 < 256)
    by (intros; apply Z.mod_pos_bound; lia).
  assert (H0 : 0 <= u mod 256 < 256) by (apply Z.mod_pos_bound; lia).
  assert (Huu : JS.ToUint32 u = u) by (unfold u, JS.ToUint32; apply Z.mod_mod; lia).
  destruct (fixed_write_run junk
              (fun offset b =>
                 Buffer.set (Buffer.set (Buffer.set b offset (JS.shr u 16))
                               (offset + 1) (JS.shr u 8)) (offset + 2) u)
              this u woff 3 Ho Hcap Hn Hmax) as (tail & W & Hlen & _).
  fold o in W, Hlen. cbv beta in W.
  eexists. split; [exact W|].
  match goal with |- context [readUInt24BE roff ?t] => set (this' := t) end.
  set (b' := Buffer.set (Buffer.set (Buffer.set (buffer this ++ tail) o (JS.shr u 16))
                           (o + 1) (JS.shr u 8)) (o + 2) u).
  assert (Hb : buffer this' = b') by (unfold this'; destruct woff; reflexivity).
  assert (Hro : roffset this' = roffset this)
    by (unfold this'; destruct woff; reflexivity).
  assert (G0 : Buffer.get b' o = Some (u / 2 ^ 16 mod 256)).
  { unfold b'. bytes_get. rewrite shr_byte, Huu by lia. reflexivity. }
  assert (G1 : Buffer.get b' (o + 1) = Some (u / 2 ^ 8 mod 256)).
  { unfold b'. bytes_get. rewrite shr_byte, Huu by lia. reflexivity. }
  assert (G2 : Buffer.get b' (o + 2) = Some (u mod 256)).
  { unfold b'. bytes_get. reflexivity. }
  split; [|rewrite Hb; exact G0].
  assert (Hok : noAssert this' = true \/
                (0 <= default (roffset this') roff /\
                 default (roffset this') roff + 3 <= capacity this')).
  { right. rewrite Hro, Hr. unfold capacity. rewrite Hb. unfold b'.
    rewrite !Buffer_length_set. lia. }
  pose proof (_checkRead_ok this' roff 3 Hok) as E. rewrite Hro, Hr in E.
  unfold readUInt24BE, bind. rewrite E. unfold get, ret.
  assert (Hbyte : forall i b, Buffer.get b' i = Some b ->
            byteAt (match roff with
                    | None => set_roffset (roffset this + 3) this'
                    | Some _ => this'
                    end) i = b).
  { intros i b H. apply byteAt_get. destruct roff; cbn [buffer set_roffset];
      rewrite Hb; exact H. }
  rewrite (Hbyte _ _ G0), (Hbyte _ _ G1), (Hbyte _ _ G2).
  rewrite word24_bytes by (try apply Hk; exact H0).
  assert (Hsum : u mod 256 + u / 2 ^ 8 mod 256 * 256 + u / 2 ^ 16 mod 256 * 65536
                 = u mod 2 ^ 24).
  { change (2 ^ 8) with 256. change (2 ^ 16) with 65536.
    change (2 ^ 24) with 16777216. zlia. }
  rewrite Hsum. rewrite ToInt32_id by (pose proof (Z.mod_pos_bound u (2 ^ 24)); lia).
  destruct roff; [reflexivity|]. cbn in Hr. rewrite Hr. reflexivity.
Qed.

End Int24.

Lemma uint24_roundtrip_witness :
  let this := mkSmartBuffer [0; 0; 0] 0 0 false in
  exists this',
    writeUInt24BE (fun _ => 0) 0x1234567 None this = (this', Ok tt) /\
    readUInt24BE None this' = (set_roffset (0 + 3) this', Ok (JS.ToUint32 0x1234567 mod 2 ^ 24)) /\
    Buffer.get (buffer this') 0 = Some (JS.ToUint32 0x1234567 / 2 ^ 16 mod 256).
Proof.
  intros this. apply (uint24_roundtrip (fun _ => 0) this 0x1234567 None None).
  - unfold capacity, Buffer.length. simpl. lia.
  - unfold capacity, Buffer.length. simpl. lia.
  - right. unfold capacity, Buffer.length. simpl. lia.
  - reflexivity.
Defined.

Section Int8.

Variable junk : nat -> Z.

Lemma store8_roundtrip this x v woff roff :
  let o := default (woffset this) woff in
  0 <= o <= capacity this -> capacity this < 2 ^ 32 ->
  noAssert this = true \/ Z.max (2 * capacity this) (o + 1) < 2 ^ 31 ->
  default (roffset this) roff = o -> JS.ToUint32 x = JS.ToUint32 v ->
  let u := JS.ToUint32 v mod 256 in
  exists this',
    (let* offset := _checkWrite junk x woff 1 in
     modify (fun this => set_buffer (Buffer.set (buffer this) offset x) this)) this
    = (this', Ok tt) /\
    readInt8 roff this' =
    (match roff with None => set_roffset (o + 1) this' | Some _ => this' end,
     Ok (Some (if u <? 128 then u else u - 256))) /\
    readUInt8 roff this' =
    (match roff with None => set_roffset (o + 1) this' | Some _ => this' end,
     Ok (Some u)).
Proof.
  intros o Ho Hcap Hn Hr Hx u.
  assert (Hmax : Z.max (2 * capacity this) (o + 1) <= Buffer.MAX_LENGTH)
    by (unfold Buffer.MAX_LENGTH; lia).
  assert (Hu : 0 <= u < 256) by (apply Z.mod_pos_bound; lia).
  destruct (fixed_write_run junk (fun offset b => Buffer.set b offset x)
              this x woff 1 Ho Hcap Hn Hmax) as (tail & W & Hlen & _).
  fold o in W, Hlen. cbv beta in W.
  eexists. split; [exact W|].
  match goal with |- context [readInt8 roff ?t] => set (this' := t) end.
  assert (Hb : buffer this' = Buffer.set (buffer this ++ tail) o x)
    by (unfold this'; destruct woff; reflexivity).
  assert (Hro : roffset this' = roffset this)
    by (unfold this'; destruct woff; reflexivity).
  assert (G : Buffer.get (buffer this') o = Some u).
  { rewrite Hb. bytes_get. rewrite low_byte, Hx. reflexivity. }
  assert (Hok : noAssert this' = true \/
                (0 <= default (roffset this') roff /\
                 default (roffset this') roff + 1 <= capacity this')).
  { right. rewrite Hro, Hr. unfold capacity. rewrite Hb, Buffer_length_set. lia. }
  pose proof (_checkRead_ok this' roff 1 Hok) as E. rewrite Hro, Hr in E.
  unfold readInt8, readUInt8, bind. rewrite E. unfold get, ret.
  assert (G' : Buffer.get (buffer (match roff with
                                   | None => set_roffset (roffset this + 1) this'
                                   | Some _ => this'
                                   end)) o = Some u)
    by (destruct roff; exact G).
  rewrite G'. change (JS.number (Some u)) with u. rewrite and_0x80 by exact Hu.
  assert (Hnext : match roff with
                  | None => set_roffset (roffset this + 1) this'
                  | Some _ => this'
                  end
                  = match roff with None => set_roffset (o + 1) this' | Some _ => this' end).
  { destruct roff; [reflexivity|]. cbn in Hr. rewrite Hr. reflexivity. }
  rewrite Hnext.
  destruct (Z.ltb_spec u 128) as [Hlt|Hge].
  - destruct (Z.ltb_spec u 0x80); [|lia]. split; reflexivity.
  - destruct (Z.ltb_spec u 0x80); [lia|]. change (128 =? 128) with true.
    cbv iota. split; [|reflexivity]. do 3 f_equal. lia.
Qed.

(** X1. A value written with [writeInt8] or [writeUInt8] and read at the same
    offset comes back reduced to 8 bits: [readUInt8] gives [v mod 256] and
    [readInt8] the same number in two's complement. *)
Theorem int8_roundtrip this v woff roff :
  let o := default (woffset this) woff in
  0 <= o <= capacity this -> capacity this < 2 ^ 32 ->
  noAssert this = true \/ Z.max (2 * capacity this) (o + 1) < 2 ^ 31 ->
  default (roffset this) roff = o ->
  let u := JS.ToUint32 v mod 256 in
  forall write,
    write = writeInt8 junk \/ write = writeUInt8 junk ->
    exists this',
      write v woff this = (this', Ok tt) /\
      readInt8 roff this' =
      (match roff with None => set_roffset (o + 1) this' | Some _ => this' end,
       Ok (Some (if u <? 128 then u else u - 256))) /\
      readUInt8 roff this' =
      (match roff with None => set_roffset (o + 1) this' | Some _ => this' end,
       Ok (Some u)).
Proof.
  intros o Ho Hcap Hn Hr u write [->| ->].
  - apply (store8_roundtrip this (JS.ToInt32 v) v woff roff Ho Hcap Hn Hr).
    apply ToUint32_ToInt32.
  - apply (store8_roundtrip this (JS.ToUint32 v) v woff roff Ho Hcap Hn Hr).
    unfold JS.ToUint32. apply Z.mod_mod. lia.
Qed.

End Int8.

Lemma int8_roundtrip_witness :
  let this := mkSmartBuffer [0] 1 1 false in
  exists this',
    writeInt8 (fun _ => 0) 200 None this = (this', Ok tt) /\
    readInt8 None this' = (set_roffset (1 + 1) this', Ok (Some (-56))) /\
    readUInt8 None this' = (set_roffset (1 + 1) this', Ok (Some 200)).
Proof.
  intros this.
  apply (int8_roundtrip (fun _ => 0) this 200 None None).
  - unfold capacity, Buffer.length. simpl. lia.
  - unfold capacity, Buffer.length. simpl. lia.
  - right. unfold capacity, Buffer.length. simpl. lia.
  - reflexivity.
  - left. reflexivity.
Defined.

Section ByteOrder.

Variable junk : nat -> Z.

(** X5. [writeUInt32LE] and [writeUInt32BE] store the same four bytes in
    opposite orders and touch no other byte: the big-endian write puts the
    most significant byte at the offset, the little-endian write the least
    significant one.  Both move the cursors in the same way. *)
Theorem int32_byte_order this v woff :
  let o := default (woffset this) woff in
  let u := JS.ToUint32 v in
  0 <= o <= capacity this -> capacity this < 2 ^ 32 ->
  noAssert this = true \/ Z.max (2 * capacity this) (o + 4) < 2 ^ 31 ->
  exists le be,
    writeUInt32LE junk v woff this = (le, Ok tt) /\
    writeUInt32BE junk v woff this = (be, Ok tt) /\
    Buffer.get (buffer be) o = Some (u / 2 ^ 24 mod 256) /\
    Buffer.get (buffer le) o = Some (u mod 256) /\
    (forall i, 0 <= i < 4 ->
               Buffer.get (buffer be) (o + i) = Buffer.get (buffer le) (o + 3 - i)) /\
    (forall i, 0 <= i < o ->
               Buffer.get (buffer be) i = Buffer.get (buffer this) i /\
               Buffer.get (buffer le) i = Buffer.get (buffer this) i) /\
    (forall i, o + 4 <= i ->
               Buffer.get (buffer be) i = Buffer.get (buffer le) i) /\
    capacity be = capacity le /\
    woffset be = woffset le /\ roffset be = roffset this /\ roffset le = roffset this.
Proof.
  intros o u Ho Hcap Hn.
  assert (Hmax : Z.max (2 * capacity this) (o + 4) <= Buffer.MAX_LENGTH)
    by (unfold Buffer.MAX_LENGTH; lia).
  assert (Huu : JS.ToUint32 u = u) by (unfold u, JS.ToUint32; apply Z.mod_mod; lia).
  destruct (_checkWrite_run junk this u woff 4 Ho Hcap Hn Hmax) as (tail & E & Hlen & _).
  fold o in E, Hlen.
  destruct (store32LE_bytes u o (buffer this ++ tail) ltac:(lia) Hlen)
    as (LL & L0 & L1 & L2 & L3 & Lrest).
  destruct (store32BE_bytes u o (buffer this ++ tail) ltac:(lia) Hlen)
    as (BL & B0 & B1 & B2 & B3 & Brest).
  rewrite Huu in *.
  set (t1 := match woff with
             | None => set_woffset (woffset this + 4)
                         (set_buffer (buffer this ++ tail) this)
             | Some _ => set_buffer (buffer this ++ tail) this
             end) in E.
  assert (Hbuf : buffer t1 = buffer this ++ tail) by (unfold t1; destruct woff; reflexivity).
  assert (Hro : roffset t1 = roffset this) by (unfold t1; destruct woff; reflexivity).
  exists (set_buffer (store32LE u o (buffer t1)) t1),
         (set_buffer (store32BE u o (buffer t1)) t1).
  unfold writeUInt32LE, writeUInt32BE, bind. fold u. rewrite E. unfold modify.
  split; [reflexivity|]. split; [reflexivity|].
  unfold capacity. cbn [buffer set_buffer roffset woffset]. rewrite Hbuf, Hro.
  split; [exact B0|]. split; [exact L0|].
  split.
  { intros i Hi.
    assert (i = 0 \/ i = 1 \/ i = 2 \/ i = 3) as [->|[->|[->| ->]]] by lia.
    - rewrite Z.add_0_r. replace (o + 3 - 0) with (o + 3) by lia. congruence.
    - replace (o + 3 - 1) with (o + 2) by lia. congruence.
    - replace (o + 3 - 2) with (o + 1) by lia. congruence.
    - replace (o + 3 - 3) with o by lia. congruence. }
  split.
  { intros i Hi. rewrite Brest, Lrest by lia.
    unfold capacity in Ho. split; apply grown_get; lia. }
  split.
  { intros i Hi. rewrite Brest, Lrest by lia. reflexivity. }
  split; [congruence|]. repeat split; reflexivity.
Qed.

End ByteOrder.

Lemma int32_byte_order_witness :
  exists le be,
    writeUInt32LE (fun _ => 0) 0x01020304 (Some 0) (mkSmartBuffer [9; 9; 9; 9] 0 0 false)
    = (le, Ok tt) /\
    writeUInt32BE (fun _ => 0) 0x01020304 (Some 0) (mkSmartBuffer [9; 9; 9; 9] 0 0 false)
    = (be, Ok tt) /\
    Buffer.get (buffer be) 0 = Some (JS.ToUint32 0x01020304 / 2 ^ 24 mod 256) /\
    Buffer.get (buffer le) 0 = Some (JS.ToUint32 0x01020304 mod 256).
Proof.
  destruct (int32_byte_order (fun _ => 0) (mkSmartBuffer [9; 9; 9; 9] 0 0 false)
              0x01020304 (Some 0)) as (le & be & H1 & H2 & H3 & H4 & _).
  - unfold capacity, Buffer.length. simpl. lia.
  - unfold capacity, Buffer.length. simpl. lia.
  - right. unfold capacity, Buffer.length. simpl. lia.
  - exists le, be. repeat split; assumption.
Defined.

(** ** Bounds *)

Lemma _checkRead_out_of_range this o n :
  noAssert this = false -> o < 0 \/ o + n > capacity this ->
  _checkRead (Some o) n this = (this, Throw (RangeError "Illegal offset")).
Proof.
  intros Hna H. unfold _checkRead, capacity in *. monad. rewrite Hna. cbn [negb].
  destruct (Z.ltb_spec o 0); [reflexivity|].
  destruct (Z.gtb_spec (o + n) (Buffer.length (buffer this))); [reflexivity|lia].
Qed.

(** X6. With assertions enabled, a fixed-width read at an explicit offset
    that would leave the store ([offset < 0] or [offset + width > capacity])
    throws a range error and leaves the buffer exactly as it was; this holds
    for each of the eleven integer reads. *)
Theorem fixed_read_out_of_range this o :
  noAssert this = false ->
  let fails {A} (read : optional -> M SmartBuffer A) :=
    read (Some o) this = (this, Throw (RangeError "Illegal offset")) in
  (o < 0 \/ o + 1 > capacity this -> fails readInt8 /\ fails readUInt8) /\
  (o < 0 \/ o + 2 > capacity this ->
   fails readInt16LE /\ fails readInt16BE /\ fails readUInt16LE /\ fails readUInt16BE) /\
  (o < 0 \/ o + 3 > capacity this -> fails readUInt24BE) /\
  (o < 0 \/ o + 4 > capacity this ->
   fails readInt32LE /\ fails readInt32BE /\ fails readUInt32LE /\ fails readUInt32BE).
Proof.
  intros Hna fails. unfold fails.
  repeat split; intros;
    unfold readInt8, readUInt8, readInt16LE, readInt16BE, readUInt16LE, readUInt16BE,
      readUInt24BE, readInt32LE, readInt32BE, readUInt32LE, readUInt32BE, bind;
    rewrite _checkRead_out_of_range by assumption; reflexivity.
Qed.

Lemma fixed_read_out_of_range_witness :
  readInt32LE (Some 1) (mkSmartBuffer [1; 2; 3; 4] 4 0 false)
  = (mkSmartBuffer [1; 2; 3; 4] 4 0 false, Throw (RangeError "Illegal offset")).
Proof.
  destruct (fixed_read_out_of_range (mkSmartBuffer [1; 2; 3; 4] 4 0 false) 1)
    as (_ & _ & _ & H); [reflexivity|].
  apply H. right. unfold capacity, Buffer.length. simpl. lia.
Defined.

Section WriteBounds.

Variable junk : nat -> Z.

Lemma _checkWrite_out_of_range this value o n :
  noAssert this = false -> JS.ToUint32 o > capacity this ->
  _checkWrite junk value (Some o) n this = (this, Throw (RangeError "Illegal offset")).
Proof.
  intros Hna H. unfold _checkWrite, capacity in *. monad. rewrite Hna. cbn [negb].
  destruct (Z.ltb_spec (JS.ToUint32 o) 0); [reflexivity|].
  destruct (Z.gtb_spec (JS.ToUint32 o + 0) (Buffer.length (buffer this))); [reflexivity|lia].
Qed.

(** X7. With assertions enabled, a fixed-width write at an explicit offset
    beyond the capacity throws a range error and leaves the buffer exactly as
    it was.  The offset is first reduced with [>>> 0], so a negative offset
    counts as a large one and is refused as well. *)
Theorem fixed_write_out_of_range this v o :
  noAssert this = false -> JS.ToUint32 o > capacity this ->
  let fails (write : Z -> optional -> M SmartBuffer unit) :=
    write v (Some o) this = (this, Throw (RangeError "Illegal offset")) in
  fails (writeInt8 junk) /\ fails (writeUInt8 junk) /\
  fails (writeInt16LE junk) /\ fails (writeInt16BE junk) /\
  fails (writeUInt16LE junk) /\ fails (writeUInt16BE junk) /\
  fails (writeUInt24BE junk) /\
  fails (writeInt32LE junk) /\ fails (writeInt32BE junk) /\
  fails (writeUInt32LE junk) /\ fails (writeUInt32BE junk).
Proof.
  intros Hna Ho fails. unfold fails.
  repeat split;
    unfold writeInt8, writeUInt8, writeInt16LE, writeInt16BE, writeUInt16LE,
      writeUInt16BE, writeUInt24BE, writeInt32LE, writeInt32BE, writeUInt32LE,
      writeUInt32BE, bind;
    rewrite _checkWrite_out_of_range by assumption; reflexivity.
Qed.

End WriteBounds.

Lemma fixed_write_out_of_range_witness :
  writeInt16BE (fun _ => 0) 7 (Some (-1)) (mkSmartBuffer [1; 2] 0 0 false)
  = (mkSmartBuffer [1; 2] 0 0 false, Throw (RangeError "Illegal offset")).
Proof.
  destruct (fixed_write_out_of_range (fun _ => 0) (mkSmartBuffer [1; 2] 0 0 false) 7 (-1))
    as (_ & _ & _ & H & _).
  - reflexivity.
  - unfold capacity, Buffer.length. vm_compute. reflexivity.
  - exact H.
Defined.

(** ** Skipping *)

Lemma skipRead_run this n :
  noAssert this = false ->
  let o := roffset this + JS.ToInt32 n in
  skipRead n this =
  if (o <? 0) || (o >? capacity this)
  then (this, Throw (RangeError "Illegal length"))
  else (set_roffset o this, Ok tt).
Proof.
  intros Hna o. unfold skipRead. monad. rewrite Hna. cbn [negb]. fold o.
  unfold capacity. destruct ((o <? 0) || (o >? Buffer.length (buffer this))); reflexivity.
Qed.

Lemma skipWrite_run this n :
  noAssert this = false ->
  let o := woffset this + JS.ToInt32 n in
  skipWrite n this =
  if (o <? 0) || (o >? capacity this)
  then (this, Throw (RangeError "Illegal length"))
  else (set_woffset o this, Ok tt).
Proof.
  intros Hna o. unfold skipWrite. monad. rewrite Hna. cbn [negb]. fold o.
  unfold capacity. destruct ((o <? 0) || (o >? Buffer.length (buffer this))); reflexivity.
Qed.

(** X8. With assertions enabled, [skipRead] and [skipWrite] check before they
    move: a skip that would leave the store throws a range error and changes
    nothing, and a skip that succeeds leaves its cursor inside the store.
    Two skips that succeed one after the other amount to one skip by the sum,
    so a skip forward followed by the same skip backward restores the
    buffer. *)
Theorem skip_checked this a b :
  noAssert this = false ->
  - 2 ^ 31 <= a < 2 ^ 31 -> - 2 ^ 31 <= b < 2 ^ 31 -> - 2 ^ 31 <= a + b < 2 ^ 31 ->
  (forall this' r,
      skipRead a this = (this', r) ->
      (r = Ok tt /\ 0 <= roffset this' <= capacity this' /\
       this' = set_roffset (roffset this + a) this) \/
      (r = Throw (RangeError "Illegal length") /\ this' = this)) /\
  (forall this' r,
      skipWrite a this = (this', r) ->
      (r = Ok tt /\ 0 <= woffset this' <= capacity this' /\
       this' = set_woffset (woffset this + a) this) \/
      (r = Throw (RangeError "Illegal length") /\ this' = this)) /\
  (forall this1 this2,
      skipRead a this = (this1, Ok tt) -> skipRead b this1 = (this2, Ok tt) ->
      skipRead (a + b) this = (this2, Ok tt)) /\
  (forall this1 this2,
      skipWrite a this = (this1, Ok tt) -> skipWrite b this1 = (this2, Ok tt) ->
      skipWrite (a + b) this = (this2, Ok tt)).
Proof.
  intros Hna Ha Hb Hab. repeat split.
  - intros this' r. rewrite skipRead_run by exact Hna. cbv zeta.
    rewrite ToInt32_id by exact Ha.
    destruct (Z.ltb_spec (roffset this + a) 0);
      destruct (Z.gtb_spec (roffset this + a) (capacity this)); cbn [orb];
      intros [= <- <-]; try (right; split; reflexivity).
    left. split; [reflexivity|]. split; [|reflexivity].
    unfold capacity in *. cbn [roffset buffer set_roffset]. lia.
  - intros this' r. rewrite skipWrite_run by exact Hna. cbv zeta.
    rewrite ToInt32_id by exact Ha.
    destruct (Z.ltb_spec (woffset this + a) 0);
      destruct (Z.gtb_spec (woffset this + a) (capacity this)); cbn [orb];
      intros [= <- <-]; try (right; split; reflexivity).
    left. split; [reflexivity|]. split; [|reflexivity].
    unfold capacity in *. cbn [woffset buffer set_woffset]. lia.
  - intros this1 this2. rewrite skipRead_run by exact Hna. cbv zeta.
    rewrite ToInt32_id by exact Ha.
    destruct ((roffset this + a <? 0) || (roffset this + a >? capacity this));
      [discriminate|]. intros [= <-].
    rewrite !skipRead_run by exact Hna. cbv zeta.
    rewrite (ToInt32_id b), (ToInt32_id (a + b)) by assumption.
    unfold capacity. cbn [roffset buffer set_roffset].
    replace (roffset this + a + b) with (roffset this + (a + b)) by lia.
    destruct ((roffset this + (a + b) <? 0)
              || (roffset this + (a + b) >? Buffer.length (buffer this)));
      [discriminate|]. intros [= <-]. reflexivity.
  - intros this1 this2. rewrite skipWrite_run by exact Hna. cbv zeta.
    rewrite ToInt32_id by exact Ha.
    destruct ((woffset this + a <? 0) || (woffset this + a >? capacity this));
      [discriminate|]. intros [= <-].
    rewrite !skipWrite_run by exact Hna. cbv zeta.
    rewrite (ToInt32_id b), (ToInt32_id (a + b)) by assumption.
    unfold capacity. cbn [woffset buffer set_woffset].
    replace (woffset this + a + b) with (woffset this + (a + b)) by lia.
    destruct ((woffset this + (a + b) <? 0)
              || (woffset this + (a + b) >? Buffer.length (buffer this)));
      [discriminate|]. intros [= <-]. reflexivity.
Qed.

Lemma skip_checked_witness :
  let this := mkSmartBuffer [0x12; 0x34; 0x56] 3 0 false in
  skipRead 3 this = (set_roffset 3 this, Ok tt) /\
  skipRead 1 (set_roffset 3 this) = (set_roffset 3 this, Throw (RangeError "Illegal length")) /\
  skipRead (3 + -3) this = (this, Ok tt).
Proof.
  intros this.
  destruct (skip_checked this 3 (-3)) as (H1 & _ & H3 & _); try reflexivity; try lia.
  destruct (skip_checked (set_roffset 3 this) 1 0) as (H1' & _); try reflexivity; try lia.
  split; [|split].
  - destruct (H1 _ _ eq_refl) as [(_ & _ & E)|(E & _)]; [|discriminate E].
    vm_compute. reflexivity.
  - destruct (H1' _ _ eq_refl) as [(E & _)|(_ & E)]; [discriminate E|].
    vm_compute. reflexivity.
  - apply (H3 (set_roffset 3 this) this); vm_compute; reflexivity.
Defined.

(** ** Ranges *)

Lemma checkRange_ok this b e :
  noAssert this = true \/ (0 <= b <= e /\ e <= capacity this /\ capacity this < 2 ^ 32) ->
  checkRange b e this = (this, Ok (b, e)).
Proof.
  intros H. unfold checkRange. monad.
  destruct (noAssert this); cbn [negb]; [reflexivity|].
  destruct H as [H|(H1 & H2 & H3)]; [discriminate|]. unfold capacity in *.
  rewrite !ToUint32_id by lia.
  destruct (Z.ltb_spec b 0); [lia|]. destruct (Z.gtb_spec b e); [lia|].
  destruct (Z.gtb_spec e (Buffer.length (buffer this))); [lia|]. reflexivity.
Qed.

Lemma checkRange_fails this b e :
  noAssert this = false ->
  JS.ToUint32 b > JS.ToUint32 e \/ JS.ToUint32 e > capacity this ->
  checkRange b e this = (this, Throw (RangeError "Illegal range")).
Proof.
  intros Hna H. unfold checkRange, capacity in *. monad. rewrite Hna. cbn [negb].
  destruct (Z.ltb_spec (JS.ToUint32 b) 0); [reflexivity|].
  destruct (Z.gtb_spec (JS.ToUint32 b) (JS.ToUint32 e)); [reflexivity|].
  destruct (Z.gtb_spec (JS.ToUint32 e) (Buffer.length (buffer this))); [reflexivity|lia].
Qed.

Lemma get_filled (l : list Z) b e x i :
  0 <= b <= e -> e <= Buffer.length l ->
  Buffer.get (take (Z.to_nat b) l ++ replicate (Z.to_nat (e - b)) x
                ++ drop (Z.to_nat e) l) i
  = if (b <=? i) && (i <? e) then Some x else Buffer.get l i.
Proof.
  intros Hb He. unfold Buffer.get, Buffer.length in *.
  rewrite !length_app, length_take, length_replicate, length_drop.
  replace (Z.of_nat (Z.to_nat b `min` List.length l
                     + (Z.to_nat (e - b) + (List.length l - Z.to_nat e))))
    with (Z.of_nat (List.length l)) by lia.
  assert (Hmin : (Z.to_nat b `min` List.length l = Z.to_nat b)%nat) by lia.
  destruct (Z.leb_spec 0 i); destruct (Z.ltb_spec i (Z.of_nat (List.length l)));
    cbn [andb]; destruct (Z.leb_spec b i); destruct (Z.ltb_spec i e); cbn [andb];
    try lia; try reflexivity.
  - rewrite lookup_app_r by (rewrite length_take, Hmin; lia).
    rewrite length_take, Hmin.
    rewrite lookup_app_l by (rewrite length_replicate; lia).
    apply lookup_replicate_2. lia.
  - rewrite lookup_app_r by (rewrite length_take, Hmin; lia).
    rewrite length_take, Hmin.
    rewrite lookup_app_r by (rewrite length_replicate; lia).
    rewrite length_replicate, lookup_drop. f_equal. lia.
  - rewrite lookup_app_l by (rewrite length_take, Hmin; lia).
    apply lookup_take_lt. lia.
Qed.

Lemma length_filled (l : list Z) b e x :
  0 <= b <= e -> e <= Buffer.length l ->
  Buffer.length (take (Z.to_nat b) l ++ replicate (Z.to_nat (e - b)) x
                   ++ drop (Z.to_nat e) l) = Buffer.length l.
Proof.
  intros Hb He. unfold Buffer.length in *.
  rewrite !length_app, length_take, length_replicate, length_drop. lia.
Qed.

Lemma fill_run this v begin end_ :
  let b := default (woffset this) begin in
  let e := default (capacity this) end_ in
  0 <= b <= e -> e <= capacity this -> capacity this < 2 ^ 32 ->
  exists this',
    fill v begin end_ this = (this', Ok tt) /\
    capacity this' = capacity this /\
    roffset this' = roffset this /\
    woffset this' = (if bool_decide (begin = None) && (b <? e) then e else woffset this) /\
    forall i, Buffer.get (buffer this') i
              = if (b <=? i) && (i <? e) then Some (v mod 256)
                else Buffer.get (buffer this) i.
Proof.
  intros b e Hb He Hcap.
  unfold fill, bind at 1. unfold get at 1. cbv beta iota. fold (capacity this). fold b e.
  unfold bind at 1. rewrite checkRange_ok by (right; lia). cbv beta iota.
  destruct (Z.geb_spec b e) as [Hge|Hlt].
  - exists this. split; [reflexivity|].
    destruct (Z.ltb_spec b e); [lia|]. rewrite andb_false_r.
    repeat split. intros i.
    destruct (Z.leb_spec b i); destruct (Z.ltb_spec i e); try lia; reflexivity.
  - unfold Host.fill. fold (capacity this).
    destruct (Z.ltb_spec b 0); [lia|]. destruct (Z.gtb_spec e (capacity this)); [lia|].
    cbn [orb]. unfold lift, bind, modify, ret.
    assert (Hv : (if negb (noAssert this) then JS.ToInt32 v else v) mod 256 = v mod 256).
    { destruct (noAssert this); cbn [negb]; [reflexivity|].
      rewrite low_byte_ToInt32, <- low_byte. reflexivity. }
    rewrite Hv. destruct (Z.ltb_spec b e); [|lia]. rewrite andb_true_r.
    destruct begin as [x|]; eexists; (split; [reflexivity|]);
      unfold capacity; cbn [buffer set_buffer set_woffset roffset woffset];
      (split; [apply length_filled; assumption|]);
      (split; [reflexivity|]);
      (split; [first [rewrite bool_decide_eq_false_2 by discriminate
                     | rewrite bool_decide_eq_true_2 by reflexivity]; reflexivity|]);
      intros i; apply get_filled; assumption.
Qed.

(** X9. [fill(value, begin, end)] on a valid range sets every byte of
    [[begin, end)] to [value mod 256] and no other byte, keeps the capacity
    and the read cursor, and moves the write cursor to [end] only when
    [begin] is omitted and the range is not empty.  With [begin] and [end]
    omitted it fills from the write cursor to the end of the store. *)
Theorem fill_range this v begin end_ :
  let b := default (woffset this) begin in
  let e := default (capacity this) end_ in
  0 <= b <= e -> e <= capacity this -> capacity this < 2 ^ 32 ->
  exists this',
    fill v begin end_ this = (this', Ok tt) /\
    capacity this' = capacity this /\
    roffset this' = roffset this /\
    woffset this' = (if bool_decide (begin = None) && (b <? e) then e else woffset this) /\
    forall i, Buffer.get (buffer this') i
              = if (b <=? i) && (i <? e) then Some (v mod 256)
                else Buffer.get (buffer this) i.
Proof. exact (fill_run this v begin end_). Qed.

Lemma fill_range_witness :
  exists this',
    fill 0x141 None None (mkSmartBuffer [1; 2; 3] 1 0 false) = (this', Ok tt) /\
    woffset this' = 3 /\
    Buffer.get (buffer this') 0 = Some 1 /\
    Buffer.get (buffer this') 2 = Some (0x141 mod 256).
Proof.
  destruct (fill_range (mkSmartBuffer [1; 2; 3] 1 0 false) 0x141 None None)
    as (this' & H1 & _ & _ & H2 & H3).
  - unfold capacity, Buffer.length. simpl. lia.
  - unfold capacity, Buffer.length. simpl. lia.
  - unfold capacity, Buffer.length. simpl. lia.
  - exists this'. split; [exact H1|]. split; [exact H2|].
    split; [rewrite H3; reflexivity|rewrite H3; reflexivity].
Defined.

Lemma rev_lookup (l : list Z) i :
  (i < List.length l)%nat -> rev l !! i = l !! (List.length l - S i)%nat.
Proof.
  intros H. rewrite rev_alt. change (rev_append l []) with (stdpp.list_basics.list.reverse l).
  apply reverse_lookup. exact H.
Qed.

Lemma adjustOffset_id x len : 0 <= x <= len -> Host.adjustOffset x len = x.
Proof. intros H. unfold Host.adjustOffset. destruct (Z.ltb_spec x 0); lia. Qed.

Lemma Buffer_ext (a b : list Z) :
  Buffer.length a = Buffer.length b ->
  (forall i, 0 <= i < Buffer.length a -> Buffer.get a i = Buffer.get b i) -> a = b.
Proof.
  intros Hlen H. apply list_eq. intros n. unfold Buffer.length in *.
  destruct (Nat.lt_ge_cases n (List.length a)) as [Hn|Hn].
  - specialize (H (Z.of_nat n) ltac:(lia)).
    rewrite !Buffer_get_lookup in H by (unfold Buffer.length; lia).
    rewrite Nat2Z.id in H. exact H.
  - rewrite !lookup_ge_None_2 by lia. reflexivity.
Qed.

Lemma reverse_get (l : list Z) b e :
  0 <= b <= e -> e <= Buffer.length l ->
  let l' := Host.reverse l b e in
  Buffer.length l' = Buffer.length l /\
  (forall i, b <= i < e -> Buffer.get l' i = Buffer.get l (b + e - 1 - i)) /\
  (forall i, i < b \/ e <= i -> Buffer.get l' i = Buffer.get l i).
Proof.
  intros Hb He l'. unfold l', Host.reverse.
  rewrite !adjustOffset_id by lia. rewrite Z.max_r by lia.
  unfold Buffer.slice, Buffer.length in *.
  set (nb := Z.to_nat b). set (ne := Z.to_nat e).
  replace (Z.to_nat (e - b)) with (ne - nb)%nat by lia.
  assert (Hnb : (nb <= ne)%nat) by lia.
  assert (Hne : (ne <= List.length l)%nat) by lia.
  assert (Hmid : List.length (take (ne - nb) (drop nb l)) = (ne - nb)%nat)
    by (rewrite length_take, length_drop; lia).
  assert (Hlen : List.length (take nb l ++ rev (take (ne - nb) (drop nb l)) ++ drop ne l)
                 = List.length l).
  { rewrite !length_app, length_rev, Hmid, length_take, length_drop. lia. }
  split; [rewrite Hlen; reflexivity|].
  split.
  - intros i Hi. unfold Buffer.get, Buffer.length. rewrite Hlen.
    destruct (Z.leb_spec 0 i); [|lia].
    destruct (Z.ltb_spec i (Z.of_nat (List.length l))); [|lia].
    destruct (Z.leb_spec 0 (b + e - 1 - i)); [|lia].
    destruct (Z.ltb_spec (b + e - 1 - i) (Z.of_nat (List.length l))); [|lia].
    cbn [andb].
    rewrite lookup_app_r by (rewrite length_take; lia).
    rewrite length_take, Nat.min_l by lia.
    rewrite lookup_app_l by (rewrite length_rev, Hmid; lia).
    rewrite rev_lookup by (rewrite Hmid; lia). rewrite Hmid.
    rewrite lookup_take_lt by lia. rewrite lookup_drop. f_equal. lia.
  - intros i Hi. unfold Buffer.get, Buffer.length. rewrite Hlen.
    destruct ((0 <=? i) && (i <? Z.of_nat (List.length l))) eqn:E; [|reflexivity].
    apply andb_true_iff in E as [E1 E2]. apply Z.leb_le in E1. apply Z.ltb_lt in E2.
    destruct Hi as [Hi|Hi].
    + rewrite lookup_app_l by (rewrite length_take; lia). apply lookup_take_lt. lia.
    + rewrite lookup_app_r by (rewrite length_take; lia).
      rewrite length_take, Nat.min_l by lia.
      rewrite lookup_app_r by (rewrite length_rev, Hmid; lia).
      rewrite length_rev, Hmid, lookup_drop. f_equal. lia.
Qed.

Lemma reverse_spec (l : list Z) b e :
  0 <= b <= e -> e <= Buffer.length l ->
  let l' := Host.reverse l b e in
  Buffer.length l' = Buffer.length l /\
  (forall i, b <= i < e -> Buffer.get l' i = Buffer.get l (b + e - 1 - i)) /\
  (forall i, i < b \/ e <= i -> Buffer.get l' i = Buffer.get l i) /\
  Host.reverse l' b e = l.
Proof.
  intros Hb He l'. destruct (reverse_get l b e Hb He) as (L & G1 & G2). fold l' in L, G1, G2.
  split; [exact L|]. split; [exact G1|]. split; [exact G2|].
  destruct (reverse_get l' b e Hb ltac:(lia)) as (L' & G1' & G2').
  apply Buffer_ext; [congruence|]. intros i Hi.
  destruct (Z.lt_ge_cases i b); [rewrite G2', G2 by lia; reflexivity|].
  destruct (Z.lt_ge_cases i e); [|rewrite G2', G2 by lia; reflexivity].
  rewrite G1', G1 by lia. f_equal. lia.
Qed.

(** X10. [reverse(begin, end)] on a valid range mirrors the bytes of
    [[begin, end)] inside the range, leaves every other byte, the capacity
    and both cursors as they were, and is its own inverse: a second call
    with the same range restores the buffer. *)
Theorem reverse_range this begin end_ :
  let b := default (roffset this) begin in
  let e := default (woffset this) end_ in
  0 <= b <= e -> e <= capacity this -> capacity this < 2 ^ 32 ->
  exists this',
    reverse begin end_ this = (this', Ok tt) /\
    capacity this' = capacity this /\
    roffset this' = roffset this /\ woffset this' = woffset this /\
    (forall i, b <= i < e ->
               Buffer.get (buffer this') i = Buffer.get (buffer this) (b + e - 1 - i)) /\
    (forall i, i < b \/ e <= i ->
               Buffer.get (buffer this') i = Buffer.get (buffer this) i) /\
    reverse begin end_ this' = (this, Ok tt).
Proof.
  intros b e Hb He Hcap.
  assert (Hrun : forall t,
            roffset t = roffset this -> woffset t = woffset this ->
            noAssert t = noAssert this -> capacity t = capacity this ->
            reverse begin end_ t =
            if b =? e then (t, Ok tt)
            else (set_buffer (Host.reverse (buffer t) b e) t, Ok tt)).
  { intros t Hr Hw Hna Hc. unfold reverse, bind at 1. unfold get at 1. cbv beta iota.
    rewrite Hr, Hw. fold b e. unfold bind at 1.
    rewrite checkRange_ok by (right; rewrite Hc; lia). cbv beta iota.
    destruct (b =? e); reflexivity. }
  rewrite Hrun by reflexivity.
  destruct (Z.eqb_spec b e) as [Heq|Hne].
  - exists this. split; [reflexivity|]. repeat split.
    + intros i Hi. lia.
    + rewrite Hrun by reflexivity. destruct (Z.eqb_spec b e); [reflexivity|lia].
  - destruct (reverse_spec (buffer this) b e Hb He) as (L & G1 & G2 & Inv).
    eexists. split; [reflexivity|]. unfold capacity. cbn [buffer set_buffer roffset woffset].
    split; [exact L|]. split; [reflexivity|]. split; [reflexivity|].
    split; [exact G1|]. split; [exact G2|].
    rewrite Hrun by (try reflexivity; unfold capacity; exact L).
    destruct (Z.eqb_spec b e); [lia|]. cbn [buffer set_buffer]. rewrite Inv.
    destruct this; reflexivity.
Qed.

Lemma reverse_range_witness :
  exists this',
    reverse (Some 1) (Some 3) (mkSmartBuffer [0x12; 0x34; 0x56; 0x78] 4 0 false)
    = (this', Ok tt) /\
    Buffer.get (buffer this') 1 = Some 0x56 /\
    reverse (Some 1) (Some 3) this'
    = (mkSmartBuffer [0x12; 0x34; 0x56; 0x78] 4 0 false, Ok tt).
Proof.
  destruct (reverse_range (mkSmartBuffer [0x12; 0x34; 0x56; 0x78] 4 0 false)
              (Some 1) (Some 3)) as (this' & H1 & _ & _ & _ & H2 & _ & H3).
  - simpl. lia.
  - unfold capacity, Buffer.length. simpl. lia.
  - unfold capacity, Buffer.length. simpl. lia.
  - exists this'. split; [exact H1|]. split; [|exact H3].
    rewrite H2 by (simpl; lia). reflexivity.
Defined.

(** ** Conversions *)

(** X11. [toArrayBuffer()] with cursors [0 <= roffset <= woffset <= capacity]
    returns [woffset - roffset] bytes, and they are the first bytes of the
    store, whatever the read cursor is: the copy into the new array starts at
    index 0 of the store, not at [roffset].  The buffer itself is not
    changed. *)
Theorem toArrayBuffer_prefix this :
  0 <= roffset this <= woffset this -> woffset this <= capacity this ->
  capacity this < 2 ^ 32 ->
  toArrayBuffer this =
  (this, Ok (take (Z.to_nat (woffset this - roffset this)) (buffer this))).
Proof.
  intros Hr Hw Hcap. unfold toArrayBuffer, bind at 1. unfold get at 1. cbv beta iota.
  unfold bind at 1. rewrite checkRange_ok by (right; lia). cbv beta iota.
  unfold Host.newArrayBuffer.
  destruct (Z.ltb_spec (woffset this - roffset this) 0); [lia|].
  pose proof (Buffer_length_nonneg (buffer this)) as Hlen.
  unfold lift, bind. rewrite copy_ok by lia. do 2 f_equal.
  unfold capacity in *. unfold Buffer.blit, Buffer.slice, Buffer.length in *.
  rewrite length_replicate. set (n := Z.to_nat (woffset this - roffset this)).
  change (Z.to_nat 0) with 0%nat. rewrite !Z.sub_0_r, !Nat2Z.id.
  rewrite drop_0, take_0. cbn [app].
  rewrite (take_ge (buffer this) (List.length (buffer this))) by lia.
  rewrite length_take, Nat.min_l by (unfold n; lia).
  rewrite drop_ge by (rewrite length_replicate; lia). apply app_nil_r.
Qed.

Lemma toArrayBuffer_prefix_witness :
  toArrayBuffer (mkSmartBuffer [0x12; 0x34; 0x56] 2 1 false)
  = (mkSmartBuffer [0x12; 0x34; 0x56] 2 1 false, Ok [0x12]).
Proof.
  apply (toArrayBuffer_prefix (mkSmartBuffer [0x12; 0x34; 0x56] 2 1 false)).
  - simpl. lia.
  - unfold capacity, Buffer.length. simpl. lia.
  - unfold capacity, Buffer.length. simpl. lia.
Defined.

Lemma hex_byte b :
  0 <= b < 256 ->
  Debug.hexValue (Host.hexDigit (b / 16)) = Some (b / 16) /\
  Debug.hexValue (Host.hexDigit (b mod 16)) = Some (b mod 16).
Proof.
  intros Hb.
  pose proof (byte_cases
    (fun b => match Debug.hexValue (Host.hexDigit (b / 16)),
                    Debug.hexValue (Host.hexDigit (b mod 16)) with
              | Some h, Some l => (h =? b / 16) && (l =? b mod 16)
              | _, _ => false
              end) ltac:(vm_compute; reflexivity) b Hb) as H.
  cbv beta in H.
  destruct (Debug.hexValue (Host.hexDigit (b / 16))) as [h|]; [|discriminate].
  destruct (Debug.hexValue (Host.hexDigit (b mod 16))) as [l|]; [|discriminate].
  apply andb_true_iff in H as [H1 H2]. apply Z.eqb_eq in H1, H2. subst. split; reflexivity.
Qed.

Lemma hexDecode_hexEncode (bytes : list Z) :
  Forall (fun b => 0 <= b < 256) bytes ->
  Host.hexDecode (Host.hexEncode bytes) = bytes /\
  List.length (Host.hexEncode bytes) = (2 * List.length bytes)%nat.
Proof.
  induction 1 as [|b bytes Hb _ [IH1 IH2]]; [split; reflexivity|].
  destruct (hex_byte b Hb) as [H1 H2].
  unfold Host.hexEncode in *. cbn [flat_map app Host.hexDecode List.length].
  rewrite H1, H2, IH1, IH2. split; [|lia]. f_equal. zlia.
Qed.

(** X12. The hexadecimal text that [toHex(begin, end)] gives for a valid
    range has two characters for each byte, and [fromHex] decodes it to a
    buffer whose store is exactly the bytes of the range, with [roffset = 0],
    [woffset] at the end of the store, and assertions switched off, whatever
    the original had. *)
Theorem hex_roundtrip this begin end_ :
  let b := default (roffset this) begin in
  let e := default (woffset this) end_ in
  Forall (fun x => 0 <= x < 256) (buffer this) ->
  0 <= b <= e -> e <= capacity this -> capacity this < 2 ^ 32 ->
  exists str,
    toHex begin end_ this = (this, Ok str) /\
    Z.of_nat (List.length str) = 2 * (e - b) /\
    fromHex str false = Ok (mkSmartBuffer (Buffer.slice (buffer this) b e) (e - b) 0 true).
Proof.
  intros b e Hbytes Hb He Hcap.
  unfold toHex, bind at 1. unfold get at 1. cbv beta iota. fold b e.
  unfold bind. rewrite checkRange_ok by (right; lia). unfold ret.
  eexists. split; [reflexivity|]. unfold Host.toStringHex. rewrite Z.max_r by lia.
  assert (Hs : Forall (fun x => 0 <= x < 256) (Buffer.slice (buffer this) b e)).
  { unfold Buffer.slice. apply Forall_take, Forall_drop. exact Hbytes. }
  destruct (hexDecode_hexEncode _ Hs) as [Hd Hl].
  assert (Hlen : Buffer.length (Buffer.slice (buffer this) b e) = e - b).
  { unfold capacity in *. unfold Buffer.length, Buffer.slice in *.
    rewrite length_take, length_drop. lia. }
  unfold Buffer.length in Hlen.
  split; [rewrite Hl; lia|].
  unfold fromHex. rewrite Hl, Hd.
  replace (Z.of_nat (2 * List.length (Buffer.slice (buffer this) b e)) mod 2) with 0
    by (rewrite Nat2Z.inj_mul; zlia).
  cbn [Z.eqb negb andb]. unfold Buffer.length. rewrite Hlen. reflexivity.
Qed.

Lemma hex_roundtrip_witness :
  exists str,
    toHex (Some 1) None (mkSmartBuffer [0x12; 0x34; 0x56; 0] 3 0 false)
    = (mkSmartBuffer [0x12; 0x34; 0x56; 0] 3 0 false, Ok str) /\
    Z.of_nat (List.length str) = 2 * (3 - 1) /\
    fromHex str false = Ok (mkSmartBuffer [0x34; 0x56] (3 - 1) 0 true).
Proof.
  apply (hex_roundtrip (mkSmartBuffer [0x12; 0x34; 0x56; 0] 3 0 false) (Some 1) None).
  - repeat constructor; lia.
  - simpl. lia.
  - unfold capacity, Buffer.length. simpl. lia.
  - unfold capacity, Buffer.length. simpl. lia.
Defined.

(** ** Strings *)

Lemma splice_slice (b chunk : list Z) o :
  0 <= o -> o + Buffer.length chunk <= Buffer.length b ->
  Buffer.slice (take (Z.to_nat o) b ++ chunk
                  ++ drop (Z.to_nat o + List.length chunk) b) o (o + Buffer.length chunk)
  = chunk.
Proof.
  intros Ho Hlen. unfold Buffer.slice, Buffer.length in *.
  replace (Z.to_nat (o + Z.of_nat (List.length chunk) - o)) with (List.length chunk) by lia.
  rewrite drop_app_ge by (rewrite length_take; lia).
  rewrite length_take, Nat.min_l by lia. replace (Z.to_nat o - Z.to_nat o)%nat with 0%nat by lia.
  rewrite drop_0. rewrite take_app_le by lia. apply take_ge. lia.
Qed.

Lemma slice_agree (b b' : list Z) o e :
  0 <= o <= e -> e <= Buffer.length b -> e <= Buffer.length b' ->
  (forall i, o <= i < e -> Buffer.get b' i = Buffer.get b i) ->
  Buffer.slice b' o e = Buffer.slice b o e.
Proof.
  intros Ho He Hlen H. unfold Buffer.slice. apply list_eq. intros n.
  unfold Buffer.length in *.
  destruct (Nat.lt_ge_cases n (Z.to_nat (e - o))) as [Hn|Hn].
  - rewrite !lookup_take_lt, !lookup_drop by lia.
    specialize (H (o + Z.of_nat n) ltac:(lia)).
    rewrite !Buffer_get_lookup in H by (unfold Buffer.length; lia).
    replace (Z.to_nat (o + Z.of_nat n)) with (Z.to_nat o + n)%nat in H by lia. exact H.
  - rewrite !lookup_take_ge by lia. reflexivity.
Qed.

Lemma checkOffset_ok this o n :
  noAssert this = true \/ (0 <= o < 2 ^ 32 /\ o + n <= capacity this) ->
  checkOffset o n this = (this, Ok o).
Proof.
  intros H. unfold checkOffset. monad. destruct (noAssert this); cbn [negb]; [reflexivity|].
  destruct H as [H|[H1 H2]]; [discriminate|]. unfold capacity in H2.
  rewrite (ToUint32_id o) by lia. destruct (Z.ltb_spec o 0); [lia|].
  destruct (Z.gtb_spec (o + n) (Buffer.length (buffer this))); [lia|]. reflexivity.
Qed.

Section StringRuns.

Variable junk : nat -> Z.
Variable utf8 : list Z -> list Z.
Variable utf8_decode : list Z -> list Z.

Lemma writeString_run this str off :
  let o := default (woffset this) off in
  let k := Buffer.length (utf8 str) in
  0 <= o <= capacity this -> capacity this < 2 ^ 32 ->
  noAssert this = true \/ Z.max (2 * capacity this) (o + k) < 2 ^ 31 ->
  Z.max (2 * capacity this) (o + k) <= Buffer.MAX_LENGTH ->
  exists tail,
    let b1 := buffer this ++ tail in
    let b2 := take (Z.to_nat o) b1 ++ utf8 str
                ++ drop (Z.to_nat o + List.length (utf8 str)) b1 in
    writeString junk utf8 str off this =
    (match off with
     | None => set_woffset (o + k) (set_buffer b2 this)
     | Some _ => set_buffer b2 this
     end,
     Ok (match off with None => None | Some _ => Some k end)) /\
    o + k <= Buffer.length b1 /\ Buffer.length b2 = Buffer.length b1 /\
    (if o + k >? capacity this
     then Buffer.length b1 = Z.max (2 * capacity this) (o + k) else tail = []).
Proof.
  intros o k Ho Hcap Hn Hmax.
  destruct (grow_run junk this (o + k) Hn Hmax) as (tail & G & G1 & G2).
  pose proof (Buffer_length_nonneg (utf8 str)) as Hk. fold k in Hk.
  exists tail. cbv zeta. set (b1 := buffer this ++ tail) in *.
  split; [|split; [exact G1|split; [apply splice_length; fold k; lia|exact G2]]].
  unfold writeString, bind at 1. unfold get at 1. cbv beta iota. fold o.
  unfold bind at 1. rewrite checkOffset_ok by (right; lia). cbv beta iota. fold k.
  unfold bind at 1. rewrite G. cbv beta iota.
  unfold bind at 1. unfold get at 1. cbv beta iota. cbn [buffer set_buffer]. fold b1.
  unfold bind at 1, lift. unfold k at 1. rewrite Buffer_write_fits by (fold k; lia).
  cbv beta iota. fold k. unfold bind, modify, ret.
  destruct off; reflexivity.
Qed.

Lemma readString_bytes_run this n off :
  let o := default (roffset this) off in
  0 <= o -> 0 <= n -> o + n <= capacity this -> capacity this < 2 ^ 31 ->
  readString_bytes utf8_decode n off this =
  (match off with None => set_roffset (o + n) this | Some _ => this end,
   let s := utf8_decode (Buffer.slice (buffer this) o (o + n)) in
   Ok (match off with None => Str s | Some _ => SString s n end)).
Proof.
  intros o Ho Hn Hlen Hcap.
  unfold readString_bytes, bind at 1. unfold get at 1. cbv beta iota. fold o.
  assert (Hnn : (if negb (noAssert this) then JS.ToInt32 n else n) = n).
  { destruct (noAssert this); [reflexivity|]. apply ToInt32_id. lia. }
  rewrite Hnn. unfold bind at 1. rewrite checkOffset_ok by (right; lia). cbv beta iota.
  unfold bind at 1. rewrite checkOffset_ok by (right; lia). cbv beta iota.
  unfold toStringUtf8. rewrite Z.max_r by lia.
  destruct off; [reflexivity|]. unfold bind, modify, ret. reflexivity.
Qed.

(** X15. What [writeString] stores, [readString] with the byte metric reads
    back: for a codec whose decoder inverts its encoder, writing [str] at an
    offset inside the store and reading [k] bytes at the same offset, where
    [k] is the string's byte length, returns [str]; relative calls advance
    the write cursor and the read cursor by [k]. *)
Theorem string_roundtrip this str woff roff :
  let o := default (woffset this) woff in
  let k := Buffer.length (utf8 str) in
  utf8_decode (utf8 str) = str ->
  0 <= o <= capacity this -> capacity this < 2 ^ 30 -> o + k < 2 ^ 30 ->
  default (roffset this) roff = o ->
  exists this',
    writeString junk utf8 str woff this =
    (this', Ok (match woff with None => None | Some _ => Some k end)) /\
    woffset this' = match woff with None => o + k | Some _ => woffset this end /\
    readString_bytes utf8_decode k roff this' =
    (match roff with None => set_roffset (o + k) this' | Some _ => this' end,
     Ok (match roff with None => Str str | Some _ => SString str k end)).
Proof.
  intros o k Hcodec Ho Hcap Hk Hr.
  pose proof (Buffer_length_nonneg (utf8 str)) as Hk0. fold k in Hk0.
  destruct (writeString_run this str woff Ho ltac:(lia) ltac:(right; lia)
              ltac:(unfold Buffer.MAX_LENGTH; lia))
    as (tail & W & Hlen & Hb2 & Hgrow). cbv zeta in W, Hlen, Hb2. fold o k in W, Hlen, Hb2.
  eexists. split; [exact W|].
  set (b1 := buffer this ++ tail) in *.
  set (b2 := take (Z.to_nat o) b1 ++ utf8 str
               ++ drop (Z.to_nat o + List.length (utf8 str)) b1) in *.
  match goal with |- context [readString_bytes _ _ _ ?t] => set (this' := t) end.
  assert (Hb : buffer this' = b2) by (unfold this'; destruct woff; reflexivity).
  assert (Hro : roffset this' = roffset this) by (unfold this'; destruct woff; reflexivity).
  split; [unfold this'; destruct woff; reflexivity|].
  assert (Hcap' : Buffer.length b1 < 2 ^ 31).
  { fold o k in Hgrow. unfold capacity in *.
    destruct (Z.gtb_spec (o + k) (Buffer.length (buffer this))).
    - rewrite Hgrow. lia.
    - subst tail. unfold b1. rewrite app_nil_r. lia. }
  rewrite readString_bytes_run; rewrite ?Hro, ?Hr; unfold capacity; rewrite ?Hb, ?Hb2;
    try lia.
  cbv zeta. unfold b2, k. rewrite splice_slice by (fold k; lia). rewrite Hcodec.
  reflexivity.
Qed.

End StringRuns.

Lemma string_roundtrip_witness :
  let this := mkSmartBuffer [0; 0] 1 1 false in
  exists this',
    writeString (fun _ => 0) (fun s => s) (JS.str "ab") None this = (this', Ok None) /\
    woffset this' = 1 + 2 /\
    readString_bytes (fun s => s) 2 None this' =
    (set_roffset (1 + 2) this', Ok (Str (JS.str "ab"))).
Proof.
  intros this.
  apply (string_roundtrip (fun _ => 0) (fun s => s) (fun s => s) this (JS.str "ab") None None).
  - reflexivity.
  - unfold capacity, Buffer.length. simpl. lia.
  - unfold capacity, Buffer.length. simpl. lia.
  - unfold capacity, Buffer.length. simpl. lia.
  - reflexivity.
Defined.

Lemma readVarint32_agree this u off (b : list Z) :
  let o := default (roffset this) off in
  let size := calculateVarint32 u in
  0 <= u < 2 ^ 32 -> 0 <= o < 2 ^ 32 -> o + size <= Buffer.length b ->
  Buffer.length (buffer this) = Buffer.length b ->
  (forall i, o <= i < o + size ->
             Buffer.get (buffer this) i = Buffer.get (fst (writeVarint32_loop u o b)) i) ->
  readVarint32 off this =
  (match off with None => set_roffset (o + size) this | Some _ => this end,
   Ok (match off with
       | None => Number (JS.ToInt32 u)
       | Some _ => SNumber (JS.ToInt32 u) size
       end)).
Proof.
  intros o size Hu Ho Hlen Hl Hb.
  pose proof (calculateVarint32_range u) as Hsize. fold size in Hsize.
  pose proof (writeVarint32_loop_size u o b Hu) as Hsnd. fold size in Hsnd.
  destruct (readVarint32_loop_written u o b (noAssert this) 0 u (JS.ToUint32 0) (buffer this))
    as (acc' & E1 & E2); try lia.
  - change (2 ^ (7 * 0)) with 1. rewrite Z.div_1_r. reflexivity.
  - change (2 ^ (7 * 0)) with 1. rewrite Z.mod_1_r. reflexivity.
  - intros i Hi. apply Hb. lia.
  - rewrite Hsnd in E1. replace (0 + (o + size - o)) with size in E1 by lia.
    unfold readVarint32. monad. fold o.
    assert (Hchk : ((o <? 0) || (o + 1 >? Buffer.length (buffer this))) = false).
    { destruct (Z.ltb_spec o 0); destruct (Z.gtb_spec (o + 1) (Buffer.length (buffer this)));
        try lia; reflexivity. }
    assert (Hv : JS.ToInt32 acc' = JS.ToInt32 u).
    { apply ToInt32_inj_mod. rewrite E2. symmetry. apply ToUint32_id. exact Hu. }
    destruct (noAssert this) eqn:Hna; unfold negb; cbv beta iota.
    + rewrite E1. cbv beta iota. rewrite Hv. destruct off; reflexivity.
    + rewrite (ToUint32_id o) by lia. rewrite Hchk. cbv beta iota.
      rewrite E1. cbv beta iota. rewrite Hv. destruct off; reflexivity.
Qed.

Section Varint32Plain.

Variable junk : nat -> Z.

(** X13. What [writeVarint32] stores, [readVarint32] reads back as [v | 0]:
    a value of at most 31 bits comes back unchanged, a larger one as the
    negative number with the same low 32 bits.  The write takes
    [calculateVarint32 v] bytes, between 1 and 5, which is the length the
    absolute read reports and the distance the cursors of relative calls
    move. *)
Theorem varint32_roundtrip this v woff roff :
  let o := default (woffset this) woff in
  let size := calculateVarint32 v in
  0 <= o <= capacity this -> capacity this < 2 ^ 30 ->
  default (roffset this) roff = o ->
  1 <= size <= 5 /\
  exists this',
    writeVarint32 junk v woff this =
    (this', Ok (match woff with None => None | Some _ => Some size end)) /\
    woffset this' = match woff with None => o + size | Some _ => woffset this end /\
    readVarint32 roff this' =
    (match roff with None => set_roffset (o + size) this' | Some _ => this' end,
     Ok (match roff with
         | None => Number (JS.ToInt32 v)
         | Some _ => SNumber (JS.ToInt32 v) size
         end)).
Proof.
  intros o size Ho Hcap Hr.
  pose proof (calculateVarint32_range v) as Hsize. fold size in Hsize.
  split; [exact Hsize|].
  destruct (writeVarint32_run junk this v woff Ho ltac:(lia) ltac:(right; lia))
    as (tail & Hlen & _ & W). cbv zeta in Hlen, W. fold o size in Hlen, W.
  eexists. split; [exact W|].
  match goal with |- context [readVarint32 roff ?t] => set (this' := t) end.
  assert (Hb : buffer this' = fst (writeVarint32_loop (JS.ToUint32 v) o (buffer this ++ tail)))
    by (unfold this'; destruct woff; reflexivity).
  assert (Hro : roffset this' = roffset this) by (unfold this'; destruct woff; reflexivity).
  split; [unfold this'; destruct woff; reflexivity|].
  pose proof (readVarint32_written this' (JS.ToUint32 v) roff (buffer this ++ tail)) as R.
  cbv zeta in R. rewrite Hro, Hr, calculateVarint32_ToUint32, ToInt32_ToUint32 in R.
  fold size in R. apply R.
  - apply ToUint32_range.
  - lia.
  - exact Hlen.
  - exact Hb.
Qed.

End Varint32Plain.

Lemma varint32_roundtrip_witness :
  let this := mkSmartBuffer [0] 0 0 false in
  let size := calculateVarint32 4294967295 in
  1 <= size <= 5 /\
  exists this',
    writeVarint32 (fun _ => 0) 4294967295 None this = (this', Ok None) /\
    woffset this' = 0 + size /\
    readVarint32 None this' =
    (set_roffset (0 + size) this', Ok (Number (JS.ToInt32 4294967295))).
Proof.
  intros this size.
  apply (varint32_roundtrip (fun _ => 0) this 4294967295 None None).
  - unfold capacity, Buffer.length. simpl. lia.
  - unfold capacity, Buffer.length. simpl. lia.
  - reflexivity.
Defined.

Section StringCodecs.

Variable junk : nat -> Z.
Variable utf8 : list Z -> list Z.
Variable utf8_decode : list Z -> list Z.

Lemma writeVString_run this str off :
  let o := default (woffset this) off in
  let k := Buffer.length (utf8 str) in
  let l := calculateVarint32 k in
  0 <= o <= capacity this -> capacity this < 2 ^ 29 -> o + (l + k) < 2 ^ 29 ->
  exists tail,
    let b1 := buffer this ++ tail in
    let b2 := fst (writeVarint32_loop (JS.ToUint32 k) o b1) in
    let b3 := take (Z.to_nat (o + l)) b2 ++ utf8 str
                ++ drop (Z.to_nat (o + l) + List.length (utf8 str)) b2 in
    writeVString junk utf8 str off this =
    (match off with
     | None => set_woffset (o + l + k) (set_buffer b3 this)
     | Some _ => set_buffer b3 this
     end,
     Ok (match off with None => None | Some _ => Some (o + l + k - o) end)) /\
    o + (l + k) <= Buffer.length b1 /\ Buffer.length b1 < 2 ^ 30 /\
    Buffer.length b2 = Buffer.length b1 /\ Buffer.length b3 = Buffer.length b1 /\
    (if o + (l + k) >? capacity this
     then Buffer.length b1 = Z.max (2 * capacity this) (o + (l + k)) else tail = []).
Proof.
  intros o k l Ho Hcap Hsize.
  pose proof (Buffer_length_nonneg (utf8 str)) as Hk. fold k in Hk.
  pose proof (calculateVarint32_range k) as Hl. fold l in Hl.
  destruct (grow_run junk this (o + (l + k)) ltac:(right; lia)
              ltac:(unfold Buffer.MAX_LENGTH; lia)) as (tail & G & G1 & G2).
  exists tail. cbv zeta. set (b1 := buffer this ++ tail) in *.
  assert (Hb1 : Buffer.length b1 < 2 ^ 30).
  { unfold capacity in *. destruct (Z.gtb_spec (o + (l + k)) (Buffer.length (buffer this))).
    - rewrite G2. lia.
    - subst tail. unfold b1. rewrite app_nil_r. lia. }
  set (t1 := set_buffer b1 this) in *.
  destruct (writeVarint32_run junk t1 k (Some o)) as (tail' & V1 & V2 & V3).
  { change (default (woffset t1) (Some o)) with o.
    unfold t1, capacity. cbn [buffer set_buffer]. lia. }
  { unfold t1, capacity. cbn [buffer set_buffer]. lia. }
  { right. change (default (woffset t1) (Some o)) with o.
    unfold t1, capacity. cbn [buffer set_buffer]. fold l. lia. }
  cbv zeta in V1, V2, V3. change (default (woffset t1) (Some o)) with o in *.
  fold l in V1, V2, V3. unfold capacity in V2. cbn [buffer set_buffer t1] in V1, V2, V3.
  destruct (Z.gtb_spec (o + l) (Buffer.length b1)); [lia|]. subst tail'.
  rewrite app_nil_r in V1, V3.
  set (b2 := fst (writeVarint32_loop (JS.ToUint32 k) o b1)) in *.
  destruct (writeVarint32_loop_frame (JS.ToUint32 k) o b1) as (F1 & _ & _). fold b2 in F1.
  split; [|split; [exact G1|split; [exact Hb1|split; [exact F1|split; [|exact G2]]]]].
  - unfold writeVString, bind at 1. unfold get at 1. cbv beta iota. fold o.
    unfold bind at 1. rewrite checkOffset_ok by (right; lia). cbv beta iota. fold k l.
    unfold bind at 1. rewrite G. cbv beta iota. fold t1.
    unfold bind at 1. rewrite V3. cbv beta iota.
    change (default 0 (Some l)) with l.
    unfold bind at 1. unfold get at 1. cbv beta iota. cbn [buffer set_buffer].
    unfold bind at 1, lift. unfold k at 1.
    rewrite Buffer_write_fits by (fold k; lia). cbv beta iota. fold k.
    unfold bind, modify, ret. cbn [set_buffer buffer woffset roffset noAssert t1].
    replace (o + l + k) with (o + l + k) by lia.
    destruct off; reflexivity.
  - rewrite splice_length by (fold k; lia). exact F1.
Qed.

(** X16. What [writeVString] stores, [readVString] reads back: the string's
    byte length [k] as a varint of [l = calculateVarint32 k] bytes followed
    by the [k] bytes.  For a codec whose decoder inverts its encoder the read
    at the same offset returns the string and the total length [l + k], which
    is also the distance the cursors of relative calls move. *)
Theorem vstring_roundtrip this str woff roff :
  let o := default (woffset this) woff in
  let k := Buffer.length (utf8 str) in
  let l := calculateVarint32 k in
  utf8_decode (utf8 str) = str ->
  0 <= o <= capacity this -> capacity this < 2 ^ 29 -> o + (l + k) < 2 ^ 29 ->
  default (roffset this) roff = o ->
  exists this',
    writeVString junk utf8 str woff this =
    (this', Ok (match woff with None => None | Some _ => Some (l + k) end)) /\
    woffset this' = match woff with None => o + (l + k) | Some _ => woffset this end /\
    readVarint32 (Some o) this' = (this', Ok (SNumber k l)) /\
    readVString utf8_decode roff this' =
    (match roff with None => set_roffset (o + (l + k)) this' | Some _ => this' end,
     Ok (match roff with None => Str str | Some _ => SString str (l + k) end)).
Proof.
  intros o k l Hcodec Ho Hcap Hsize Hr.
  pose proof (Buffer_length_nonneg (utf8 str)) as Hk. fold k in Hk.
  pose proof (calculateVarint32_range k) as Hl. fold l in Hl.
  destruct (writeVString_run this str woff Ho Hcap Hsize)
    as (tail & W & Hlen & Hb1 & Hb2 & Hb3 & _).
  cbv zeta in W, Hlen, Hb1, Hb2, Hb3. fold o k l in W, Hlen, Hb1, Hb2, Hb3.
  set (b1 := buffer this ++ tail) in *.
  set (b2 := fst (writeVarint32_loop (JS.ToUint32 k) o b1)) in *.
  set (b3 := take (Z.to_nat (o + l)) b2 ++ utf8 str
               ++ drop (Z.to_nat (o + l) + List.length (utf8 str)) b2) in *.
  eexists. split.
  { rewrite W. f_equal. destruct woff; [|reflexivity]. do 2 f_equal. lia. }
  match goal with |- context [readVString _ roff ?t] => set (this' := t) end.
  assert (Hb : buffer this' = b3) by (unfold this'; destruct woff; reflexivity).
  assert (Hro : roffset this' = roffset this) by (unfold this'; destruct woff; reflexivity).
  split; [unfold this'; destruct woff; cbn [woffset set_woffset set_buffer]; lia|].
  assert (Hku : JS.ToUint32 k = k) by (apply ToUint32_id; lia).
  assert (Hvar : readVarint32 (Some o) this' = (this', Ok (SNumber k l))).
  { pose proof (readVarint32_agree this' k (Some o) b1) as R. cbv zeta in R.
    change (default (roffset this') (Some o)) with o in R. fold l in R.
    rewrite (ToInt32_id k) in R by lia. apply R; try lia.
    - rewrite Hb. exact Hb3.
    - intros i Hi. rewrite Hb.
      replace (fst (writeVarint32_loop k o b1)) with b2
        by (unfold b2; rewrite Hku; reflexivity).
      rewrite (Buffer_get_lookup b3), (Buffer_get_lookup b2) by lia.
      unfold b3. apply splice_get_below; lia. }
  split; [exact Hvar|].
  unfold readVString, bind at 1. unfold get at 1. cbv beta iota. rewrite Hro, Hr.
  unfold bind at 1. rewrite checkOffset_ok
    by (right; unfold capacity; rewrite Hb, Hb3; lia). cbv beta iota.
  unfold bind at 1. rewrite Hvar. cbv beta iota.
  unfold bind at 1.
  rewrite (readString_bytes_run utf8_decode this' k (Some (o + l)))
    by (change (default (roffset this') (Some (o + l))) with (o + l);
        unfold capacity; rewrite ?Hb, ?Hb3; lia).
  cbv beta iota zeta. change (default (roffset this') (Some (o + l))) with (o + l).
  rewrite Hb. unfold b3, k. rewrite splice_slice by (fold k; lia). rewrite Hcodec. fold k.
  destruct roff; unfold bind, modify, ret; cbv beta iota.
  - rewrite bool_decide_eq_false_2 by discriminate.
    replace (o + l + k - o) with (l + k) by lia. reflexivity.
  - rewrite bool_decide_eq_true_2 by reflexivity.
    replace (o + l + k) with (o + (l + k)) by lia. reflexivity.
Qed.

End StringCodecs.

Lemma vstring_roundtrip_witness :
  let this := mkSmartBuffer [0; 0] 0 0 false in
  exists this',
    writeVString (fun _ => 0) (fun s => s) (JS.str "ab") None this = (this', Ok None) /\
    woffset this' = 0 + (1 + 2) /\
    readVarint32 (Some 0) this' = (this', Ok (SNumber 2 1)) /\
    readVString (fun s => s) None this' =
    (set_roffset (0 + (1 + 2)) this', Ok (Str (JS.str "ab"))).
Proof.
  intros this.
  apply (vstring_roundtrip (fun _ => 0) (fun s => s) (fun s => s) this (JS.str "ab") None None).
  - reflexivity.
  - unfold capacity, Buffer.length. simpl. lia.
  - unfold capacity, Buffer.length. simpl. lia.
  - vm_compute. reflexivity.
  - reflexivity.
Defined.

Lemma lookup_In (l : list Z) i x : l !! i = Some x -> In x l.
Proof.
  revert i. induction l as [|y l IH]; intros [|i] H; try discriminate.
  - injection H as ->. left. reflexivity.
  - right. apply (IH i). exact H.
Qed.

Section CStringRoundTrip.

Variable junk : nat -> Z.
Variable utf8 : list Z -> list Z.
Variable utf8_decode : list Z -> list Z.

Lemma writeCString_stored this str off :
  let o := default (woffset this) off in
  let k := Buffer.length (utf8 str) in
  noAssert this = true \/ ~ In 0 str ->
  0 <= o <= capacity this -> capacity this < 2 ^ 32 ->
  noAssert this = true \/ Z.max (2 * capacity this) (o + (k + 1)) < 2 ^ 31 ->
  Z.max (2 * capacity this) (o + (k + 1)) <= Buffer.MAX_LENGTH ->
  exists tail,
    let b1 := buffer this ++ tail in
    let b2 := take (Z.to_nat o) b1 ++ utf8 str
                ++ drop (Z.to_nat o + List.length (utf8 str)) b1 in
    writeCString junk utf8 str off this =
    (match off with
     | None => set_woffset (o + k + 1) (set_buffer (Buffer.set b2 (o + k) 0) this)
     | Some _ => set_buffer (Buffer.set b2 (o + k) 0) this
     end,
     Ok (match off with None => None | Some _ => Some k end)) /\
    o + (k + 1) <= Buffer.length b1 /\ Buffer.length b2 = Buffer.length b1 /\
    (if o + (k + 1) >? capacity this
     then Buffer.length b1 = Z.max (2 * capacity this) (o + (k + 1)) else tail = []).
Proof.
  intros o k Hnul Ho Hcap Hn Hmax.
  destruct (grow_run junk this (o + (k + 1)) Hn Hmax) as (tail & G & G1 & G2).
  unfold capacity in *. pose proof (Buffer_length_nonneg (utf8 str)) as Hk. fold k in Hk.
  exists tail. cbv zeta. set (b1 := buffer this ++ tail) in *.
  split; [|split; [exact G1|split; [apply splice_length; fold k; lia|exact G2]]].
  unfold writeCString, bind at 1. unfold get at 1. cbv beta iota. fold o.
  assert (Hpre : (if negb (noAssert this) return M SmartBuffer Z
                  then if existsb (fun ch => ch =? 0) str return M SmartBuffer Z
                       then throw (TypeError "Illegal str: Contains NULL-characters")
                       else if (JS.ToUint32 o <? 0)
                               || (JS.ToUint32 o + 0 >? Buffer.length (buffer this))
                               return M SmartBuffer Z
                            then throw (RangeError "Illegal offset")
                            else ret (JS.ToUint32 o)
                  else ret o) this = (this, Ok o)).
  { destruct (noAssert this); [reflexivity|]. cbn [negb]. cbv iota.
    destruct Hnul as [Hnul|Hnul]; [discriminate|].
    destruct (existsb (fun ch => ch =? 0) str) eqn:E.
    - exfalso. apply Hnul. apply existsb_exists in E as (x & Hx & Hx0).
      apply Z.eqb_eq in Hx0. subst x. exact Hx.
    - rewrite (ToUint32_id o) by lia.
      destruct (Z.ltb_spec o 0); [lia|].
      destruct (Z.gtb_spec (o + 0) (Buffer.length (buffer this))); [lia|]. reflexivity. }
  unfold bind at 1. rewrite Hpre. cbv beta iota. fold k.
  unfold bind at 1. rewrite G. cbv beta iota.
  unfold bind at 1. unfold get at 1. cbv beta iota. cbn [buffer set_buffer]. fold b1.
  unfold bind at 1, lift. unfold k at 1. rewrite Buffer_write_fits by (fold k; lia).
  cbv beta iota. fold k. unfold bind, modify, ret.
  destruct off; reflexivity.
Qed.

Lemma splice_get_in (b chunk : list Z) o i :
  0 <= o -> o + Buffer.length chunk <= Buffer.length b -> 0 <= i < Buffer.length chunk ->
  Buffer.get (take (Z.to_nat o) b ++ chunk ++ drop (Z.to_nat o + List.length chunk) b)
    (o + i) = chunk !! Z.to_nat i.
Proof.
  intros Ho Hlen Hi.
  rewrite Buffer_get_lookup by (rewrite splice_length by lia; lia).
  unfold Buffer.length in *.
  rewrite lookup_app_r by (rewrite length_take; lia).
  rewrite length_take, Nat.min_l by lia.
  rewrite lookup_app_l by lia. f_equal. lia.
Qed.

Lemma readCString_found this off z :
  let o := default (roffset this) off in
  0 <= o < 2 ^ 32 -> o <= z < capacity this -> Buffer.get (buffer this) z = Some 0 ->
  (forall i, o <= i < z -> Buffer.get (buffer this) i <> Some 0) ->
  readCString utf8_decode off this =
  (match off with None => set_roffset (z + 1) this | Some _ => this end,
   let s := utf8_decode (Buffer.slice (buffer this) o z) in
   Ok (match off with None => Str s | Some _ => SString s (z + 1 - o) end)).
Proof.
  intros o Ho Hz Hzero Hnz. unfold capacity in Hz.
  unfold readCString. monad. fold o.
  assert (Hloop : readCString_loop (buffer this) o = Ok (z + 1)).
  { apply (readCString_loop_terminated (buffer this) z ltac:(lia) Hzero
             (Z.to_nat (z - o))); [lia|exact Hnz]. }
  assert (Hs : toStringUtf8 utf8_decode (buffer this) o (z + 1 - 1)
               = utf8_decode (Buffer.slice (buffer this) o z)).
  { unfold toStringUtf8. rewrite Z.max_r by lia.
    replace (z + 1 - 1) with z by lia. reflexivity. }
  destruct (noAssert this); cbn [negb]; cbv beta iota.
  - rewrite Hloop. cbv beta iota. rewrite Hs. destruct off; reflexivity.
  - rewrite (ToUint32_id o) by exact Ho.
    destruct (Z.ltb_spec o 0); [lia|].
    destruct (Z.gtb_spec (o + 1) (Buffer.length (buffer this))); [lia|].
    cbn [orb]. cbv beta iota. rewrite Hloop. cbv beta iota. rewrite Hs.
    destruct off; reflexivity.
Qed.

(** X17. What [writeCString] stores, [readCString] reads back: the bytes of
    the string followed by one zero byte.  For a string without NUL
    characters and a codec that emits no zero byte for it and whose decoder
    inverts its encoder, the read at the same offset returns the string and
    the length [k + 1], which is also the distance the cursors of relative
    calls move. *)
Theorem cstring_roundtrip this str woff roff :
  let o := default (woffset this) woff in
  let k := Buffer.length (utf8 str) in
  utf8_decode (utf8 str) = str -> ~ In 0 str -> ~ In 0 (utf8 str) ->
  0 <= o <= capacity this -> capacity this < 2 ^ 30 -> o + (k + 1) < 2 ^ 30 ->
  default (roffset this) roff = o ->
  exists this',
    writeCString junk utf8 str woff this =
    (this', Ok (match woff with None => None | Some _ => Some k end)) /\
    woffset this' = match woff with None => o + (k + 1) | Some _ => woffset this end /\
    Buffer.get (buffer this') (o + k) = Some 0 /\
    readCString utf8_decode roff this' =
    (match roff with None => set_roffset (o + (k + 1)) this' | Some _ => this' end,
     Ok (match roff with None => Str str | Some _ => SString str (k + 1) end)).
Proof.
  intros o k Hcodec Hnul Hnz Ho Hcap Hsize Hr.
  pose proof (Buffer_length_nonneg (utf8 str)) as Hk. fold k in Hk.
  destruct (writeCString_stored this str woff (or_intror Hnul) Ho ltac:(lia)
              ltac:(right; lia) ltac:(unfold Buffer.MAX_LENGTH; lia))
    as (tail & W & Hlen & Hb2 & Hgrow).
  cbv zeta in W, Hlen, Hb2. fold o k in W, Hlen, Hb2, Hgrow.
  set (b1 := buffer this ++ tail) in *.
  set (b2 := take (Z.to_nat o) b1 ++ utf8 str
               ++ drop (Z.to_nat o + List.length (utf8 str)) b1) in *.
  eexists. split; [exact W|].
  match goal with |- context [readCString _ roff ?t] => set (this' := t) end.
  assert (Hb : buffer this' = Buffer.set b2 (o + k) 0)
    by (unfold this'; destruct woff; reflexivity).
  assert (Hro : roffset this' = roffset this) by (unfold this'; destruct woff; reflexivity).
  split; [unfold this'; destruct woff; cbn [woffset set_woffset set_buffer]; lia|].
  assert (Hz : Buffer.get (buffer this') (o + k) = Some 0).
  { rewrite Hb. rewrite Buffer_get_set_eq by lia. reflexivity. }
  split; [exact Hz|].
  assert (Hcap' : Buffer.length b1 < 2 ^ 31).
  { unfold capacity in *.
    destruct (Z.gtb_spec (o + (k + 1)) (Buffer.length (buffer this))).
    - rewrite Hgrow. lia.
    - subst tail. unfold b1. rewrite app_nil_r. lia. }
  rewrite (readCString_found this' roff (o + k)); rewrite ?Hro, ?Hr; try lia.
  - cbv zeta. rewrite Hb.
    rewrite (slice_agree b2 (Buffer.set b2 (o + k) 0) o (o + k))
      by (try rewrite Buffer_length_set; try lia;
          intros i Hi; apply Buffer_get_set_ne; lia).
    unfold b2, k. rewrite splice_slice by (fold k; lia). rewrite Hcodec. fold k.
    replace (o + k + 1) with (o + (k + 1)) by lia.
    replace (o + (k + 1) - o) with (k + 1) by lia. reflexivity.
  - unfold capacity. rewrite Hb, Buffer_length_set, Hb2. lia.
  - exact Hz.
  - intros i Hi. rewrite Hb, Buffer_get_set_ne by lia.
    replace i with (o + (i - o)) by lia. unfold b2.
    rewrite splice_get_in by (fold k; lia).
    intros E. apply Hnz. eapply lookup_In. exact E.
Qed.

End CStringRoundTrip.

Lemma cstring_roundtrip_witness :
  let this := mkSmartBuffer [0; 0] 0 0 false in
  exists this',
    writeCString (fun _ => 0) (fun s => s) (JS.str "ab") None this = (this', Ok None) /\
    woffset this' = 0 + (2 + 1) /\
    Buffer.get (buffer this') (0 + 2) = Some 0 /\
    readCString (fun s => s) None this' =
    (set_roffset (0 + (2 + 1)) this', Ok (Str (JS.str "ab"))).
Proof.
  intros this.
  apply (cstring_roundtrip (fun _ => 0) (fun s => s) (fun s => s) this (JS.str "ab") None None).
  - reflexivity.
  - vm_compute. intuition discriminate.
  - vm_compute. intuition discriminate.
  - unfold capacity, Buffer.length. simpl. lia.
  - unfold capacity, Buffer.length. simpl. lia.
  - vm_compute. reflexivity.
  - reflexivity.
Defined.

(** ** Zig-zag coding *)

Lemma zigZagDecode32_spec u :
  0 <= u < 2 ^ 32 ->
  zigZagDecode32 u = if Z.even u then u / 2 else - (u / 2) - 1.
Proof.
  intros Hu. unfold zigZagDecode32, JS.xor, JS.shr, JS.and.
  rewrite (ToUint32_id u) by exact Hu.
  change (1 mod 32) with 1. rewrite Z.shiftr_div_pow2 by lia. change (2 ^ 1) with 2.
  rewrite (ToInt32_id 1) by lia. change 1 with (Z.ones 1) at 1.
  rewrite Z.land_ones by lia. change (2 ^ 1) with 2.
  assert (Hm : JS.ToInt32 u mod 2 = u mod 2).
  { unfold JS.ToInt32. cbv zeta. destruct (Z.ltb_spec (u mod 2 ^ 32) (2 ^ 31)); zlia. }
  rewrite Hm. rewrite (ToInt32_id (u / 2)) by zlia.
  rewrite Zeven_mod. destruct (Z.eqb_spec (u mod 2) 0) as [E|E].
  - rewrite E. change (- 0) with 0. rewrite (ToInt32_id 0) by lia. rewrite Z.lxor_0_r.
    apply ToInt32_id. zlia.
  - replace (u mod 2) with 1 by zlia. change (Z.opp 1) with (-1).
    rewrite (ToInt32_id (-1)) by lia. rewrite Z.lxor_m1_r. unfold Z.lnot.
    rewrite ToInt32_id by zlia. zlia.
Qed.

Lemma zigZagDecode32_ToUint32 x : zigZagDecode32 (JS.ToUint32 x) = zigZagDecode32 x.
Proof.
  unfold zigZagDecode32, JS.xor, JS.shr, JS.and.
  rewrite ToInt32_ToUint32.
  rewrite (ToUint32_id (JS.ToUint32 x)) by apply ToUint32_range. reflexivity.
Qed.

Lemma zigZagEncode32_ToInt32 n : zigZagEncode32 (JS.ToInt32 n) = zigZagEncode32 n.
Proof.
  unfold zigZagEncode32. cbv zeta.
  rewrite (ToInt32_id (JS.ToInt32 n)) by apply ToInt32_range. reflexivity.
Qed.

(** X14. [zigZagEncode32] and [zigZagDecode32] are inverse to each other
    between the signed and the unsigned 32-bit integers: decoding an encoded
    [n] gives [n | 0], encoding a decoded [u] gives [u >>> 0].  The code of a
    non-negative [n] is [2 n] and that of a negative [n] is [-2 n - 1], so
    the numbers from -64 to 63 take one varint byte. *)
Theorem zigzag32_inverse :
  (forall n, zigZagDecode32 (zigZagEncode32 n) = JS.ToInt32 n) /\
  (forall u, zigZagEncode32 (zigZagDecode32 u) = JS.ToUint32 u) /\
  (forall n, - 2 ^ 31 <= n < 2 ^ 31 ->
             zigZagEncode32 n = if n <? 0 then - 2 * n - 1 else 2 * n) /\
  (forall n, - 64 <= n < 64 -> calculateVarint32 (zigZagEncode32 n) = 1).
Proof.
  split; [|split; [|split]].
  - intros n. rewrite <- zigZagEncode32_ToInt32.
    pose proof (ToInt32_range n) as Hm. set (m := JS.ToInt32 n) in *.
    rewrite zigZagEncode32_spec by exact Hm.
    destruct (Z.ltb_spec m 0).
    + rewrite zigZagDecode32_spec by lia. rewrite Zeven_mod.
      destruct (Z.eqb_spec ((- 2 * m - 1) mod 2) 0); zlia.
    + rewrite zigZagDecode32_spec by lia. rewrite Zeven_mod.
      destruct (Z.eqb_spec ((2 * m) mod 2) 0); zlia.
  - intros u. rewrite <- zigZagDecode32_ToUint32.
    pose proof (ToUint32_range u) as Hv. set (v := JS.ToUint32 u) in *.
    rewrite zigZagDecode32_spec by exact Hv. rewrite Zeven_mod.
    destruct (Z.eqb_spec (v mod 2) 0).
    + rewrite zigZagEncode32_spec by zlia.
      destruct (Z.ltb_spec (v / 2) 0); zlia.
    + rewrite zigZagEncode32_spec by zlia.
      destruct (Z.ltb_spec (- (v / 2) - 1) 0); zlia.
  - intros n Hn. apply zigZagEncode32_spec. exact Hn.
  - intros n Hn. rewrite zigZagEncode32_spec by lia.
    unfold calculateVarint32. cbv zeta.
    destruct (Z.ltb_spec n 0); rewrite ToUint32_id by lia;
      change (JS.shl 1 7) with 128;
      match goal with |- context [?a <? 128] => destruct (Z.ltb_spec a 128) end;
      try reflexivity; lia.
Qed.

Lemma zigzag32_inverse_witness :
  zigZagEncode32 (-64) = (if -64 <? 0 then - 2 * -64 - 1 else 2 * -64) /\
  calculateVarint32 (zigZagEncode32 (-64)) = 1.
Proof.
  destruct zigzag32_inverse as (_ & _ & H3 & H4).
  split; [apply H3; lia|apply H4; lia].
Defined.

(** ** What a write copies *)

Lemma blit_splice (source target : list Z) ts ss se :
  0 <= ts -> 0 <= ss <= se -> se <= Buffer.length source ->
  ts + (se - ss) <= Buffer.length target ->
  Buffer.blit source target ts ss se =
  take (Z.to_nat ts) target ++ Buffer.slice source ss se
    ++ drop (Z.to_nat ts + List.length (Buffer.slice source ss se)) target.
Proof.
  intros Hts Hss Hse Hfit. unfold Buffer.blit.
  pose proof (slice_length source ss se Hss Hse) as Hl. unfold Buffer.length in *.
  rewrite (take_ge (Buffer.slice source ss se)) by lia. reflexivity.
Qed.

Lemma splice_get_above (b chunk : list Z) o i :
  0 <= o -> o + Buffer.length chunk <= i ->
  Buffer.get (take (Z.to_nat o) b ++ chunk ++ drop (Z.to_nat o + List.length chunk) b) i
  = Buffer.get b i.
Proof.
  intros Ho Hi. pose proof (Buffer_length_nonneg chunk) as Hc.
  destruct (Z.le_gt_cases (o + Buffer.length chunk) (Buffer.length b)) as [Hfit|Hno].
  - unfold Buffer.get. rewrite splice_length by lia.
    destruct ((0 <=? i) && (i <? Buffer.length b)) eqn:E; [|reflexivity].
    apply andb_true_iff in E as [E1 E2]. apply Z.leb_le in E1. apply Z.ltb_lt in E2.
    unfold Buffer.length in *.
    rewrite lookup_app_r by (rewrite length_take; lia).
    rewrite length_take, Nat.min_l by lia.
    rewrite lookup_app_r by lia. rewrite lookup_drop. f_equal. lia.
  - rewrite !Buffer_get_outside; [reflexivity|right; lia|right].
    unfold Buffer.length in *. rewrite !length_app, length_take, length_drop. lia.
Qed.

Lemma splice_get_below' (b chunk : list Z) o i :
  0 <= i < o -> o <= Buffer.length b ->
  Buffer.get (take (Z.to_nat o) b ++ chunk ++ drop (Z.to_nat o + List.length chunk) b) i
  = Buffer.get b i.
Proof.
  intros Hi Ho. unfold Buffer.get, Buffer.length in *.
  rewrite !length_app, length_take, length_drop.
  destruct (Z.ltb_spec i (Z.of_nat (List.length b))); [|lia].
  destruct (Z.leb_spec 0 i); [|lia].
  destruct (Z.ltb_spec i
              (Z.of_nat (Z.to_nat o `min` List.length b
                         + (List.length chunk
                            + (List.length b - (Z.to_nat o + List.length chunk))))));
    [|lia].
  cbn [andb]. rewrite lookup_app_l by (rewrite length_take; lia).
  apply lookup_take_lt. lia.
Qed.

Section WriteContents.

Variable junk : nat -> Z.


End WriteContents.


Lemma slice_app (b : list Z) a m e :
  0 <= a <= m -> m <= e ->
  Buffer.slice b a e = Buffer.slice b a m ++ Buffer.slice b m e.
Proof.
  intros Ha Hm. unfold Buffer.slice.
  replace (Z.to_nat (e - a)) with (Z.to_nat (m - a) + Z.to_nat (e - m))%nat by lia.
  rewrite <- take_take_drop, drop_drop.
  replace (Z.to_nat a + Z.to_nat (m - a))%nat with (Z.to_nat m) by lia. reflexivity.
Qed.

Section WriteBufferContents.

Variable junk : nat -> Z.

Lemma writeBuffer_stored this (buf : list Z) off :
  let o := default (woffset this) off in
  let n := Buffer.length buf in
  0 < n -> 0 <= o <= capacity this -> capacity this < 2 ^ 30 -> o + n < 2 ^ 30 ->
  exists this',
    writeBuffer junk buf off this = (this', Ok tt) /\
    roffset this' = roffset this /\
    woffset this' = match off with None => o + n | Some _ => woffset this end /\
    noAssert this' = noAssert this /\
    capacity this <= capacity this' /\ o + n <= capacity this' /\
    capacity this' <= Z.max (2 * capacity this) (o + n) /\
    Buffer.slice (buffer this') o (o + n) = buf /\
    (forall i, 0 <= i < o -> Buffer.get (buffer this') i = Buffer.get (buffer this) i) /\
    (forall i, o + n <= i < capacity this ->
               Buffer.get (buffer this') i = Buffer.get (buffer this) i).
Proof.
  intros o n Hn Ho Hcap Hsize.
  destruct (writeBuffer_run junk this buf off Hn Ho ltac:(right; lia)
              ltac:(unfold Buffer.MAX_LENGTH; lia))
    as (tail & W & Hfit & Hgrow). fold o n in W, Hfit, Hgrow.
  eexists. split; [exact W|].
  set (b' := Buffer.blit buf (buffer this ++ tail) o 0 n).
  assert (Hb : forall f : SmartBuffer -> SmartBuffer,
            (f = (fun t => t) \/ f = set_woffset (o + n)) ->
            buffer (f (set_buffer b' this)) = b' /\
            roffset (f (set_buffer b' this)) = roffset this /\
            noAssert (f (set_buffer b' this)) = noAssert this).
  { intros f [->| ->]; repeat split. }
  destruct (Hb (match off with None => set_woffset (o + n) | Some _ => fun this => this end))
    as (Hbuf & Hro & Hna); [destruct off; [left|right]; reflexivity|].
  split; [exact Hro|]. split; [destruct off; reflexivity|]. split; [exact Hna|].
  unfold capacity in *. rewrite Hbuf. unfold b'.
  rewrite blit_length by lia.
  assert (Hcap' : Buffer.length (buffer this ++ tail)
                  <= Z.max (2 * Buffer.length (buffer this)) (o + n)
                  /\ Buffer.length (buffer this) <= Buffer.length (buffer this ++ tail)).
  { destruct (Z.gtb_spec (o + n) (Buffer.length (buffer this))).
    - rewrite Hgrow. lia.
    - subst tail. rewrite app_nil_r. lia. }
  split; [lia|]. split; [exact Hfit|]. split; [lia|].
  rewrite blit_splice by (unfold n; lia).
  assert (Hs : Buffer.slice buf 0 n = buf).
  { unfold Buffer.slice, n, Buffer.length. rewrite Z.sub_0_r, Nat2Z.id.
    change (Z.to_nat 0) with 0%nat. rewrite drop_0. apply take_ge. lia. }
  rewrite Hs. split; [|split].
  - apply splice_slice; [lia|exact Hfit].
  - intros i Hi. rewrite splice_get_below' by lia. apply grown_get. lia.
  - intros i Hi. rewrite splice_get_above by (fold n; lia). apply grown_get. lia.
Qed.

(** X19. Two relative calls of [writeBuffer] append: after writing [buf1]
    and then [buf2] the store holds [buf1 ++ buf2] from the former write
    cursor on, the write cursor has advanced by both lengths, and the bytes
    of the store before the former write cursor are kept, whether or not the
    store had to grow. *)
Theorem writeBuffer_appends this (buf1 buf2 : list Z) :
  let o := woffset this in
  let n1 := Buffer.length buf1 in
  let n2 := Buffer.length buf2 in
  0 < n1 -> 0 < n2 -> 0 <= o <= capacity this -> capacity this < 2 ^ 29 ->
  o + n1 + n2 < 2 ^ 29 ->
  exists this1 this2,
    writeBuffer junk buf1 None this = (this1, Ok tt) /\
    writeBuffer junk buf2 None this1 = (this2, Ok tt) /\
    woffset this2 = o + n1 + n2 /\ roffset this2 = roffset this /\
    Buffer.slice (buffer this2) o (o + n1 + n2) = buf1 ++ buf2 /\
    forall i, 0 <= i < o -> Buffer.get (buffer this2) i = Buffer.get (buffer this) i.
Proof.
  intros o n1 n2 H1 H2 Ho Hcap Hsize.
  pose proof (Buffer_length_nonneg buf2) as Hn2. fold n2 in Hn2.
  destruct (writeBuffer_stored this buf1 None) as
    (this1 & W1 & R1 & Wo1 & _ & C1 & F1 & C1' & S1 & B1 & _);
    try (change (default (woffset this) None) with o; fold n1; lia).
  change (default (woffset this) None) with o in *. fold n1 in Wo1, F1, S1.
  assert (Hc1 : capacity this1 < 2 ^ 30) by lia.
  destruct (writeBuffer_stored this1 buf2 None H2) as
    (this2 & W2 & R2 & Wo2 & _ & C2 & F2 & _ & S2 & B2 & _).
  { change (default (woffset this1) None) with (woffset this1). lia. }
  { exact Hc1. }
  { change (default (woffset this1) None) with (woffset this1). fold n2. lia. }
  change (default (woffset this1) None) with (woffset this1) in *.
  fold n2 in Wo2, F2, S2. rewrite Wo1 in *.
  exists this1, this2. split; [exact W1|]. split; [exact W2|].
  split; [lia|]. split; [congruence|]. split.
  - rewrite (slice_app (buffer this2) o (o + n1) (o + n1 + n2)) by lia.
    rewrite S2. f_equal. rewrite <- S1.
    apply slice_agree; unfold capacity in *; try lia. intros i Hi. apply B2. lia.
  - intros i Hi. rewrite B2 by lia. apply B1. lia.
Qed.

End WriteBufferContents.

Lemma writeBuffer_appends_witness :
  exists this1 this2,
    writeBuffer (fun _ => 0) [1; 2] None (mkSmartBuffer [9] 1 0 false) = (this1, Ok tt) /\
    writeBuffer (fun _ => 0) [3] None this1 = (this2, Ok tt) /\
    woffset this2 = 1 + 2 + 1 /\ roffset this2 = 0 /\
    Buffer.slice (buffer this2) 1 (1 + 2 + 1) = [1; 2] ++ [3].
Proof.
  destruct (writeBuffer_appends (fun _ => 0) (mkSmartBuffer [9] 1 0 false) [1; 2] [3])
    as (this1 & this2 & H1 & H2 & H3 & H4 & H5 & _).
  - unfold Buffer.length. simpl. lia.
  - unfold Buffer.length. simpl. lia.
  - unfold capacity, Buffer.length. simpl. lia.
  - unfold capacity, Buffer.length. simpl. lia.
  - unfold capacity, Buffer.length. simpl. lia.
  - exists this1, this2. repeat split; assumption.
Defined.

(** ** Views *)

Section Views.

Variable junk : nat -> Z.

Lemma new_ok c na :
  0 <= c < 2 ^ 31 ->
  exists b, new junk c na = Ok (mkSmartBuffer b 0 0 na) /\ Buffer.length b = c.
Proof.
  intros Hc. unfold new.
  replace (if na then c else JS.ToInt32 c) with c
    by (destruct na; [reflexivity|rewrite ToInt32_id; lia]).
  destruct (Z.ltb_spec c 0); [lia|]. rewrite andb_false_r.
  destruct (Z.eqb_spec c 0) as [->|Hne].
  - eexists. split; reflexivity.
  - rewrite allocUnsafe_ok by (unfold Buffer.MAX_LENGTH; lia).
    eexists. split; [reflexivity|].
    unfold Buffer.length. rewrite length_map, length_seq. lia.
Qed.

Lemma slice_run this b e :
  0 <= b <= e -> e <= capacity this -> capacity this < 2 ^ 31 ->
  slice junk (Some b) (Some e) this
  = (this, Ok (mkSmartBuffer (Buffer.slice (buffer this) b e) (e - b) 0 false)).
Proof.
  intros Hb He Hcap. unfold slice, bind at 1. unfold get at 1. cbv beta iota.
  change (default (roffset this) (Some b)) with b.
  change (default (woffset this) (Some e)) with e.
  unfold bind at 1. rewrite checkRange_ok by (right; lia).
  destruct (new_ok (e - b) DEFAULT_NOASSERT) as (nb & Hnew & _); [lia|].
  monad. rewrite Hnew. unfold Host.subarray. unfold capacity in *.
  rewrite !adjustOffset_id by lia.
  unfold set_woffset, set_buffer, capacity; cbn [buffer woffset roffset noAssert].
  rewrite slice_length by lia. reflexivity.
Qed.

(** X20. [read(length)] returns the next [length] bytes of the store as a new
    object with [roffset = 0], [woffset = length] and assertions switched on,
    and moves [roffset] past them; [read(length, offset)] returns the bytes at
    [offset] and moves nothing.  With assertions enabled, a relative read
    that would pass the end of the store is refused with a [TypeError]
    before anything moves. *)
Theorem read_view this n :
  0 <= n -> 0 <= roffset this -> capacity this < 2 ^ 31 ->
  (roffset this + n <= capacity this ->
   read junk n None this
   = (set_roffset (roffset this + n) this,
      Ok (mkSmartBuffer
            (Buffer.slice (buffer this) (roffset this) (roffset this + n)) n 0 false))) /\
  (forall o, 0 <= o -> o + n <= capacity this ->
   read junk n (Some o) this
   = (this, Ok (mkSmartBuffer (Buffer.slice (buffer this) o (o + n)) n 0 false))) /\
  (noAssert this = false -> roffset this < 2 ^ 32 -> roffset this + n > capacity this ->
   read junk n None this = (this, Throw (TypeError "Illegal offset"))).
Proof.
  intros Hn Hr Hcap.
  assert (Hgen : forall off o, o = default (roffset this) off -> 0 <= o ->
            o + n <= capacity this ->
            read junk n off this
            = ((if bool_decide (off = None) then set_roffset (roffset this + n) this
                else this),
               Ok (mkSmartBuffer (Buffer.slice (buffer this) o (o + n)) n 0 false))).
  { intros off o -> Ho Hon. unfold read, bind at 1. unfold get at 1. cbv beta iota.
    set (o := default (roffset this) off) in *.
    assert (Hchk : (if negb (noAssert this)
                    then (let offset := JS.ToUint32 o in
                          if (offset <? 0) || (offset + n >? Buffer.length (buffer this))
                          then throw (TypeError "Illegal offset") else ret offset)
                    else ret o) this = (this, Ok o)).
    { destruct (noAssert this); cbn [negb]; [reflexivity|]. cbv zeta.
      unfold capacity in *. rewrite ToUint32_id by lia.
      destruct (Z.ltb_spec o 0); [lia|].
      destruct (Z.gtb_spec (o + n) (Buffer.length (buffer this))); [lia|]. reflexivity. }
    cbv zeta in Hchk. unfold bind at 1. cbv zeta. rewrite Hchk.
    unfold bind at 1. rewrite slice_run by lia.
    replace (o + n - o) with n by lia.
    subst o. destruct off; reflexivity. }
  split; [|split].
  - intros H. rewrite (Hgen None (roffset this)) by (reflexivity || lia). reflexivity.
  - intros o Ho H. rewrite (Hgen (Some o) o) by (reflexivity || lia). reflexivity.
  - intros Hna Hlt H. unfold read, bind at 1. unfold get at 1. cbv beta iota.
    change (default (roffset this) None) with (roffset this).
    rewrite Hna. cbn [negb]. cbv zeta. unfold capacity in *.
    rewrite ToUint32_id by lia.
    destruct (Z.ltb_spec (roffset this) 0); [lia|].
    destruct (Z.gtb_spec (roffset this + n) (Buffer.length (buffer this))); [|lia].
    reflexivity.
Qed.

End Views.

Lemma read_view_witness :
  read (fun _ => 0) 2 None (mkSmartBuffer [1; 2; 3; 4] 4 1 true)
  = (mkSmartBuffer [1; 2; 3; 4] 4 3 true, Ok (mkSmartBuffer [2; 3] 2 0 false)) /\
  read (fun _ => 0) 2 None (mkSmartBuffer [1; 2; 3; 4] 4 3 false)
  = (mkSmartBuffer [1; 2; 3; 4] 4 3 false, Throw (TypeError "Illegal offset")).
Proof.
  split.
  - apply (read_view (fun _ => 0) (mkSmartBuffer [1; 2; 3; 4] 4 1 true) 2);
      unfold capacity, Buffer.length; simpl; lia.
  - apply (read_view (fun _ => 0) (mkSmartBuffer [1; 2; 3; 4] 4 3 false) 2);
      unfold capacity, Buffer.length; simpl; (lia || reflexivity).
Defined.

(** ** Concatenation *)

Lemma concat_capacity (buffers : list SmartBuffer) : forall c,
  Forall (fun bi => 0 <= roffset bi /\ woffset bi <= capacity bi) buffers ->
  fold_left (fun capacity bi =>
               let length := woffset bi - roffset bi in
               if length >? 0 then capacity + length else capacity) buffers c
  = c + Buffer.length
          (flat_map (fun bi => Buffer.slice (buffer bi) (roffset bi) (woffset bi)) buffers).
Proof.
  induction buffers as [|bi buffers IH]; intros c H; cbn [fold_left flat_map].
  - unfold Buffer.length. simpl. lia.
  - inversion H as [|? ? [Hr Hw] H']; subst. rewrite IH by exact H'. cbv zeta.
    rewrite Buffer_length_app.
    destruct (Z.gtb_spec (woffset bi - roffset bi) 0).
    + rewrite slice_length by (unfold capacity in Hw; lia). lia.
    + replace (Buffer.slice (buffer bi) (roffset bi) (woffset bi)) with (@nil Z).
      * unfold Buffer.length at 2. simpl. lia.
      * unfold Buffer.slice. replace (Z.to_nat (woffset bi - roffset bi)) with 0%nat by lia.
        reflexivity.
Qed.

Lemma concat_loop_run (buffers : list SmartBuffer) : forall (done tail : list Z) r na,
  Forall (fun bi => 0 <= roffset bi /\ woffset bi <= capacity bi) buffers ->
  Buffer.length tail
  = Buffer.length
      (flat_map (fun bi => Buffer.slice (buffer bi) (roffset bi) (woffset bi)) buffers) ->
  concat_loop buffers (mkSmartBuffer (done ++ tail) (Buffer.length done) r na)
  = Ok (mkSmartBuffer
          (done ++ flat_map (fun bi => Buffer.slice (buffer bi) (roffset bi) (woffset bi))
                            buffers)
          (Buffer.length done + Buffer.length tail) r na).
Proof.
  induction buffers as [|bi buffers IH]; intros done tail r na H Hlen;
    cbn [concat_loop flat_map] in *.
  - destruct tail; [|unfold Buffer.length in Hlen; simpl in Hlen; lia].
    unfold Buffer.length at 2. simpl. rewrite Z.add_0_r. reflexivity.
  - inversion H as [|? ? [Hr Hw] H']; subst. cbv zeta.
    rewrite Buffer_length_app in Hlen.
    destruct (Z.leb_spec (woffset bi - roffset bi) 0) as [Hle|Hgt].
    + assert (Hnil : Buffer.slice (buffer bi) (roffset bi) (woffset bi) = []).
      { unfold Buffer.slice. replace (Z.to_nat (woffset bi - roffset bi)) with 0%nat by lia.
        reflexivity. }
      rewrite Hnil in *. cbn [app]. apply IH; [exact H'|].
      unfold Buffer.length at 2 in Hlen. simpl in Hlen. lia.
    + cbn [buffer woffset roffset].
      pose proof (Buffer_length_nonneg done) as Hd.
      rewrite copy_ok by (unfold capacity in Hw; lia).
      pose proof (slice_length (buffer bi) (roffset bi) (woffset bi)) as Hs.
      unfold capacity in Hw. specialize (Hs ltac:(lia) ltac:(lia)).
      rewrite Hs in Hlen.
      match type of Hlen with _ = _ + Buffer.length ?l =>
        pose proof (Buffer_length_nonneg l) as Hrest end.
      rewrite blit_splice by (rewrite ?Buffer_length_app; unfold capacity; lia).
      set (chunk := Buffer.slice (buffer bi) (roffset bi) (woffset bi)) in *.
      unfold set_woffset, set_buffer; cbn [buffer woffset roffset noAssert].
      assert (Ht : take (Z.to_nat (Buffer.length done)) (done ++ tail) = done).
      { unfold Buffer.length. rewrite Nat2Z.id. apply take_app_length. }
      assert (Hdr : drop (Z.to_nat (Buffer.length done) + List.length chunk) (done ++ tail)
                    = drop (List.length chunk) tail).
      { unfold Buffer.length. rewrite Nat2Z.id. rewrite drop_app_ge by lia. f_equal. lia. }
      rewrite Ht, Hdr, app_assoc.
      replace (Buffer.length done + (woffset bi - roffset bi))
        with (Buffer.length (done ++ chunk)) by (rewrite Buffer_length_app; lia).
      rewrite IH.
      * rewrite <- app_assoc. f_equal.
        rewrite Buffer_length_app. unfold Buffer.length in *. rewrite length_drop.
        f_equal. lia.
      * exact H'.
      * unfold Buffer.length in *. rewrite length_drop. lia.
Qed.

(** X21. [concat] of buffers whose cursors lie inside their stores gives a
    buffer that holds exactly their readable regions, one after the other in
    the order of the list, with [roffset = 0] and [woffset] at its capacity;
    a buffer whose readable region is empty contributes nothing. *)
Theorem concat_readable (junk : nat -> Z) (buffers : list SmartBuffer) (na : bool) :
  let bytes :=
    flat_map (fun bi => Buffer.slice (buffer bi) (roffset bi) (woffset bi)) buffers in
  Forall (fun bi => 0 <= roffset bi /\ woffset bi <= capacity bi) buffers ->
  Buffer.length bytes < 2 ^ 31 ->
  concat junk buffers na = Ok (mkSmartBuffer bytes (Buffer.length bytes) 0 na).
Proof.
  intros bytes H Hlt. unfold concat.
  rewrite concat_capacity by exact H. fold bytes. rewrite Z.add_0_l.
  pose proof (Buffer_length_nonneg bytes) as Hge.
  destruct (Z.eqb_spec (Buffer.length bytes) 0) as [H0|Hne].
  - destruct bytes; [|unfold Buffer.length in H0; simpl in H0; lia].
    destruct na; reflexivity.
  - destruct (new_ok junk (Buffer.length bytes) na) as (b & -> & Hb); [lia|].
    change b with ([] ++ b).
    change 0 with (Buffer.length []) at 1.
    rewrite concat_loop_run by (exact H || exact Hb).
    unfold set_roffset; cbn [buffer woffset roffset noAssert app]. fold bytes.
    rewrite Hb. reflexivity.
Qed.

Lemma concat_readable_witness :
  concat (fun _ => 0)
         [mkSmartBuffer [1; 2; 3] 3 1 false; mkSmartBuffer [4; 5] 0 0 false;
          mkSmartBuffer [6; 7; 8] 2 0 true] false
  = Ok (mkSmartBuffer [2; 3; 6; 7] 4 0 false).
Proof.
  apply (concat_readable (fun _ => 0)
           [mkSmartBuffer [1; 2; 3] 3 1 false; mkSmartBuffer [4; 5] 0 0 false;
            mkSmartBuffer [6; 7; 8] 2 0 true] false).
  - repeat constructor; unfold capacity, Buffer.length; simpl; lia.
  - unfold Buffer.length. simpl. lia.
Defined.

(** ** Copies *)

Section CopyTo.

Variable junk : nat -> Z.

Lemma ensureCapacity_grow c this : ensureCapacity junk c this = grow junk c this.
Proof.
  unfold ensureCapacity, grow. monad.
  rewrite (Z.gtb_ltb c). reflexivity.
Qed.

(** What [copyTo] does for a target that is another object and a range
    with bytes to copy. *)
Lemma copyTo_run (h : gmap nat SmartBuffer) this target s t
        (targetOffset sourceStart sourceEnd : optional) :
  let to := match targetOffset with None => woffset t | Some x => x end in
  let ss := match sourceStart with None => roffset s | Some x => x end in
  let se := match sourceEnd with None => woffset s | Some x => x end in
  let len := se - ss in
  this <> target -> h !! this = Some s -> h !! target = Some t ->
  0 <= ss < se -> se <= capacity s -> capacity s < 2 ^ 30 ->
  0 <= to <= capacity t -> capacity t < 2 ^ 30 ->
  exists h' t',
    copyTo junk this target targetOffset sourceStart sourceEnd h = (h', Ok this) /\
    h' !! this = Some (match sourceStart with
                       | None => set_roffset (roffset s + len) s
                       | Some _ => s
                       end) /\
    h' !! target = Some t' /\
    woffset t' = match targetOffset with None => woffset t + len | Some _ => woffset t end /\
    roffset t' = roffset t /\
    Buffer.slice (buffer t') to (to + len) = Buffer.slice (buffer s) ss se /\
    (forall i, 0 <= i < to -> Buffer.get (buffer t') i = Buffer.get (buffer t) i) /\
    (forall i, to + len <= i < capacity t ->
               Buffer.get (buffer t') i = Buffer.get (buffer t) i) /\
    capacity t' = (if to + len >? capacity t
                   then Z.max (2 * capacity t) (to + len) else capacity t) /\
    noAssert t' = noAssert t /\
    (forall r, r <> this -> r <> target -> h' !! r = h !! r).
Proof.
  intros to ss se len Hne Hs Ht Hss Hse Hcs Hto Hct.
  destruct (grow_run junk t (to + len)) as (tail & G3 & G1 & G2);
    [right; unfold len; lia|unfold Buffer.MAX_LENGTH, len; lia|].
  assert (Hcopy : Buffer.copy (buffer s) (buffer t ++ tail) to ss se =
                  Ok (Buffer.blit (buffer s) (buffer t ++ tail) to ss se)).
  { apply copy_ok; unfold capacity in *; lia. }
  set (b' := Buffer.blit (buffer s) (buffer t ++ tail) to ss se) in *.
  assert (Hcontent :
            Buffer.slice b' to (to + len) = Buffer.slice (buffer s) ss se /\
            (forall i, 0 <= i < to -> Buffer.get b' i = Buffer.get (buffer t) i) /\
            (forall i, to + len <= i < capacity t ->
                       Buffer.get b' i = Buffer.get (buffer t) i) /\
            Buffer.length b' = (if to + len >? capacity t
                                then Z.max (2 * capacity t) (to + len) else capacity t)).
  { unfold capacity in *. subst b'.
    split; [|split; [|split]].
    4: { rewrite blit_length by lia.
         destruct (to + len >? Buffer.length (buffer t)); [exact G2|].
         rewrite G2, app_nil_r. reflexivity. }
    all: rewrite blit_splice by (unfold len in *; lia).
    all: pose proof (slice_length (buffer s) ss se ltac:(lia) Hse) as Hsl; fold len in Hsl.
    - rewrite <- Hsl at 1. apply splice_slice; [lia|rewrite Hsl; exact G1].
    - intros i Hi. rewrite splice_get_below' by lia. apply grown_get. lia.
    - intros i Hi. rewrite splice_get_above by (rewrite ?Hsl; lia). apply grown_get. lia. }
  assert (Hchk1 : ((to <? 0) || (to >? Buffer.length (buffer t))) = false).
  { unfold capacity in *. destruct (Z.ltb_spec to 0); [lia|].
    destruct (Z.gtb_spec to (Buffer.length (buffer t))); [lia|]. reflexivity. }
  assert (Hchk2 : ((ss <? 0) || (se >? Buffer.length (buffer s))) = false).
  { unfold capacity in *. destruct (Z.ltb_spec ss 0); [lia|].
    destruct (Z.gtb_spec se (Buffer.length (buffer s))); [lia|]. reflexivity. }
  assert (Hlen : (len =? 0) = false) by (apply Z.eqb_neq; unfold len; lia).
  unfold copyTo. monad. run_on. run_on.
  replace (match targetOffset with None => woffset t | Some x => JS.ToInt32 x end) with to
    by (unfold to, capacity in *; destruct targetOffset; [rewrite ToInt32_id; lia|reflexivity]).
  replace (match sourceStart with None => roffset s | Some x => JS.ToInt32 x end) with ss
    by (unfold ss, capacity in *; destruct sourceStart; [rewrite ToInt32_id; lia|reflexivity]).
  replace (match sourceEnd with None => woffset s | Some x => JS.ToInt32 x end) with se
    by (unfold se, capacity in *; destruct sourceEnd; [rewrite ToInt32_id; lia|reflexivity]).
  rewrite Hchk1, Hchk2. fold len. rewrite Hlen.
  run_on. rewrite ensureCapacity_grow, G3. cbn [fst snd]. cbv beta iota.
  run_on. run_on. cbn [buffer set_buffer]. rewrite Hcopy. cbv beta iota. run_on.
  cbn [roffset woffset noAssert buffer set_buffer].
  destruct Hcontent as (C1 & C2 & C3 & C4).
  destruct sourceStart as [x|], targetOffset as [y|];
    repeat first [rewrite bool_decide_eq_true_2 by reflexivity
                 |rewrite bool_decide_eq_false_2 by discriminate];
    cbv beta iota; repeat run_on.
  all: eexists _, _; split; [reflexivity|].
  all: split; [lookup_heap|]; split; [lookup_heap|].
  all: unfold capacity at 1.
  all: cbn [roffset woffset noAssert buffer set_buffer set_woffset].
  all: repeat split;
    first [exact C1|exact C2|exact C3|exact C4
          |intros r Hr1 Hr2; rewrite !lookup_insert_ne by congruence; reflexivity].
Qed.


(** X23. [copy(begin, end)] gives a new object, distinct from every object
    that exists, whose store is exactly the bytes [begin .. end] of this
    buffer and whose [noAssert] is this buffer's.  Both its cursors are 0, so
    its readable region is empty; this buffer and all others are unchanged. *)
Theorem copy_fresh (h : gmap nat SmartBuffer) this s (begin end_ : optional) :
  let b := default (roffset s) begin in
  let e := default (woffset s) end_ in
  h !! this = Some s -> 0 <= b <= e -> e <= capacity s -> capacity s < 2 ^ 30 ->
  exists h' bb,
    copy junk this begin end_ h = (h', Ok bb) /\
    h !! bb = None /\
    h' !! bb = Some (mkSmartBuffer (Buffer.slice (buffer s) b e) 0 0 (noAssert s)) /\
    (forall r, r <> bb -> h' !! r = h !! r).
Proof.
  intros b e Hs Hb He Hcap.
  unfold copy. monad. run_on. fold b e.
  erewrite on_Some by lookup_heap. rewrite checkRange_ok by (right; lia).
  cbn [fst snd]. cbv beta iota. rewrite insert_insert_eq.
  set (h1 := <[this := s]> h).
  set (r := fresh (dom h1)).
  assert (Hf : r ∉ dom h1) by apply is_fresh.
  assert (Hdom : dom h1 = {[this]} ∪ dom h) by (unfold h1; apply dom_insert_L).
  rewrite Hdom in Hf. apply not_elem_of_union in Hf as [Hf1 Hf2].
  assert (Hr : r <> this) by (intros Heq; apply Hf1, elem_of_singleton; exact Heq).
  assert (Hnone : h !! r = None) by (apply not_elem_of_dom; exact Hf2).
  assert (Hother : forall r', r' <> r -> h1 !! r' = h !! r').
  { intros r' _. unfold h1. destruct (decide (r' = this)) as [->|Hn].
    - rewrite lookup_insert_eq. symmetry. exact Hs.
    - rewrite lookup_insert_ne by congruence. reflexivity. }
  destruct (Z.eqb_spec b e) as [Heq|Hneq].
  - assert (Hnew : new junk 0 (noAssert s) = Ok (mkSmartBuffer [] 0 0 (noAssert s)))
      by (destruct (noAssert s); reflexivity).
    rewrite Hnew. unfold alloc. cbv zeta. fold r. eexists _, _. split; [reflexivity|].
    split; [exact Hnone|]. split.
    + rewrite lookup_insert_eq. do 2 f_equal. unfold Buffer.slice.
      replace (Z.to_nat (e - b)) with 0%nat by lia. reflexivity.
    + intros r' Hr'. rewrite lookup_insert_ne by congruence. apply Hother. exact Hr'.
  - destruct (new_ok junk (e - b) (noAssert s)) as (nb & Hnew & Hnb); [unfold capacity in *; lia|].
    rewrite Hnew. unfold alloc at 1. cbv beta iota zeta. fold r.
    run_on. run_on.
    match goal with |- context [copyTo junk this r _ _ _ ?hh] => set (h2 := hh) end.
    destruct (copyTo_run h2 this r s (mkSmartBuffer nb 0 0 (noAssert s))
                (Some 0) (Some b) (Some e))
      as (h' & t' & R & R1 & R2 & R3 & R4 & R5 & _ & _ & R8 & R9 & R10).
    + congruence.
    + unfold h2, h1. lookup_heap.
    + unfold h2. lookup_heap.
    + lia.
    + exact He.
    + exact Hcap.
    + unfold capacity. cbn [buffer]. lia.
    + unfold capacity. cbn [buffer]. unfold capacity in *. lia.
    + rewrite R. exists h', r. split; [reflexivity|]. split; [exact Hnone|]. split.
      * rewrite R2. f_equal. cbn [woffset roffset noAssert buffer] in *.
        unfold capacity in R8. cbn [buffer] in R8.
        assert (Hl : Buffer.length (buffer t') = e - b).
        { rewrite R8, Hnb. destruct (Z.gtb_spec (0 + (e - b)) (e - b)); [lia|reflexivity]. }
        destruct t' as [tb tw tr tn]. cbn [woffset roffset noAssert buffer] in *.
        subst tw tr tn. f_equal. rewrite <- R5. unfold Buffer.slice, Buffer.length in *.
        change (Z.to_nat 0) with 0%nat. rewrite drop_0. symmetry. apply take_ge. lia.
      * intros r' Hr'. destruct (decide (r' = this)) as [->|Hn].
        { rewrite R1. symmetry. exact Hs. }
        rewrite R10 by congruence. unfold h2.
        rewrite !lookup_insert_ne by congruence. apply Hother. exact Hr'.
Qed.

End CopyTo.


Lemma copy_fresh_witness :
  let h : gmap nat SmartBuffer := <[0%nat := mkSmartBuffer [1; 2; 3; 4] 3 1 true]> ∅ in
  exists h' bb,
    copy (fun _ => 0) 0 None None h = (h', Ok bb) /\
    h !! bb = None /\
    h' !! bb = Some (mkSmartBuffer [2; 3] 0 0 true).
Proof.
  intros h.
  destruct (copy_fresh (fun _ => 0) h 0 (mkSmartBuffer [1; 2; 3; 4] 3 1 true) None None)
    as (h' & bb & H1 & H2 & H3 & _).
  - reflexivity.
  - simpl. lia.
  - unfold capacity, Buffer.length. simpl. lia.
  - unfold capacity, Buffer.length. simpl. lia.
  - exists h', bb. repeat split; assumption.
Defined.

(** ** Bit sets *)

Lemma element_drop (value : list Z) bit i :
  0 <= bit -> 0 <= i ->
  element (drop (Z.to_nat bit) value) i = element value (bit + i).
Proof.
  intros Hb Hi. unfold element. rewrite lookup_drop. do 2 f_equal. lia.
Qed.

Lemma packByte_drop (value : list Z) bit :
  0 <= bit -> packByte value bit = packByte (drop (Z.to_nat bit) value) 0.
Proof.
  intros Hb. unfold packByte. rewrite !element_drop by lia.
  rewrite Z.add_0_r. reflexivity.
Qed.

Lemma writeBitSet_tail_drop rest : forall (value : list Z) bit m k,
  0 <= bit ->
  writeBitSet_tail rest value bit m k
  = writeBitSet_tail rest (drop (Z.to_nat bit) value) 0 m k.
Proof.
  induction rest as [|rest IH]; intros value bit m k Hb; cbn [writeBitSet_tail].
  - reflexivity.
  - rewrite (IH value (bit + 1)) by lia.
    rewrite (IH (drop (Z.to_nat bit) value) (0 + 1)) by lia.
    rewrite drop_drop, element_drop, Z.add_0_r by lia.
    do 2 f_equal. lia.
Qed.

(** The value that [readInt8] gives for a stored byte has the eight flags of
    the byte. *)
Lemma unpackByte_int8 p :
  0 <= p < 256 ->
  unpackByte (if JS.and p 0x80 =? 0x80 then - (0xFF - p + 1) else p) = unpackByte p.
Proof.
  intros Hp.
  apply (byte_cases (fun p =>
    bool_decide (unpackByte (if JS.and p 0x80 =? 0x80 then - (0xFF - p + 1) else p)
                 = unpackByte p))) in Hp.
  - apply bool_decide_eq_true_1 in Hp. exact Hp.
  - vm_compute. reflexivity.
Qed.

Lemma readBitSet_tail_int8 rest p :
  0 <= p < 256 -> (rest <= 8)%nat ->
  readBitSet_tail rest (if JS.and p 0x80 =? 0x80 then - (0xFF - p + 1) else p) 0
  = readBitSet_tail rest p 0.
Proof.
  intros Hp Hrest.
  assert (H : forallb (fun rest =>
            forallb (fun n =>
              bool_decide
                (readBitSet_tail rest
                   (if JS.and (Z.of_nat n) 0x80 =? 0x80
                    then - (0xFF - Z.of_nat n + 1) else Z.of_nat n) 0
                 = readBitSet_tail rest (Z.of_nat n) 0)) (seq 0 256)) (seq 0 9) = true)
    by (vm_compute; reflexivity).
  rewrite forallb_forall in H. specialize (H rest ltac:(apply in_seq; lia)).
  rewrite forallb_forall in H. specialize (H (Z.to_nat p) ltac:(apply in_seq; lia)).
  rewrite Z2Nat.id in H by lia. apply bool_decide_eq_true_1 in H. exact H.
Qed.

(** The flags of a byte that [writeBitSet] packs from eight flags: the second
    one is lost. *)
Lemma packByte_flags (x0 x1 x2 x3 x4 x5 x6 x7 : Z) (rest : list Z) :
  Forall (fun x => x = 0 \/ x = 1) [x0; x1; x2; x3; x4; x5; x6; x7] ->
  unpackByte (JS.ToInt32 (packByte (x0 :: x1 :: x2 :: x3 :: x4 :: x5 :: x6 :: x7 :: rest) 0)
              mod 256)
  = [x0 =? 1; false; x2 =? 1; x3 =? 1; x4 =? 1; x5 =? 1; x6 =? 1; x7 =? 1].
Proof.
  intros H.
  repeat match goal with
         | H : Forall _ (_ :: _) |- _ =>
             let H1 := fresh in let H2 := fresh in
             inversion H as [|? ? H1 H2]; subst; clear H; destruct H1; subst
         end.
  all: vm_compute; reflexivity.
Qed.

Ltac flags01 :=
  repeat match goal with
         | H : Forall _ (_ :: _) |- _ =>
             let H1 := fresh in let H2 := fresh in
             inversion H as [|? ? H1 H2]; subst; clear H; destruct H1; subst
         end.

(** The flags of the last byte, which [writeBitSet] packs from fewer than
    eight flags. *)
Lemma tail_flags (l : list Z) :
  (List.length l < 8)%nat -> Forall (fun x => x = 0 \/ x = 1) l ->
  readBitSet_tail (List.length l)
    (JS.ToInt32 (writeBitSet_tail (List.length l) l 0 0 0) mod 256) 0
  = map (fun x => x =? 1) l.
Proof.
  intros Hlen H.
  do 8 (destruct l as [|? l]; [flags01; vm_compute; reflexivity|]).
  simpl in Hlen. lia.
Qed.

Lemma sar_3 n : 0 <= n < 2 ^ 31 -> JS.sar n 3 = n / 8.
Proof.
  intros Hn. unfold JS.sar. rewrite ToInt32_id by lia.
  change (3 mod 32) with 3. rewrite Z.shiftr_div_pow2 by lia. reflexivity.
Qed.

(** The bytes that the loop of [writeVarint32] writes do not depend on the
    store it writes to. *)
Lemma writeVarint32_loop_bytes value offset b :
  forall b' : list Z,
    0 <= offset ->
    snd (writeVarint32_loop value offset b) <= Buffer.length b ->
    snd (writeVarint32_loop value offset b) <= Buffer.length b' ->
    forall i, offset <= i < snd (writeVarint32_loop value offset b) ->
              Buffer.get (fst (writeVarint32_loop value offset b')) i
              = Buffer.get (fst (writeVarint32_loop value offset b)) i.
Proof.
  apply (writeVarint32_loop_elim
           (fun value offset b r =>
              forall b' : list Z,
                0 <= offset -> snd r <= Buffer.length b -> snd r <= Buffer.length b' ->
                forall i, offset <= i < snd r ->
                          Buffer.get (fst (writeVarint32_loop value offset b')) i
                          = Buffer.get (fst r) i)); clear.
  - intros value Hv offset b _ b' Ho Hb Hb' i Hi. cbn [fst snd] in *.
    rewrite writeVarint32_loop_eq. destruct (Z.ltb_spec value 128); [|lia].
    cbn [fst]. replace i with offset by lia.
    rewrite !Buffer_get_set_eq by lia. reflexivity.
  - intros value Hv offset b IH _ b' Ho Hb Hb' i Hi.
    rewrite (writeVarint32_loop_eq value offset b').
    destruct (Z.ltb_spec value 128); [lia|].
    set (x := JS.or (JS.and value 0x7f) 0x80) in *.
    pose proof (writeVarint32_loop_frame (JS.shr value 7) (offset + 1)
                  (Buffer.set b offset x)) as (_ & F2 & F3).
    pose proof (writeVarint32_loop_frame (JS.shr value 7) (offset + 1)
                  (Buffer.set b' offset x)) as (_ & _ & F3').
    destruct (Z.eq_dec i offset) as [->|Hne].
    + rewrite F3, F3' by lia. rewrite !Buffer_get_set_eq by lia. reflexivity.
    + apply IH; rewrite ?Buffer_length_set; lia.
Qed.

Lemma readInt8_run this o p :
  0 <= o -> o + 1 <= capacity this -> Buffer.get (buffer this) o = Some p ->
  readInt8 (Some o) this
  = (this, Ok (Some (if JS.and p 0x80 =? 0x80 then - (0xFF - p + 1) else p))).
Proof.
  intros Ho Hcap Hp. unfold readInt8, bind at 1.
  rewrite (_checkRead_ok this (Some o) 1)
    by (right; change (default (roffset this) (Some o)) with o; lia).
  change (default (roffset this) (Some o)) with o. monad. rewrite Hp.
  change (JS.number (Some p)) with p.
  destruct (JS.and p 128 =? 128); reflexivity.
Qed.

Section BitSetRuns.

Variable junk : nat -> Z.

Lemma writeInt8_run this v o :
  0 <= o <= capacity this -> capacity this < 2 ^ 32 ->
  noAssert this = true \/ Z.max (2 * capacity this) (o + 1) < 2 ^ 31 ->
  exists tail,
    writeInt8 junk v (Some o) this
    = (set_buffer (Buffer.set (buffer this ++ tail) o (JS.ToInt32 v)) this, Ok tt) /\
    o + 1 <= Buffer.length (buffer this ++ tail) /\
    (if o + 1 >? capacity this
     then Buffer.length (buffer this ++ tail) = Z.max (2 * capacity this) (o + 1)
     else tail = []).
Proof.
  intros Ho Hcap Hn.
  destruct (_checkWrite_run junk this (JS.ToInt32 v) (Some o) 1 Ho Hcap Hn
              ltac:(change (default (woffset this) (Some o)) with o;
                    unfold Buffer.MAX_LENGTH; lia))
    as (tail & E & G).
  change (default (woffset this) (Some o)) with o in *.
  exists tail. split; [|exact G]. unfold writeInt8, bind. rewrite E. reflexivity.
Qed.

(** The first loop of [writeBitSet]: one byte for each eight flags, behind
    each other from [offset]. *)
Lemma writeBitSet_bytes_run (m : nat) : forall (value : list Z) bit offset this,
  0 <= offset <= capacity this ->
  Z.max (capacity this) (2 * (offset + Z.of_nat m)) < 2 ^ 30 ->
  exists this',
    writeBitSet_bytes junk m value bit offset this
    = (this', Ok (bit + 8 * Z.of_nat m, offset + Z.of_nat m)) /\
    woffset this' = woffset this /\ roffset this' = roffset this /\
    noAssert this' = noAssert this /\
    capacity this <= capacity this' /\ offset + Z.of_nat m <= capacity this' /\
    capacity this' <= Z.max (capacity this) (2 * (offset + Z.of_nat m)) /\
    (forall i, 0 <= i < offset -> Buffer.get (buffer this') i = Buffer.get (buffer this) i) /\
    (forall j, 0 <= j < Z.of_nat m ->
               Buffer.get (buffer this') (offset + j)
               = Some (JS.ToInt32 (packByte value (bit + 8 * j)) mod 256)).
Proof.
  induction m as [|m IH]; intros value bit offset this Ho Hsize.
  - exists this. cbn [writeBitSet_bytes]. unfold ret.
    replace (bit + 8 * Z.of_nat 0) with bit by lia.
    replace (offset + Z.of_nat 0) with offset by lia.
    repeat split; intros; lia.
  - destruct (writeInt8_run this (packByte value bit) offset Ho ltac:(lia)
                ltac:(right; lia)) as (tail & W & G1 & G2).
    set (t1 := set_buffer (Buffer.set (buffer this ++ tail) offset
                             (JS.ToInt32 (packByte value bit))) this) in *.
    assert (Hc1 : capacity t1 = Buffer.length (buffer this ++ tail))
      by (unfold t1, capacity; cbn [buffer set_buffer]; apply Buffer_length_set).
    assert (Hc1' : capacity this <= capacity t1 /\
                   capacity t1 <= Z.max (capacity this) (2 * (offset + 1))).
    { rewrite Hc1. unfold capacity in *.
      destruct (Z.gtb_spec (offset + 1) (Buffer.length (buffer this))).
      - rewrite G2. lia.
      - subst tail. rewrite app_nil_r. lia. }
    destruct (IH value (bit + 8) (offset + 1) t1) as
      (this' & R & R1 & R2 & R3 & R4 & R5 & R6 & R7 & R8); [lia|lia|].
    exists this'. cbn [writeBitSet_bytes]. unfold bind. rewrite W. cbv beta iota.
    rewrite R. split; [do 3 f_equal; lia|].
    split; [exact R1|]. split; [exact R2|]. split; [exact R3|].
    split; [lia|]. split; [lia|]. split; [lia|]. split.
    + intros i Hi. rewrite R7 by lia. unfold t1. cbn [buffer set_buffer].
      rewrite Buffer_get_set_ne by lia. apply grown_get. unfold capacity in *. lia.
    + intros j Hj. destruct (Z.eq_dec j 0) as [->|Hne].
      * rewrite Z.add_0_r, Z.mul_0_r, Z.add_0_r. rewrite R7 by lia.
        unfold t1. cbn [buffer set_buffer]. apply Buffer_get_set_eq. lia.
      * replace (offset + j) with (offset + 1 + (j - 1)) by lia.
        rewrite R8 by lia.
        replace (bit + 8 + 8 * (j - 1)) with (bit + 8 * j) by lia. reflexivity.
Qed.

End BitSetRuns.

(** The first loop of [readBitSet] over [m] bytes of the store: it ends, and
    gives the eight flags of each. *)
Lemma readBitSet_bytes_run (m : nat) : forall fuel offset bit acc this (B : Z -> Z),
  (m < fuel)%nat -> 0 <= offset -> offset + Z.of_nat m <= capacity this ->
  (forall j, offset <= j < offset + Z.of_nat m ->
             Buffer.get (buffer this) j = Some (B j) /\ 0 <= B j < 256) ->
  readBitSet_bytes fuel (Z.of_nat m) bit offset acc this
  = (this, Ok (Some (bit + 8 * Z.of_nat m, offset + Z.of_nat m,
                     acc ++ flat_map (fun j => unpackByte (B (Z.of_nat j)))
                                     (seq (Z.to_nat offset) m)))).
Proof.
  induction m as [|m IH]; intros fuel offset bit acc this B Hfuel Ho Hcap HB;
    (destruct fuel as [|fuel]; [lia|]); cbn [readBitSet_bytes].
  - change (Z.of_nat 0 =? 0) with true. cbv iota. unfold ret.
    cbn [seq flat_map]. rewrite app_nil_r.
    replace (bit + 8 * Z.of_nat 0) with bit by lia.
    replace (offset + Z.of_nat 0) with offset by lia. reflexivity.
  - destruct (Z.eqb_spec (Z.of_nat (S m)) 0); [lia|].
    destruct (HB offset ltac:(lia)) as [Hg Hp].
    unfold bind. rewrite (readInt8_run this offset (B offset)) by (lia || exact Hg).
    cbv beta iota. change (JS.number (Some ?x)) with x.
    rewrite unpackByte_int8 by exact Hp.
    replace (Z.of_nat (S m) - 1) with (Z.of_nat m) by lia.
    rewrite (IH fuel (offset + 1) (bit + 8) _ this B) by (lia || (intros; apply HB; lia)).
    replace (bit + 8 + 8 * Z.of_nat m) with (bit + 8 * Z.of_nat (S m)) by lia.
    replace (offset + 1 + Z.of_nat m) with (offset + Z.of_nat (S m)) by lia.
    cbn [seq flat_map]. rewrite <- app_assoc, Z2Nat.id by lia.
    replace (Z.to_nat (offset + 1)) with (S (Z.to_nat offset)) by lia. reflexivity.
Qed.

Section BitSet.

Variable junk : nat -> Z.

(** What a relative [writeBitSet] stores: the number of flags as a varint,
    one byte for each eight flags and a last byte for the flags left. *)
Lemma writeBitSet_stored this (value : list Z) :
  let n := Z.of_nat (List.length value) in
  let o := woffset this in
  let size := calculateVarint32 n in
  let m := n / 8 in
  0 <= o <= capacity this -> capacity this < 2 ^ 28 -> o + n < 2 ^ 28 ->
  exists this',
    writeBitSet junk value None this = (this', Ok None) /\
    roffset this' = roffset this /\ noAssert this' = noAssert this /\
    woffset this' = o + size + m + (if 8 * m <? n then 1 else 0) /\
    woffset this' <= capacity this' /\ capacity this' < 2 ^ 31 /\
    (forall i, o <= i < o + size ->
               Buffer.get (buffer this') i
               = Buffer.get (fst (writeVarint32_loop n o (buffer this'))) i) /\
    (forall j, 0 <= j < m ->
               Buffer.get (buffer this') (o + size + j)
               = Some (JS.ToInt32 (packByte value (8 * j)) mod 256)) /\
    (8 * m < n ->
     Buffer.get (buffer this') (o + size + m)
     = Some (JS.ToInt32 (writeBitSet_tail (Z.to_nat (n - 8 * m)) value (8 * m) 0 0)
             mod 256)).
Proof.
  intros n o size m Ho Hcap Hsize.
  assert (Hn : 0 <= n) by (unfold n; lia).
  assert (Hm : 0 <= m <= n) by (unfold m; zlia).
  pose proof (calculateVarint32_range n) as Hsz. fold size in Hsz.
  assert (Hnu : JS.ToUint32 n = n) by (apply ToUint32_id; lia).
  (* the varint *)
  destruct (writeVarint32_run junk this n (Some o)) as (tail & V1 & V2 & V3).
  { change (default (woffset this) (Some o)) with o. exact Ho. }
  { lia. }
  { right. change (default (woffset this) (Some o)) with o. fold size. lia. }
  cbv zeta in V1, V2, V3. change (default (woffset this) (Some o)) with o in *.
  fold size in V1, V2, V3. rewrite Hnu in V3.
  set (b1 := buffer this ++ tail) in *.
  set (b2 := fst (writeVarint32_loop n o b1)) in *.
  set (t1 := set_buffer b2 this) in *.
  destruct (writeVarint32_loop_frame n o b1) as (F1 & _ & _). fold b2 in F1.
  pose proof (writeVarint32_loop_size n o b1 ltac:(lia)) as Hsnd. fold size in Hsnd.
  assert (Hc1 : capacity this <= capacity t1 /\ o + size <= capacity t1 /\
                capacity t1 <= Z.max (2 * capacity this) (o + size)).
  { unfold t1, capacity in *. cbn [buffer set_buffer]. rewrite F1.
    destruct (Z.gtb_spec (o + size) (Buffer.length (buffer this))).
    - rewrite V2. lia.
    - subst tail. unfold b1. rewrite app_nil_r. lia. }
  (* the full bytes *)
  destruct (writeBitSet_bytes_run junk (Z.to_nat m) value 0 (o + size) t1)
    as (t2 & L & L1 & L2 & L3 & L4 & L5 & L6 & L7 & L8); [lia|lia|].
  rewrite Z2Nat.id in L, L5, L6, L8 by lia. rewrite Z.add_0_l in L.
  (* the last byte *)
  assert (Htail : exists t3,
             (if 8 * m <? n then
                writeInt8 junk (writeBitSet_tail (Z.to_nat (n - 8 * m)) value (8 * m) 0 0)
                          (Some (o + size + m));;
                ret (o + size + m + 1)
              else ret (o + size + m)) t2
             = (t3, Ok (o + size + m + (if 8 * m <? n then 1 else 0))) /\
             woffset t3 = woffset t2 /\ roffset t3 = roffset t2 /\
             noAssert t3 = noAssert t2 /\
             o + size + m + (if 8 * m <? n then 1 else 0) <= capacity t3 /\
             capacity t3 < 2 ^ 31 /\
             (forall i, 0 <= i < o + size + m ->
                        Buffer.get (buffer t3) i = Buffer.get (buffer t2) i) /\
             (8 * m < n ->
              Buffer.get (buffer t3) (o + size + m)
              = Some (JS.ToInt32
                        (writeBitSet_tail (Z.to_nat (n - 8 * m)) value (8 * m) 0 0)
                      mod 256))).
  { destruct (Z.ltb_spec (8 * m) n) as [Hlt|Hge].
    - destruct (writeInt8_run junk t2
                  (writeBitSet_tail (Z.to_nat (n - 8 * m)) value (8 * m) 0 0)
                  (o + size + m)) as (tail3 & W & G1 & G2); [lia|lia|right; lia|].
      set (t3 := set_buffer
                   (Buffer.set (buffer t2 ++ tail3) (o + size + m)
                      (JS.ToInt32 (writeBitSet_tail (Z.to_nat (n - 8 * m)) value
                                     (8 * m) 0 0))) t2) in *.
      exists t3. unfold bind. rewrite W. unfold ret. cbv beta iota.
      split; [reflexivity|].
      assert (Hc3 : capacity t3 = Buffer.length (buffer t2 ++ tail3))
        by (unfold t3, capacity; cbn [buffer set_buffer]; apply Buffer_length_set).
      assert (Hcap3 : Buffer.length (buffer t2 ++ tail3) < 2 ^ 31).
      { unfold capacity in *.
        destruct (Z.gtb_spec (o + size + m + 1) (Buffer.length (buffer t2))).
        - rewrite G2. lia.
        - subst tail3. rewrite app_nil_r. lia. }
      split; [reflexivity|]. split; [reflexivity|]. split; [reflexivity|].
      split; [rewrite Hc3; lia|]. split; [rewrite Hc3; lia|]. split.
      + intros i Hi. unfold t3. cbn [buffer set_buffer].
        rewrite Buffer_get_set_ne by lia. apply grown_get.
        unfold capacity in *. lia.
      + intros _. unfold t3. cbn [buffer set_buffer]. apply Buffer_get_set_eq. lia.
    - exists t2. unfold ret. rewrite Z.add_0_r.
      repeat split; try lia. }
  destruct Htail as (t3 & T & T1 & T2 & T3 & T4 & T5 & T6 & T7).
  assert (Hif : 0 <= (if 8 * m <? n then 1 else 0) <= 1)
    by (destruct (8 * m <? n); lia).
  exists (set_woffset (o + size + m + (if 8 * m <? n then 1 else 0)) t3).
  split.
  { unfold writeBitSet, bind at 1. unfold get at 1. cbv beta iota.
    change (default (woffset this) None) with o.
    assert (Hchk : (if negb (noAssert this)
                    then (let offset := JS.ToUint32 o in
                          if (offset <? 0) || (offset + 0 >? Buffer.length (buffer this))
                          then throw (RangeError "Illegal offset") else ret offset)
                    else ret o) this = (this, Ok o)).
    { destruct (noAssert this); cbn [negb]; [reflexivity|]. cbv zeta.
      unfold capacity in *. rewrite ToUint32_id by lia.
      destruct (Z.ltb_spec o 0); [lia|].
      destruct (Z.gtb_spec (o + 0) (Buffer.length (buffer this))); [lia|]. reflexivity. }
    cbv zeta in Hchk. unfold bind at 1. cbv zeta. rewrite Hchk. cbv beta iota.
    fold n. rewrite sar_3 by lia. fold m.
    unfold bind at 1. rewrite V3. cbv beta iota.
    change (default 0 (Some size)) with size.
    unfold bind at 1. rewrite L. cbv beta iota.
    unfold bind at 1. rewrite T. cbv beta iota.
    rewrite bool_decide_eq_true_2 by reflexivity. reflexivity. }
  cbn [woffset roffset noAssert buffer set_woffset].
  split; [rewrite T2, L2; reflexivity|]. split; [rewrite T3, L3; reflexivity|].
  split; [reflexivity|]. split; [exact T4|]. split; [exact T5|].
  assert (Hvar : forall i, o <= i < o + size ->
                           Buffer.get (buffer t3) i = Buffer.get b2 i).
  { intros i Hi. rewrite T6, L7 by lia. reflexivity. }
  split; [|split].
  - intros i Hi. rewrite Hvar by exact Hi. unfold b2. symmetry.
    apply writeVarint32_loop_bytes; rewrite ?Hsnd; unfold capacity in *; try lia.
  - intros j Hj. rewrite T6 by lia. rewrite L8 by lia. reflexivity.
  - exact T7.
Qed.

End BitSet.
Lemma flat_map_ext_seq {A} (f g : nat -> list A) s m :
  (forall j, (s <= j < s + m)%nat -> f j = g j) ->
  flat_map f (seq s m) = flat_map g (seq s m).
Proof.
  revert s. induction m as [|m IH]; intros s H; cbn [seq flat_map]; [reflexivity|].
  rewrite (H s) by lia. f_equal. apply IH. intros j Hj. apply H. lia.
Qed.

(** The flags that the two loops of [readBitSet] give for the bytes that the
    two loops of [writeBitSet] packed, chunk by chunk. *)
Lemma bitset_chunks (m : nat) : forall (value : list Z) (s : nat),
  Forall (fun x => x = 0 \/ x = 1) value ->
  (8 * m <= List.length value)%nat ->
  flat_map (fun j => unpackByte
                       (JS.ToInt32 (packByte value (8 * (Z.of_nat j - Z.of_nat s)))
                        mod 256)) (seq s m)
  ++ map (fun x => x =? 1) (drop (8 * m) value)
  = imap (fun i x => if (Z.of_nat i mod 8 =? 1) && (Z.of_nat i / 8 <? Z.of_nat m)
                     then false else x =? 1) value.
Proof.
  induction m as [|m IH]; intros value s Hv Hlen.
  - cbn [seq flat_map app]. rewrite Nat.mul_0_r, drop_0.
    rewrite <- (imap_const (fun x => x =? 1)). apply imap_ext.
    intros i x _. cbv beta.
    destruct (Z.ltb_spec (Z.of_nat i / 8) (Z.of_nat 0)); [zlia|].
    rewrite andb_false_r. reflexivity.
  - do 8 (destruct value as [|? value]; [simpl in Hlen; lia|]).
    cbn [seq flat_map].
    replace (8 * (Z.of_nat s - Z.of_nat s)) with 0 by lia.
    assert (Hv8 : Forall (fun x => x = 0 \/ x = 1) [z; z0; z1; z2; z3; z4; z5; z6] /\
                  Forall (fun x => x = 0 \/ x = 1) value).
    { repeat match goal with
             | H : Forall _ (_ :: _) |- _ => apply Forall_cons in H; destruct H
             end.
      split; [repeat (constructor; [assumption|]); constructor|assumption]. }
    destruct Hv8 as [Hv8 Hrest].
    rewrite packByte_flags by exact Hv8.
    replace (8 * S m)%nat with (8 + 8 * m)%nat by lia.
    change (drop (8 + 8 * m) (z :: z0 :: z1 :: z2 :: z3 :: z4 :: z5 :: z6 :: value))
      with (drop (8 * m) value).
    rewrite (flat_map_ext_seq _
               (fun j => unpackByte
                           (JS.ToInt32 (packByte value (8 * (Z.of_nat j - Z.of_nat (S s))))
                            mod 256))).
    2: { intros j Hj. do 3 f_equal.
         rewrite (packByte_drop _ (8 * (Z.of_nat j - Z.of_nat s))) by lia.
         rewrite (packByte_drop value) by lia.
         apply (f_equal (fun l => packByte l 0)).
         replace (Z.to_nat (8 * (Z.of_nat j - Z.of_nat s)))
           with (8 + Z.to_nat (8 * (Z.of_nat j - Z.of_nat (S s))))%nat by lia.
         reflexivity. }
    rewrite <- app_assoc. rewrite (IH value (S s)) by (simpl in Hlen; (exact Hrest || lia)).
    cbn [imap app].
    assert (H0 : (0 <? Z.of_nat (S m)) = true) by (apply Z.ltb_lt; lia).
    change (Z.of_nat 0 / 8) with 0. change (Z.of_nat 1 / 8) with 0.
    change (Z.of_nat 2 / 8) with 0. change (Z.of_nat 3 / 8) with 0.
    change (Z.of_nat 4 / 8) with 0. change (Z.of_nat 5 / 8) with 0.
    change (Z.of_nat 6 / 8) with 0. change (Z.of_nat 7 / 8) with 0.
    rewrite H0.
    change (Z.of_nat 0 mod 8 =? 1) with false. change (Z.of_nat 1 mod 8 =? 1) with true.
    change (Z.of_nat 2 mod 8 =? 1) with false. change (Z.of_nat 3 mod 8 =? 1) with false.
    change (Z.of_nat 4 mod 8 =? 1) with false. change (Z.of_nat 5 mod 8 =? 1) with false.
    change (Z.of_nat 6 mod 8 =? 1) with false. change (Z.of_nat 7 mod 8 =? 1) with false.
    cbn [andb]. do 8 f_equal.
    apply imap_ext. intros i x _. unfold compose. cbv beta.
    replace (Z.of_nat (S (S (S (S (S (S (S (S i)))))))) mod 8) with (Z.of_nat i mod 8)
      by zlia.
    replace (Z.of_nat (S (S (S (S (S (S (S (S i)))))))) / 8 <? Z.of_nat (S m))
      with (Z.of_nat i / 8 <? Z.of_nat m); [reflexivity|].
    destruct (Z.ltb_spec (Z.of_nat i / 8) (Z.of_nat m));
      destruct (Z.ltb_spec (Z.of_nat (S (S (S (S (S (S (S (S i)))))))) / 8)
                           (Z.of_nat (S m))); try reflexivity; zlia.
Qed.

Lemma bitset_tail (value : list Z) (m : Z) :
  let n := Z.of_nat (List.length value) in
  Forall (fun x => x = 0 \/ x = 1) value ->
  0 <= m -> 8 * m <= n < 8 * m + 8 ->
  readBitSet_tail (Z.to_nat (n - 8 * m))
    (JS.ToInt32 (writeBitSet_tail (Z.to_nat (n - 8 * m)) value (8 * m) 0 0) mod 256) 0
  = map (fun x => x =? 1) (drop (8 * Z.to_nat m) value).
Proof.
  intros n Hv Hm Hn.
  rewrite writeBitSet_tail_drop by lia.
  replace (Z.to_nat (8 * m)) with (8 * Z.to_nat m)%nat by lia.
  set (l := drop (8 * Z.to_nat m) value).
  assert (Hl : Z.to_nat (n - 8 * m) = List.length l)
    by (unfold l, n; rewrite length_drop; lia).
  rewrite Hl. apply tail_flags.
  - lia.
  - unfold l. apply Forall_drop. exact Hv.
Qed.
(** What [readBitSet] gives on a store that holds a count, its full bytes
    and its last byte. *)
Lemma readBitSet_stored this n (B : Z -> Z) (T : Z) fuel :
  let r := roffset this in
  let size := calculateVarint32 n in
  let m := n / 8 in
  let last := if 8 * m <? n then 1 else 0 in
  0 <= n < 2 ^ 31 -> 0 <= r -> r + size + m + last <= capacity this ->
  capacity this < 2 ^ 31 ->
  (forall i, r <= i < r + size ->
             Buffer.get (buffer this) i
             = Buffer.get (fst (writeVarint32_loop n r (buffer this))) i) ->
  (forall j, r + size <= j < r + size + m ->
             Buffer.get (buffer this) j = Some (B j) /\ 0 <= B j < 256) ->
  (8 * m < n -> Buffer.get (buffer this) (r + size + m) = Some T /\ 0 <= T < 256) ->
  (Z.to_nat m < fuel)%nat ->
  readBitSet fuel None this
  = (set_roffset (r + size + m + last) this,
     Ok (Some (flat_map (fun j => unpackByte (B (Z.of_nat j)))
                        (seq (Z.to_nat (r + size)) (Z.to_nat m))
               ++ (if 8 * m <? n then readBitSet_tail (Z.to_nat (n - 8 * m)) T 0
                   else [])))).
Proof.
  intros r size m last Hn Hr Hcap Hlt Hvar HB HT Hfuel.
  assert (Hm : 0 <= m /\ 8 * m <= n < 8 * m + 8) by (unfold m; zlia).
  pose proof (calculateVarint32_range n) as Hsz. fold size in Hsz.
  assert (Hlast : 0 <= last <= 1) by (unfold last; destruct (8 * m <? n); lia).
  assert (V : readVarint32 (Some r) this = (this, Ok (SNumber n size))).
  { pose proof (readVarint32_agree this n (Some r) (buffer this)) as R. cbv zeta in R.
    change (default (roffset this) (Some r)) with r in R. fold size in R.
    rewrite (ToInt32_id n) in R by lia.
    apply R; unfold capacity in *; try lia. exact Hvar. }
  unfold readBitSet, bind at 1. unfold get at 1. cbv beta iota.
  change (default (roffset this) None) with r.
  unfold bind at 1. rewrite V. cbv beta iota. rewrite sar_3 by lia. fold m.
  unfold bind at 1.
  rewrite <- (Z2Nat.id m) at 1 by lia.
  rewrite (readBitSet_bytes_run (Z.to_nat m) fuel (r + size) 0 [] this B)
    by (rewrite ?Z2Nat.id by lia; (lia || exact HB)).
  cbv beta iota. rewrite Z2Nat.id by lia. rewrite Z.add_0_l. cbn [app].
  fold last. unfold last.
  destruct (Z.ltb_spec (8 * m) n) as [Hlt8|Hge8].
  - destruct (HT Hlt8) as [Hg Hp].
    unfold bind at 1. unfold bind at 1.
    rewrite (readInt8_run this (r + size + m) T) by (lia || exact Hg).
    cbv beta iota. unfold ret at 1. cbv beta iota.
    change (JS.number (Some ?x)) with x.
    rewrite readBitSet_tail_int8 by (exact Hp || lia).
    rewrite bool_decide_eq_true_2 by reflexivity. reflexivity.
  - unfold bind at 1. unfold ret at 1. cbv beta iota.
    rewrite bool_decide_eq_true_2 by reflexivity.
    rewrite app_nil_r, Z.add_0_r. reflexivity.
Qed.

Section BitSetRoundTrip.

Variable junk : nat -> Z.

(** X24. A list of flags (each 0 or 1) written with [writeBitSet] takes the
    varint of its length and one byte for each eight flags, and [readBitSet]
    at the same offset ends and returns as many flags.  Each flag comes back
    as written, except the second flag of every full group of eight, which
    comes back [false]: [writeBitSet] masks it with [1 << 1] instead of
    shifting it. *)
Theorem bitset_roundtrip this (value : list Z) :
  let n := Z.of_nat (List.length value) in
  let o := woffset this in
  let size := calculateVarint32 n in
  Forall (fun x => x = 0 \/ x = 1) value ->
  roffset this = woffset this ->
  0 <= o <= capacity this -> capacity this < 2 ^ 28 -> o + n < 2 ^ 28 ->
  exists this',
    writeBitSet junk value None this = (this', Ok None) /\
    woffset this' = o + size + (n + 7) / 8 /\
    forall fuel, (Z.to_nat (n / 8) < fuel)%nat ->
      readBitSet fuel None this'
      = (set_roffset (woffset this') this',
         Ok (Some (imap (fun i x =>
                           if (Z.of_nat i mod 8 =? 1) && (Z.of_nat i / 8 <? n / 8)
                           then false else x =? 1) value))).
Proof.
  intros n o size Hv Hro Ho Hcap Hsize.
  destruct (writeBitSet_stored junk this value Ho Hcap Hsize)
    as (this' & W & W1 & W2 & W3 & W4 & W5 & W6 & W7 & W8).
  fold n o size in W3, W6, W7, W8. set (m := n / 8) in *.
  assert (Hn : 0 <= n) by (unfold n; lia).
  assert (Hm : 0 <= m /\ 8 * m <= n < 8 * m + 8) by (unfold m; zlia).
  pose proof (calculateVarint32_range n) as Hsz. fold size in Hsz.
  exists this'. split; [exact W|]. split.
  { rewrite W3. unfold m. destruct (Z.ltb_spec (8 * (n / 8)) n); zlia. }
  intros fuel Hfuel.
  assert (Hr : roffset this' = o) by (rewrite W1; exact Hro).
  rewrite (readBitSet_stored this' n
             (fun j => JS.ToInt32 (packByte value (8 * (j - (o + size)))) mod 256)
             (JS.ToInt32 (writeBitSet_tail (Z.to_nat (n - 8 * m)) value (8 * m) 0 0)
              mod 256) fuel); rewrite ?Hr; fold size m; try lia.
  - rewrite <- W3. do 3 f_equal.
    pose proof (bitset_chunks (Z.to_nat m) value (Z.to_nat (o + size)) Hv
                  ltac:(unfold n in *; lia)) as C.
    rewrite (Z2Nat.id m) in C by lia. fold m. rewrite <- C.
    apply (f_equal2 (@app bool)).
    + apply flat_map_ext_seq. intros j Hj. rewrite Z2Nat.id by lia. reflexivity.
    + destruct (Z.ltb_spec (8 * m) n).
      * apply bitset_tail; [exact Hv|lia|fold n; lia].
      * rewrite drop_ge by (unfold n in *; lia). reflexivity.
  - exact W6.
  - intros j Hj. split; [|apply Z.mod_pos_bound; lia].
    replace j with (o + size + (j - (o + size))) at 1 by lia.
    apply W7. lia.
  - intros H. split; [apply W8; exact H|apply Z.mod_pos_bound; lia].
Qed.

End BitSetRoundTrip.

Lemma bitset_roundtrip_witness :
  exists this',
    writeBitSet (fun _ => 0) [1; 1; 1; 0; 0; 0; 0; 1; 1; 1] None
                (mkSmartBuffer [0; 0] 0 0 false) = (this', Ok None) /\
    woffset this' = 0 + 1 + (10 + 7) / 8 /\
    readBitSet 2 None this'
    = (set_roffset (woffset this') this',
       Ok (Some [true; false; true; false; false; false; false; true; true; true])).
Proof.
  destruct (bitset_roundtrip (fun _ => 0) (mkSmartBuffer [0; 0] 0 0 false)
              [1; 1; 1; 0; 0; 0; 0; 1; 1; 1]) as (this' & W & Hw & R).
  - repeat (constructor; [cbv beta; lia|]). constructor.
  - reflexivity.
  - unfold capacity, Buffer.length. simpl. lia.
  - unfold capacity, Buffer.length. simpl. lia.
  - simpl. lia.
  - exists this'. split; [exact W|]. split; [exact Hw|].
    apply (R 2%nat). vm_compute. lia.
Defined.

(** ** The growth policy *)

Section Policy.

Variable junk : nat -> Z.
Variable utf8 : JS.jsstring -> list Z.




End Policy.



(** ** Relative and absolute calls *)

Section CursorFrames.

Variable junk : nat -> Z.
Variable utf8 : JS.jsstring -> list Z.
Variable utf8_decode : list Z -> JS.jsstring.






























End CursorFrames.

Section Duality.

Variable junk : nat -> Z.
Variable utf8 : JS.jsstring -> list Z.
Variable utf8_decode : list Z -> JS.jsstring.


End Duality.

